(** * remote-shell: the cursor-aware command-line parser and the user registry

    A shallow embedding of [internal/terminal/utils.go] (nodes, the two token
    scanners, [parseArgs], [ParseLine], the query API and [absInt]) and of
    [AddUser] and [RemoveUser] from
    [internal/server/users/user_management.go].

    Conventions of the embedding:
    - a Go [string] is a byte sequence: Rocq's [string] (a list of 8-bit
      [ascii]); [len] is its length in bytes;
    - a Go [int] is a [Z]; every index the parser computes stays within
      [0 .. len(line)], so no machine arithmetic can wrap;
    - a Go [map[string]T] is a [gmap string T];
    - a computation that can panic (index out of range, nil dereference) or
      whose loop is driven by fuel returns an [option]: [None] stands for a
      run-time panic or for exhausted fuel. *)

From Stdlib Require Import ZArith Ascii String List Bool Lia.
From stdpp Require Import base option list gmap strings.

Local Open Scope string_scope.
Local Open Scope Z_scope.
Local Open Scope list_scope.

(** ** Go strings *)

Module GoString.

Definition len (s : string) : Z := Z.of_nat (String.length s).

(** [suffix n s]: the bytes of [s] from offset [n] on. *)
Fixpoint suffix (n : nat) (s : string) : string :=
  match n, s with
  | O, _ => s
  | S n', String _ r => suffix n' r
  | S _, EmptyString => EmptyString
  end.

(** [s[i]]; out of range is a run-time panic. *)
Definition index (s : string) (i : Z) : option ascii :=
  if i <? 0 then None else String.get (Z.to_nat i) s.

Definition code (c : ascii) : Z := Z.of_N (N_of_ascii c).
Definition byte (z : Z) : ascii := ascii_of_N (Z.to_N z).

Definition RuneError : Z := 65533.

(** [string(r)] for an integer [r]: the UTF-8 encoding of the code point,
    and of U+FFFD for surrogates and values out of range. *)
Definition encode3 (r : Z) : string :=
  String (byte (Z.lor 224 (Z.shiftr r 12)))
    (String (byte (Z.lor 128 (Z.land (Z.shiftr r 6) 63)))
       (String (byte (Z.lor 128 (Z.land r 63))) EmptyString)).

Definition string_of_rune (r : Z) : string :=
  if (0 <=? r) && (r <=? 127) then String (byte r) EmptyString
  else if (0 <=? r) && (r <=? 2047) then
    String (byte (Z.lor 192 (Z.shiftr r 6)))
      (String (byte (Z.lor 128 (Z.land r 63))) EmptyString)
  else if (r <? 0) || (1114111 <? r) || ((55296 <=? r) && (r <=? 57343))
    then encode3 RuneError
  else if r <=? 65535 then encode3 r
  else
    String (byte (Z.lor 240 (Z.shiftr r 18)))
      (String (byte (Z.lor 128 (Z.land (Z.shiftr r 12) 63)))
         (String (byte (Z.lor 128 (Z.land (Z.shiftr r 6) 63)))
            (String (byte (Z.lor 128 (Z.land r 63))) EmptyString))).

(** [string(b)] for a byte [b]. *)
Definition string_of_byte (c : ascii) : string := string_of_rune (code c).

(** The first byte of a UTF-8 sequence: its length and the range accepted
    for the second byte; [None] for a byte that starts no sequence. *)
Definition firstByte (b0 : Z) : option (nat * Z * Z) :=
  if b0 <? 194 then None
  else if b0 <=? 223 then Some (2%nat, 128, 191)
  else if b0 =? 224 then Some (3%nat, 160, 191)
  else if b0 <=? 236 then Some (3%nat, 128, 191)
  else if b0 =? 237 then Some (3%nat, 128, 159)
  else if b0 <=? 239 then Some (3%nat, 128, 191)
  else if b0 =? 240 then Some (4%nat, 144, 191)
  else if b0 <=? 243 then Some (4%nat, 128, 191)
  else if b0 =? 244 then Some (4%nat, 128, 143)
  else None.

Definition cont (b : Z) : bool := (128 <=? b) && (b <=? 191).

(** [for _, c := range s]: the runes of [s] in order; a byte that does not
    start a well-formed sequence yields U+FFFD and is skipped alone. *)
Fixpoint runes (s : string) : list Z :=
  match s with
  | EmptyString => []
  | String c0 r0 =>
    let b0 := code c0 in
    if b0 <? 128 then b0 :: runes r0
    else
      match firstByte b0 with
      | None => RuneError :: runes r0
      | Some (sz, lo, hi) =>
        match r0 with
        | EmptyString => RuneError :: runes r0
        | String c1 r1 =>
          let b1 := code c1 in
          if (b1 <? lo) || (hi <? b1) then RuneError :: runes r0
          else
            match sz with
            | 2%nat => Z.lor (Z.shiftl (Z.land b0 31) 6) (Z.land b1 63) :: runes r1
            | _ =>
              match r1 with
              | EmptyString => RuneError :: runes r0
              | String c2 r2 =>
                let b2 := code c2 in
                if negb (cont b2) then RuneError :: runes r0
                else
                  match sz with
                  | 3%nat =>
                    Z.lor (Z.lor (Z.shiftl (Z.land b0 15) 12)
                                 (Z.shiftl (Z.land b1 63) 6))
                          (Z.land b2 63) :: runes r2
                  | _ =>
                    match r2 with
                    | EmptyString => RuneError :: runes r0
                    | String c3 r3 =>
                      let b3 := code c3 in
                      if negb (cont b3) then RuneError :: runes r0
                      else
                        Z.lor (Z.lor (Z.lor (Z.shiftl (Z.land b0 7) 18)
                                            (Z.shiftl (Z.land b1 63) 12))
                                     (Z.shiftl (Z.land b2 63) 6))
                              (Z.land b3 63) :: runes r3
                    end
                  end
              end
            end
        end
      end
  end.

End GoString.

Import GoString.

Definition space : ascii := " "%char.
Definition dash : ascii := "-"%char.

(** ** Nodes *)

Record baseNode := mkBase { start : Z; end_ : Z; value : string }.

(** The three node types embed [baseNode]; the coercions render Go's
    promotion of the embedded fields ([arg.start], [f.value], ...). *)
Record Argument := mkArgument { arg_base :> baseNode }.
Record Cmd := mkCmd { cmd_base :> baseNode }.
Record Flag := mkFlag { flag_base :> baseNode; Args : list Argument; long : bool }.

(** The [Node] interface. *)
Class Node (A : Type) := {
  Value : A -> string;
  Start : A -> Z;
  End : A -> Z;
  Type_ : A -> string
}.

#[export] Instance Argument_Node : Node Argument :=
  {| Value := fun a : Argument => value a; Start := fun a : Argument => start a;
     End := fun a : Argument => end_ a; Type_ := fun _ => "argument" |}.
#[export] Instance Cmd_Node : Node Cmd :=
  {| Value := fun c : Cmd => value c; Start := fun c : Cmd => start c;
     End := fun c : Cmd => end_ c; Type_ := fun _ => "command" |}.
#[export] Instance Flag_Node : Node Flag :=
  {| Value := fun f : Flag => value f; Start := fun f : Flag => start f;
     End := fun f : Flag => end_ f; Type_ := fun _ => "flag" |}.

(** A value of interface type [Node]: one of the three implementations. *)
Inductive node :=
| ArgumentNode (a : Argument)
| CmdNode (c : Cmd)
| FlagNode (f : Flag).

Definition node_base (n : node) : baseNode :=
  match n with
  | ArgumentNode a => a
  | CmdNode c => c
  | FlagNode f => f
  end.

#[export] Instance node_Node : Node node :=
  {| Value := fun n => value (node_base n);
     Start := fun n => start (node_base n);
     End := fun n => end_ (node_base n);
     Type_ := fun n => match n with
                | ArgumentNode a => Type_ a
                | CmdNode c => Type_ c
                | FlagNode f => Type_ f
                end |}.

(** The zero values of the structs. *)
Definition zeroBase : baseNode := mkBase 0 0 "".
Definition zeroFlag : Flag := mkFlag zeroBase [] false.
Definition zeroArgument : Argument := mkArgument zeroBase.

(** Field assignments. *)
Definition base_set_start (b : baseNode) (x : Z) : baseNode := mkBase x (end_ b) (value b).
Definition base_set_end (b : baseNode) (x : Z) : baseNode := mkBase (start b) x (value b).
Definition base_set_value (b : baseNode) (v : string) : baseNode := mkBase (start b) (end_ b) v.

Definition Flag_map_base (g : baseNode -> baseNode) (f : Flag) : Flag :=
  mkFlag (g f) (Args f) (long f).
Definition Flag_set_long (f : Flag) (b : bool) : Flag := mkFlag f (Args f) b.
Definition Flag_set_Args (f : Flag) (args : list Argument) : Flag := mkFlag f args (long f).
Definition Argument_map_base (g : baseNode -> baseNode) (a : Argument) : Argument :=
  mkArgument (g a).

(** [f.ArgValues()] *)
Definition ArgValues (f : Flag) : list string := map (fun v : Argument => Value v) (Args f).

(** ** The token scanners *)

(** The loop of [parseFlag]: [rest] holds the bytes of [line] from offset
    [f.end] on, so the loop condition [f.end < len(line)] is [rest] being
    non-empty and [line[f.end]] is its head. *)
Fixpoint parseFlag_loop (rest : string) (startPos : Z) (f : Flag) (linked : bool)
    (endPos : Z) : Flag * Z :=
  match rest with
  | EmptyString => (f, endPos)
  | String c rest' =>
    let endPos := end_ f in
    if (c =? space)%char then (f, endPos)
    else if (c =? dash)%char && linked then
      parseFlag_loop rest' startPos (Flag_map_base (fun b => base_set_end b (end_ b + 1)) f)
        linked endPos
    else
      let f := if (end_ f - startPos >? 1) && linked then Flag_set_long f true else f in
      let f := Flag_map_base (fun b => base_set_value b (String.append (value b) (string_of_byte c))) f in
      parseFlag_loop rest' startPos (Flag_map_base (fun b => base_set_end b (end_ b + 1)) f)
        false endPos
  end.

(** [parseFlag(line, startPos)]. A negative [startPos] indexes [line] out of
    range at once. *)
Definition parseFlag (line : string) (startPos : Z) : option (Flag * Z) :=
  if startPos <? 0 then None
  else
    let f := Flag_map_base (fun b => base_set_start b startPos) zeroFlag in
    let f := Flag_map_base (fun b => base_set_end b startPos) f in
    Some (parseFlag_loop (suffix (Z.to_nat startPos) line) startPos f true 0).

(** The loop of [parseSingleArg], on the bytes from offset [arg.end] on. *)
Fixpoint parseSingleArg_loop (rest : string) (arg : Argument) (endPos : Z) : Argument * Z :=
  match rest with
  | EmptyString => (arg, endPos)
  | String c rest' =>
    let endPos := end_ arg in
    if (c =? space)%char then (arg, endPos)
    else
      let arg := Argument_map_base (fun b => base_set_end b endPos) arg in
      let arg := Argument_map_base (fun b => base_set_value b (String.append (value b) (string_of_byte c))) arg in
      parseSingleArg_loop rest' (Argument_map_base (fun b => base_set_end b (end_ b + 1)) arg)
        endPos
  end.

Definition parseSingleArg (line : string) (startPos : Z) : option (Argument * Z) :=
  if startPos <? 0 then None
  else
    let arg := Argument_map_base (fun b => base_set_start b startPos) zeroArgument in
    let arg := Argument_map_base (fun b => base_set_end b startPos) arg in
    Some (parseSingleArg_loop (suffix (Z.to_nat startPos) line) arg 0).

(** The loop of [parseArgs]; every iteration advances [endPos], so
    [len(line)] units of fuel are enough (see [parseArgs_loop_spec]). *)
Fixpoint parseArgs_loop (fuel : nat) (line : string) (endPos : Z) (args : list Argument)
    : option (list Argument * Z) :=
  if negb (endPos <? len line) then Some (args, endPos)
  else
    match fuel with
    | O => None
    | S fuel' =>
      r ← parseSingleArg line endPos;
      let arg : Argument := r.1 in
      let endPos : Z := r.2 in
      let args := if negb (len (value arg) =? 0) then args ++ [arg] else args in
      if negb (endPos =? len line - 1) then
        c ← index line (endPos + 1);
        if (c =? dash)%char then Some (args, endPos)
        else parseArgs_loop fuel' line (endPos + 1) args
      else parseArgs_loop fuel' line (endPos + 1) args
    end.

Definition parseArgs (line : string) (startPos : Z) : option (list Argument * Z) :=
  parseArgs_loop (String.length line) line startPos [].

(** ** ParseLine *)

(** [cursorPosition >= n.start && cursorPosition <= n.end] *)
Definition within (cursorPosition : Z) (n : baseNode) : bool :=
  (cursorPosition >=? start n) && (cursorPosition <=? end_ n).

(** A [*Flag]: the address of the [newFlag] variable of the [p]-th flag scan
    (every iteration of the main loop that scans a flag declares a fresh
    one), or the address of an element of [pl.FlagsOrdered]. *)
Inductive flag_ptr :=
| VarPtr (p : nat)
| SlicePtr (i : nat).

(** What [pl.Focus] holds while the parse runs: a [*Flag] to a [newFlag]
    variable, or a pointer to an argument or to the command, neither of which
    is written to after it is taken. *)
Inductive focus_ref :=
| FocusFlag (p : nat)
| FocusArgument (a : Argument)
| FocusCmd (c : Cmd).

(** The state of a running parse: the [newFlag] variables declared so far
    (they are written to through [capture], and [pl.Focus] and [pl.Section]
    may point to the same variable), [capture], and the fields of [pl]. *)
Record pstate := mkState {
  vars : list Flag;
  capture : option nat;
  st_FlagsOrdered : list Flag;
  st_Flags : gmap string Flag;
  st_Arguments : list Argument;
  st_Focus : option focus_ref;
  st_Section : option flag_ptr
}.

Definition initState : pstate := mkState [] None [] ∅ [] None None.

Definition set_vars (st : pstate) (v : list Flag) : pstate :=
  mkState v (capture st) (st_FlagsOrdered st) (st_Flags st) (st_Arguments st)
    (st_Focus st) (st_Section st).
Definition set_capture (st : pstate) (c : option nat) : pstate :=
  mkState (vars st) c (st_FlagsOrdered st) (st_Flags st) (st_Arguments st)
    (st_Focus st) (st_Section st).
Definition set_Arguments (st : pstate) (a : list Argument) : pstate :=
  mkState (vars st) (capture st) (st_FlagsOrdered st) (st_Flags st) a
    (st_Focus st) (st_Section st).
Definition set_Focus (st : pstate) (f : option focus_ref) : pstate :=
  mkState (vars st) (capture st) (st_FlagsOrdered st) (st_Flags st) (st_Arguments st)
    f (st_Section st).
Definition set_Section (st : pstate) (s : option flag_ptr) : pstate :=
  mkState (vars st) (capture st) (st_FlagsOrdered st) (st_Flags st) (st_Arguments st)
    (st_Focus st) s.

(** [pl.Flags[f.Value()] = f; pl.FlagsOrdered = append(pl.FlagsOrdered, f)] *)
Definition addFlag (st : pstate) (f : Flag) : pstate :=
  mkState (vars st) (capture st) (st_FlagsOrdered st ++ [f]) (<[Value f := f]> (st_Flags st))
    (st_Arguments st) (st_Focus st) (st_Section st).

(** [if capture != nil { ... *capture ... }] *)
Definition flush (st : pstate) : option pstate :=
  match capture st with
  | None => Some st
  | Some p => f ← vars st !! p; Some (addFlag st f)
  end.

(** The expansion of a bundle of short options, one flag per rune. *)
Definition bundleFlag (newFlag : Flag) (i : Z) (c : Z) : Flag :=
  let f := zeroFlag in
  let f := Flag_map_base (fun b => base_set_start b (start newFlag)) f in
  let f := Flag_map_base (fun b => base_set_end b i) f in
  Flag_map_base (fun b => base_set_value b (string_of_rune c)) f.

(** The branch of the main loop taken at a ['-']. *)
Definition flagStep (line : string) (cursorPosition : Z) (i : Z) (st : pstate)
    : option (pstate * Z) :=
  st ← flush st;
  r ← parseFlag line i;
  let newFlag : Flag := r.1 in
  let i : Z := r.2 in
  let p := length (vars st) in
  let st := set_vars st (vars st ++ [newFlag]) in
  let st :=
    if within cursorPosition newFlag
    then set_Section (set_Focus st (Some (FocusFlag p))) (Some (VarPtr p))
    else st in
  if long newFlag then Some (set_capture st (Some p), i)
  else if len (Value newFlag) =? 1 then Some (set_capture st (Some p), i)
  else
    let st := set_capture st None in
    Some (fold_left (fun st c => addFlag st (bundleFlag newFlag i c))
            (runes (Value newFlag)) st, i).

(** The body of [for m, arg := range args]: [pl.Focus = &args[m]] and
    [pl.Section = capture] if the span of [arg] holds the cursor. *)
Definition focusArg (cursorPosition : Z) (st : pstate) (arg : Argument) : pstate :=
  if within cursorPosition arg
  then set_Section (set_Focus st (Some (FocusArgument arg))) (VarPtr <$> capture st)
  else st.

(** The other branch: a run of arguments. *)
Definition argStep (line : string) (cursorPosition : Z) (i : Z) (st : pstate)
    : option (pstate * Z) :=
  r ← parseArgs line i;
  let args : list Argument := r.1 in
  let i : Z := r.2 in
  let st := set_Arguments st (st_Arguments st ++ args) in
  let st := fold_left (focusArg cursorPosition) args st in
  match capture st with
  | Some p =>
    f ← vars st !! p;
    Some (set_vars st (<[p := Flag_set_Args f args]> (vars st)), i)
  | None => Some (st, i)
  end.

(** The main loop, [for i := 0; i < len(line); i++]; both branches return
    the offset they stopped at, which is never before the one they started
    from, so [len(line)] units of fuel are enough (see [ParseLine_parsed]). *)
Fixpoint ParseLine_loop (fuel : nat) (line : string) (cursorPosition : Z) (i : Z)
    (st : pstate) : option pstate :=
  if negb (i <? len line) then Some st
  else
    match fuel with
    | O => None
    | S fuel' =>
      c ← index line i;
      r ← (if (c =? dash)%char then flagStep line cursorPosition i st
           else argStep line cursorPosition i st);
      ParseLine_loop fuel' line cursorPosition (r.2 + 1) r.1
    end.

(** The backward walk over [pl.FlagsOrdered], from index [n - 1] down: the
    index of the flag whose span holds the cursor (then assigned to
    [pl.Section]), or else the index assigned to [closestLeft]. *)
Fixpoint sectionWalk (n : nat) (flags : list Flag) (cursorPosition : Z)
    : option (option nat * option nat) :=
  match n with
  | O => Some (None, None)
  | S i =>
    match (flags !! i : option Flag) with
    | None => None
    | Some f =>
      if within cursorPosition f then Some (Some i, None)
      else if end_ f >? cursorPosition then sectionWalk i flags cursorPosition
      else Some (None, Some i)
    end
  end.

Record ParsedLine := mkParsedLine {
  FlagsOrdered : list Flag;
  Flags : gmap string Flag;
  Arguments : list Argument;
  Focus : option node;
  Section_ : option Flag;
  Command : option Cmd;
  RawLine : string
}.

(** What a [*Flag] points to when the parse returns. *)
Definition deref (st : pstate) (p : flag_ptr) : option Flag :=
  match p with
  | VarPtr p => vars st !! p
  | SlicePtr i => st_FlagsOrdered st !! i
  end.

Definition deref_focus (st : pstate) (r : focus_ref) : option node :=
  match r with
  | FocusFlag p => FlagNode <$> vars st !! p
  | FocusArgument a => Some (ArgumentNode a)
  | FocusCmd c => Some (CmdNode c)
  end.

(** The part of [ParseLine] after the main loop, up to the values the
    pointers of the result lead to. *)
Definition finish (line : string) (cursorPosition : Z) (st : pstate) : option ParsedLine :=
  st ← flush st;
  w ← sectionWalk (length (st_FlagsOrdered st)) (st_FlagsOrdered st) cursorPosition;
  let closestLeft : option nat := w.2 in
  let st := match w.1 with
            | Some i => set_Section st (Some (SlicePtr i))
            | None => st
            end in
  let st := match st_Section st, closestLeft with
            | None, Some i => set_Section st (Some (SlicePtr i))
            | _, _ => st
            end in
  let '(st, command) :=
    match st_Arguments st with
    | a :: rest =>
      let c := mkCmd (mkBase (start a) (end_ a) (value a)) in
      let st := if within cursorPosition c then set_Focus st (Some (FocusCmd c)) else st in
      (set_Arguments st rest, Some c)
    | [] => (st, None)
    end in
  focus ← match st_Focus st with
          | Some r => Some <$> deref_focus st r
          | None => Some None
          end;
  section ← match st_Section st with
            | Some p => Some <$> deref st p
            | None => Some None
            end;
  Some (mkParsedLine (st_FlagsOrdered st) (st_Flags st) (st_Arguments st) focus section
          command line).

Definition ParseLine (line : string) (cursorPosition : Z) : option ParsedLine :=
  st ← ParseLine_loop (String.length line) line cursorPosition 0 initState;
  finish line cursorPosition st.

(** ** The query API *)

(** The error values: the package variable [ErrFlagNotSet] and the two
    messages built with [fmt.Errorf], each with the operands it formats. *)
Inductive error :=
| ErrFlagNotSet
| ErrExpectsArguments (flag : string) (needs : Z)
| ErrExpectsAtLeastOne (flag : string).

(** [pl.ArgumentsAsStrings()] *)
Definition ArgumentsAsStrings (pl : ParsedLine) : list string :=
  map (fun v : Argument => Value v) (Arguments pl).

Definition IsSet (pl : ParsedLine) (flag : string) : bool :=
  match Flags pl !! flag with
  | Some _ => true
  | None => false
  end.

(** The accessors return Go's pair of a value and an [error] ([None] is the
    nil error; the nil slice is the empty list). *)
Definition ExpectArgs (pl : ParsedLine) (flag : string) (needs : Z)
    : list Argument * option error :=
  match Flags pl !! flag with
  | Some f =>
    if negb (Z.of_nat (length (Args f)) =? needs)
    then ([], Some (ErrExpectsArguments flag needs))
    else (Args f, None)
  | None => ([], Some ErrFlagNotSet)
  end.

Definition GetArgs (pl : ParsedLine) (flag : string) : list Argument * option error :=
  match Flags pl !! flag with
  | Some f => (Args f, None)
  | None => ([], Some ErrFlagNotSet)
  end.

Definition GetArgsString (pl : ParsedLine) (flag : string) : list string * option error :=
  match Flags pl !! flag with
  | Some f => (ArgValues f, None)
  | None => ([], Some ErrFlagNotSet)
  end.

(** [GetArg] and [GetArgString] index element 0 of a slice; the outer
    [option] is [None] if that index is out of range. *)
Definition GetArg (pl : ParsedLine) (flag : string) : option (Argument * option error) :=
  match ExpectArgs pl flag 1 with
  | (_, Some err) => Some (zeroArgument, Some err)
  | (arg, None) => a ← arg !! 0%nat; Some (a, None)
  end.

Definition GetArgString (pl : ParsedLine) (flag : string) : option (string * option error) :=
  match Flags pl !! flag with
  | None => Some ("", Some ErrFlagNotSet)
  | Some f =>
    if Z.of_nat (length (Args f)) =? 0
    then Some ("", Some (ErrExpectsAtLeastOne flag))
    else a ← Args f !! 0%nat; Some (Value a, None)
  end.

(** ** absInt *)

(** Go's [int] is a signed two's-complement integer of [bits] bits (32 or
    64, by platform); its arithmetic wraps around. [wrapInt bits z] is the
    [int] that the exact result [z] wraps to. *)
Definition wrapInt (bits : Z) (z : Z) : Z :=
  (z + 2 ^ (bits - 1)) mod 2 ^ bits - 2 ^ (bits - 1).

Definition absInt (bits : Z) (x : Z) : Z :=
  if x <? 0 then wrapInt bits (0 - x) else wrapInt bits (x - 0).

(** ** The user registry *)

Module Users.
Section Registry.

(** [ssh.Conn], [ssh.Channel], [<-chan *ssh.Request] and [ssh.Request] are
    types of another package; an interface or channel value is [None] when
    nil. *)
Context {Conn Channel Requests Request : Type} (zeroRequest : Request).

Record User := mkUser {
  IdString : string;
  ServerConnection : option Conn;
  ShellConnection : option Channel;
  ShellRequests : option Requests;
  ProxyConnection : option Conn;
  PtyReq : Request;
  LastWindowChange : Request
}.

(** The package state: the [User] values allocated so far, addressed by
    their position, and [allUsers], which maps an id to such an address. *)
Record registry := mkRegistry {
  heap : list User;
  allUsers : gmap string nat
}.

Inductive users_error := ErrNilServerConnection.

(** [AddUser]; the body runs with [lock] held, so it is one atomic step
    on the registry. It returns [us], [err] and the registry it leaves. *)
Definition AddUser (idStr : string) (ServerConnection : option Conn) (r : registry)
    : option nat * option users_error * registry :=
  match ServerConnection with
  | None => (None, Some ErrNilServerConnection, r)
  | Some _ =>
    let us := length (heap r) in
    let u := mkUser idStr ServerConnection None None None zeroRequest zeroRequest in
    (Some us, None, mkRegistry (heap r ++ [u]) (<[idStr := us]> (allUsers r)))
  end.

(** The user stored under an id. *)
Definition lookupUser (r : registry) (idStr : string) : option User :=
  p ← allUsers r !! idStr; heap r !! p.

(** A call of [Close], on a connection or on a channel. The connections
    are objects of another package: what [RemoveUser] does to them is the
    sequence of the calls it makes (the errors they return are dropped). *)
Inductive closeCall :=
| CloseConn (c : Conn)
| CloseChannel (c : Channel).

(** The three [if ... != nil { ....Close() }] of [RemoveUser], in order. *)
Definition closeAll (us : User) : list closeCall :=
  (match ProxyConnection us with Some c => [CloseConn c] | None => [] end)
  ++ (match ServerConnection us with Some c => [CloseConn c] | None => [] end)
  ++ (match ShellConnection us with Some c => [CloseChannel c] | None => [] end).

(** [RemoveUser]: the calls of [Close] it makes and the registry it
    leaves; [None] if [allUsers] holds, under the id, an address at which
    there is no user (a nil [*User], dereferenced by [us.ProxyConnection]). *)
Definition RemoveUser (idStr : string) (r : registry)
    : option (list closeCall * registry) :=
  calls ← match allUsers r !! idStr with
          | Some p => us ← heap r !! p; Some (closeAll us)
          | None => Some []
          end;
  Some (calls, mkRegistry (heap r) (delete idStr (allUsers r))).

End Registry.
End Users.

(** ** Tokens of a line

    The vocabulary in which the properties of the parser are stated: the
    run of bytes a scanner consumes, and the space-delimited tokens of a
    line. *)

Definition nonspace (c : ascii) : bool := negb (c =? space)%char.
Definition isdash (c : ascii) : bool := (c =? dash)%char.

Fixpoint takeWhile (p : ascii -> bool) (s : string) : string :=
  match s with
  | EmptyString => EmptyString
  | String c r => if p c then String c (takeWhile p r) else EmptyString
  end.

Fixpoint dropWhile (p : ascii -> bool) (s : string) : string :=
  match s with
  | EmptyString => EmptyString
  | String c r => if p c then dropWhile p r else s
  end.

(** The bytes up to the first space (or the end). *)
Definition token (s : string) : string := takeWhile nonspace s.

(** [string(b)] of every byte, concatenated: the value a scanner builds. *)
Fixpoint encodeBytes (s : string) : string :=
  match s with
  | EmptyString => EmptyString
  | String c r => String.append (string_of_byte c) (encodeBytes r)
  end.

(** [strings.Split(s, " ")] *)
Fixpoint fields (s : string) : list string :=
  match s with
  | EmptyString => [EmptyString]
  | String c r =>
    if (c =? space)%char then EmptyString :: fields r
    else
      match fields r with
      | w :: ws => String c w :: ws
      | [] => [String c EmptyString]
      end
  end.

Definition nonempty (w : string) : bool :=
  match w with
  | EmptyString => false
  | String _ _ => true
  end.

(** The space-delimited tokens of a line. *)
Definition tokens (s : string) : list string := List.filter nonempty (fields s).

Definition isFlagToken (w : string) : bool :=
  match w with
  | String c _ => isdash c
  | EmptyString => false
  end.

(** The tokens that do not begin with a dash. *)
Definition argTokens (s : string) : list string :=
  List.filter (fun w => negb (isFlagToken w)) (tokens s).

(** The nodes the top level of a result accounts for: the command, then the
    arguments. *)
Definition topLevel (pl : ParsedLine) : list baseNode :=
  match Command pl with
  | Some c => [cmd_base c]
  | None => []
  end ++ map arg_base (Arguments pl).


(** * The vocabulary of the properties *)

(** The offset a scanner returns with: that of the space that stopped it,
    or of the last byte of the line ([endPos0] if there was nothing to scan). *)
Definition stopOffset (rest : string) (pos endPos0 : Z) : Z :=
  match rest with
  | EmptyString => endPos0
  | String _ _ =>
    if len (token rest) =? len rest then pos + len rest - 1 else pos + len (token rest)
  end.

(** The values of a list of arguments. *)
Definition valuesOf (l : list Argument) : list string := map (fun a : Argument => value a) l.

(** An argument as [parseSingleArg] builds it from the token at its start
    offset. *)
Definition argumentAt (line : string) (a : Argument) : Prop :=
  let tok := token (suffix (Z.to_nat (start a)) line) in
  end_ a = start a + len tok /\ value a = encodeBytes tok /\ tok <> EmptyString.

(** The flag nearest to the left of the cursor, in the words of the
    specification: walking [FlagsOrdered] from last to first, the first flag
    that does not end after the cursor. *)
Definition nearestLeft (flags : list Flag) (cursorPosition : Z) : option Flag :=
  List.find (fun f : Flag => end_ f <=? cursorPosition) (rev flags).

(** The order in which flags follow one another in [FlagsOrdered]: a flag
    shares the span of a later one (and owns nothing, as in a bundle), or it
    and the arguments it owns end before the later one starts. *)
Definition precedes (f g : Flag) : Prop :=
  (start f = start g /\ end_ f = end_ g /\ Args f = []) \/
  (end_ f < start g /\ Forall (fun a : Argument => end_ a < start g) (Args f)).

Inductive ordered : list Flag -> Prop :=
| ordered_nil : ordered []
| ordered_snoc l x : ordered l -> Forall (fun f => precedes f x) l -> ordered (l ++ [x]).

(** ** The invariant of the main loop and the properties of a result *)

Section Properties.

Variables (line : string) (cursorPosition : Z).

(** A node scanned before offset [i]: it ends before [i], unless the scan
    has reached the end of the line. *)
Definition before (i : Z) (n : baseNode) : Prop := end_ n < i \/ len line <= i.

Definition argOK (i : Z) (a : Argument) : Prop :=
  0 <= start a /\ start a < end_ a /\ end_ a <= len line /\ before i a.

Definition flagOK (i : Z) (f : Flag) : Prop :=
  0 <= start f /\ start f <= end_ f /\ end_ f <= len line /\ before i f /\
  Forall (fun a : Argument => end_ f < start a /\ argOK i a) (Args f).

(** The flags of the result so far: those in [FlagsOrdered] and the
    capturing one. *)
Definition current (st : pstate) (g : Flag) : Prop :=
  In g (st_FlagsOrdered st) \/ exists q, capture st = Some q /\ vars st !! q = Some g.

Definition focusOK (st : pstate) (r : focus_ref) : Prop :=
  match r with
  | FocusFlag p =>
    exists g : Flag, vars st !! p = Some g /\ within cursorPosition g = true /\
      st_Section st = Some (VarPtr p) /\
      Forall (fun a : Argument => within cursorPosition a = false) (st_Arguments st)
  | FocusArgument a =>
    within cursorPosition a = true /\ 0 <= start a /\ end_ a <= len line
  | FocusCmd _ => False
  end.

Record inv (i : Z) (st : pstate) : Prop := mkInv {
  inv_pos : 0 <= i;
  inv_vars : Forall (flagOK i) (vars st);
  inv_FO : Forall (flagOK i) (st_FlagsOrdered st);
  inv_Flags : forall k f, st_Flags st !! k = Some f -> In f (st_FlagsOrdered st);
  inv_Args : Forall (argOK i) (st_Arguments st);
  inv_ordered : ordered (st_FlagsOrdered st);
  inv_capture : forall q, capture st = Some q ->
    exists g : Flag, vars st !! q = Some g /\
                     Forall (fun f => precedes f g) (st_FlagsOrdered st);
  inv_alt : forall q (g : Flag), capture st = Some q -> vars st !! q = Some g ->
    Args g <> [] -> len line <= i \/ index line i = Some dash;
  inv_focus : forall r, st_Focus st = Some r -> focusOK st r;
  inv_sec_from : forall ptr, st_Section st = Some ptr ->
    exists p (g : Flag), ptr = VarPtr p /\ vars st !! p = Some g /\
      (st_Focus st = Some (FocusFlag p) \/
       exists a : Argument, In a (Args g) /\ within cursorPosition a = true /\
                            (In g (st_FlagsOrdered st) \/ capture st = Some p));
  inv_sec_owned : forall g (a : Argument), current st g -> In a (Args g) ->
    within cursorPosition a = true ->
    exists p, st_Section st = Some (VarPtr p) /\ vars st !! p = Some g;
  inv_tokens :
    valuesOf (st_Arguments st) ++ map encodeBytes (argTokens (suffix (Z.to_nat i) line))
    = map encodeBytes (argTokens line);
  inv_owned_top : forall g (a : Argument), current st g -> In a (Args g) ->
    In a (st_Arguments st)
}.

(** [Arguments[0]] as a command. *)
Definition asCmd (a : Argument) : Cmd := mkCmd (mkBase (start a) (end_ a) (value a)).

(** The spans of a flag and of the arguments it owns. *)
Definition flagSpan (f : Flag) : Prop :=
  0 <= start f /\ start f <= end_ f /\ end_ f <= len line /\
  Forall (fun a : Argument =>
            end_ f < start a /\ 0 <= start a /\ start a < end_ a /\ end_ a <= len line)
         (Args f).

Definition argSpan (a : Argument) : Prop :=
  0 <= start a /\ start a < end_ a /\ end_ a <= len line.

(** The properties of a result of [ParseLine]. *)
Record parsed (pl : ParsedLine) : Prop := mkParsed {
  p_raw : RawLine pl = line;
  p_flags : Forall flagSpan (FlagsOrdered pl);
  p_Flags : forall k f, Flags pl !! k = Some f -> In f (FlagsOrdered pl);
  p_args : Forall argSpan (Arguments pl);
  p_cmd : forall cmd : Cmd, Command pl = Some cmd ->
    0 <= start cmd /\ start cmd < end_ cmd /\ end_ cmd <= len line;
  p_focus : forall n, Focus pl = Some n ->
    within cursorPosition (node_base n) = true /\
    0 <= start (node_base n) /\ end_ (node_base n) <= len line;
  p_section : forall f, Section_ pl = Some f -> flagSpan f;
  p_top : map value (topLevel pl) = map encodeBytes (argTokens line);
  p_owned : forall (f : Flag) (a : Argument),
    In f (FlagsOrdered pl) -> In a (Args f) -> In (arg_base a) (topLevel pl);
  p_sec_flag : forall f : Flag, In f (FlagsOrdered pl) ->
    within cursorPosition f = true ->
    exists g : Flag, Section_ pl = Some g /\ In g (FlagsOrdered pl) /\
      within cursorPosition g = true /\ start g = start f /\ end_ g = end_ f;
  p_sec_focus : forall f : Flag, Focus pl = Some (FlagNode f) ->
    (forall g : Flag, In g (FlagsOrdered pl) -> within cursorPosition g = false) ->
    Section_ pl = Some f;
  p_sec_owned : forall (f : Flag) (a : Argument),
    In f (FlagsOrdered pl) -> In a (Args f) -> within cursorPosition a = true ->
    Section_ pl = Some f;
  p_sec_else :
    (forall g : Flag, In g (FlagsOrdered pl) -> within cursorPosition g = false) ->
    (forall f : Flag, Focus pl <> Some (FlagNode f)) ->
    (forall (f : Flag) (a : Argument), In f (FlagsOrdered pl) -> In a (Args f) ->
       within cursorPosition a = false) ->
    Section_ pl = nearestLeft (FlagsOrdered pl) cursorPosition
}.

End Properties.

(** A state without its focus and section. *)
Definition core (st : pstate) : pstate :=
  mkState (vars st) (capture st) (st_FlagsOrdered st) (st_Flags st) (st_Arguments st)
    None None.

Definition sameCore (r r' : option (pstate * Z)) : Prop :=
  match r, r' with
  | Some (s, j), Some (s', j') => core s = core s' /\ j = j'
  | None, None => True
  | _, _ => False
  end.

(** The flags, the arguments and the command of a result do not depend on
    the cursor. *)
Record sameStructure (pl pl' : ParsedLine) : Prop := mkSame {
  same_FlagsOrdered : FlagsOrdered pl = FlagsOrdered pl';
  same_Flags : Flags pl = Flags pl';
  same_Arguments : Arguments pl = Arguments pl';
  same_Command : Command pl = Command pl';
  same_RawLine : RawLine pl = RawLine pl'
}.

(** ** The flag token at an offset *)

(** The dashes a flag token begins with, and the bytes that follow them up
    to the next space. *)
Definition leadingDashes (s : string) : Z := len (takeWhile isdash s).
Definition flagName (s : string) : string := token (dropWhile isdash s).

(** ** The nodes of the examples *)

(** ["-aft value"]: the three flags of the bundle and the command. *)
Definition flag_a : Flag := mkFlag (mkBase 0 4 "a") [] false.
Definition flag_f : Flag := mkFlag (mkBase 0 4 "f") [] false.
Definition flag_t : Flag := mkFlag (mkBase 0 4 "t") [] false.
Definition cmd_value : Cmd := mkCmd (mkBase 5 10 "value").



(** * Further vocabulary *)

(** ** Bytes of a token *)

(** The number of bytes of [s] that are not ASCII (0x80 and above). *)
Fixpoint highBytes (s : string) : Z :=
  match s with
  | EmptyString => 0
  | String c r => (if code c <? 128 then 0 else 1) + highBytes r
  end.

(** ** Flags and the tokens they come from *)

(** The tokens that begin with a dash. *)
Definition flagTokens (s : string) : list string := List.filter isFlagToken (tokens s).

(** The names of the flags that [ParseLine] makes of a flag token: the
    name that follows the dashes, for a token with two dashes or more and a
    name, and for a token whose name is one byte once built; otherwise one
    name for each byte that follows the dashes. *)
Definition flagNames (tok : string) : list string :=
  if ((leadingDashes tok >? 1) && negb (len (flagName tok) =? 0))
     || (len (encodeBytes (flagName tok)) =? 1)
  then [encodeBytes (flagName tok)]
  else map string_of_byte (list_ascii_of_string (flagName tok)).

(** The map that the flags of a list build when each is stored under its
    name, in order. *)
Definition flagMap (l : list Flag) : gmap string Flag :=
  fold_left (fun m (f : Flag) => <[value f := f]> m) l ∅.

(** The last flag of a list with a given name. *)
Definition lastNamed (flags : list Flag) (name : string) : option Flag :=
  List.find (fun f : Flag => String.eqb (value f) name) (rev flags).

(** A flag as [parseFlag] returns one that then captures: its value is the
    name of the token at its start offset, and it is long or that name is
    one byte. *)
Definition scanned (line : string) (f : Flag) : Prop :=
  0 <= start f /\
  value f = encodeBytes (flagName (suffix (Z.to_nat (start f)) line)) /\
  (long f = true \/ len (value f) = 1).

(** A flag as [parseFlag] returns one that does not capture. *)
Definition uncaptured (f : Flag) : Prop :=
  Args f = [] /\ long f = false /\ len (value f) <> 1.

(** The name of the capturing flag, which is not in [FlagsOrdered] yet. *)
Definition pendingName (st : pstate) : list string :=
  match capture st with
  | Some p => match (vars st !! p : option Flag) with
              | Some g => [value g]
              | None => []
              end
  | None => []
  end.

(** What [flush] adds to [FlagsOrdered] and [Flags]. *)
Definition flushed (st : pstate) (FO0 : list Flag) (Fl0 : gmap string Flag) : Prop :=
  (capture st = None /\ FO0 = st_FlagsOrdered st /\ Fl0 = st_Flags st) \/
  (exists p (g : Flag), capture st = Some p /\ vars st !! p = Some g /\
     FO0 = st_FlagsOrdered st ++ [g] /\ Fl0 = <[value g := g]> (st_Flags st)).

(** What the main loop keeps besides [inv]: how [Flags] follows
    [FlagsOrdered], which flag tokens have been scanned and the flags made
    of them, which flags own arguments, and what the focus can be. *)
Record inv2 (line : string) (cursorPosition : Z) (i : Z) (st : pstate) : Prop := mkInv2 {
  i2_Flags : st_Flags st = flagMap (st_FlagsOrdered st);
  i2_toks : exists pre,
    flagTokens line = pre ++ flagTokens (suffix (Z.to_nat i) line) /\
    length pre = length (vars st) /\
    map (fun f : Flag => value f) (st_FlagsOrdered st) ++ pendingName st
      = flat_map flagNames pre;
  i2_capture : forall p (g : Flag), capture st = Some p -> vars st !! p = Some g ->
    scanned line g;
  i2_owners : Forall (fun f : Flag => Args f = [] \/ scanned line f) (st_FlagsOrdered st);
  i2_vars : forall p (g : Flag), vars st !! p = Some g ->
    capture st = Some p \/ In g (st_FlagsOrdered st) \/ uncaptured g;
  i2_focusArg : forall a, st_Focus st = Some (FocusArgument a) -> In a (st_Arguments st);
  i2_nofocus : st_Focus st = None ->
    Forall (fun a : Argument => within cursorPosition a = false) (st_Arguments st) /\
    Forall (fun f : Flag => within cursorPosition f = false) (vars st) /\
    Forall (fun f : Flag => within cursorPosition f = false) (st_FlagsOrdered st)
}.

(** Further properties of a result of [ParseLine]. *)
Record parsed2 (line : string) (cursorPosition : Z) (pl : ParsedLine) : Prop := mkParsed2 {
  q_Flags : Flags pl = flagMap (FlagsOrdered pl);
  q_names : map (fun f : Flag => value f) (FlagsOrdered pl)
            = flat_map flagNames (flagTokens line);
  q_owners : Forall (fun f : Flag => Args f = [] \/ scanned line f) (FlagsOrdered pl);
  q_ordered : ordered (FlagsOrdered pl);
  q_cmd : Command pl = None -> Arguments pl = [];
  q_focus_cmd : forall cmd, Focus pl = Some (CmdNode cmd) -> Command pl = Some cmd;
  q_focus_arg : forall a, Focus pl = Some (ArgumentNode a) -> In a (Arguments pl);
  q_focus_flag : forall f, Focus pl = Some (FlagNode f) ->
    (In f (FlagsOrdered pl) \/ uncaptured f) /\ flagTokens line <> [];
  q_nofocus : Focus pl = None ->
    (forall cmd : Cmd, Command pl = Some cmd -> within cursorPosition cmd = false) /\
    Forall (fun a : Argument => within cursorPosition a = false) (Arguments pl) /\
    Forall (fun f : Flag => within cursorPosition f = false) (FlagsOrdered pl)
}.

(** ** The node under the cursor *)

(** Arguments in the order of the line, one ending before the next
    starts. *)
Definition sortedArgs (l : list Argument) : Prop :=
  forall (k1 k2 : nat) (a b : Argument), (k1 < k2)%nat ->
    l !! k1 = Some a -> l !! k2 = Some b -> end_ a < start b.

(** What the main loop keeps about the focus: whichever node scanned so
    far holds the cursor is the focus. *)
Record inv3 (cursorPosition : Z) (st : pstate) : Prop := mkInv3 {
  i3_sorted : sortedArgs (st_Arguments st);
  i3_arg : forall a, In a (st_Arguments st) -> within cursorPosition a = true ->
    st_Focus st = Some (FocusArgument a);
  i3_var : forall p (g : Flag), vars st !! p = Some g -> within cursorPosition g = true ->
    st_Focus st = Some (FocusFlag p);
  i3_FO : forall f : Flag, In f (st_FlagsOrdered st) ->
    exists p (g : Flag), vars st !! p = Some g /\ capture st <> Some p /\
      start g = start f /\ end_ f <= end_ g /\ (g = f \/ uncaptured g)
}.

(** ** The registry

    [consistent r]: every id of [allUsers] leads to a user that is there,
    and that user carries the id. *)
Definition consistent {Conn Channel Requests Request : Type}
    (r : Users.registry (Conn:=Conn) (Channel:=Channel) (Requests:=Requests)
           (Request:=Request)) : Prop :=
  forall idStr p, Users.allUsers r !! idStr = Some p ->
    exists us, Users.heap r !! p = Some us /\ Users.IdString us = idStr.

(** The registry with no user. *)
Definition emptyRegistry {Conn Channel Requests Request : Type}
    : Users.registry (Conn:=Conn) (Channel:=Channel) (Requests:=Requests)
        (Request:=Request) :=
  Users.mkRegistry [] ∅.


(** * Proofs *)

(** ** Strings and offsets *)

Lemma len_nonneg s : 0 <= len s.
Proof. unfold len. lia. Qed.

Lemma len_String c s : len (String c s) = len s + 1.
Proof. unfold len. cbn [String.length]. lia. Qed.

Lemma len_empty : len EmptyString = 0.
Proof. reflexivity. Qed.

Lemma append_String c s t : String.append (String c s) t = String c (String.append s t).
Proof. reflexivity. Qed.

Lemma append_empty_l t : String.append EmptyString t = t.
Proof. reflexivity. Qed.

Lemma len_append s t : len (String.append s t) = len s + len t.
Proof.
  induction s as [|c s IH].
  - rewrite append_empty_l, len_empty. lia.
  - rewrite append_String, !len_String. lia.
Qed.

Lemma append_empty_r s : String.append s EmptyString = s.
Proof.
  induction s as [|c s IH]; [reflexivity|]. rewrite append_String. congruence.
Qed.

Lemma append_assoc s t u :
  String.append (String.append s t) u = String.append s (String.append t u).
Proof.
  induction s as [|c s IH]; [reflexivity|]. rewrite !append_String. congruence.
Qed.

Lemma suffix_empty n : suffix n EmptyString = EmptyString.
Proof. destruct n; reflexivity. Qed.

Lemma suffix_ge n s : (String.length s <= n)%nat -> suffix n s = EmptyString.
Proof.
  revert s. induction n as [|n IH]; intros [|c s] H; simpl in *; try reflexivity; try lia.
  apply IH. lia.
Qed.

Lemma suffix_succ n s c r : suffix n s = String c r -> suffix (S n) s = r.
Proof.
  revert s. induction n as [|n IH]; intros s H.
  - simpl in H. subst s. reflexivity.
  - destruct s as [|a s]; simpl in H; [discriminate|].
    change (suffix (S n) s = r). now apply IH.
Qed.

Lemma suffix_lt n s : (n < String.length s)%nat -> exists c, suffix n s = String c (suffix (S n) s).
Proof.
  revert s. induction n as [|n IH]; intros [|a s] H; simpl in *; try lia.
  - now exists a.
  - destruct (IH s) as [c Hc]; [lia|]. exists c. exact Hc.
Qed.

Lemma len_suffix n s : (n <= String.length s)%nat -> len (suffix n s) = len s - Z.of_nat n.
Proof.
  revert s. induction n as [|n IH]; intros s H; simpl.
  - lia.
  - destruct s as [|a s]; simpl in H; [lia|]. rewrite IH by lia. rewrite len_String. lia.
Qed.

Lemma get_suffix n s : String.get n s = match suffix n s with String c _ => Some c | EmptyString => None end.
Proof.
  revert s. induction n as [|n IH]; intros [|a s]; simpl; try reflexivity. apply IH.
Qed.

(** An offset within the line reads a byte, the head of the bytes from that
    offset on. *)
Lemma index_in_range s i :
  0 <= i < len s ->
  exists c, index s i = Some c /\
            suffix (Z.to_nat i) s = String c (suffix (Z.to_nat (i + 1)) s).
Proof.
  intros [H0 H1]. unfold index.
  destruct (Z.ltb_spec i 0) as [?|_]; [lia|].
  destruct (suffix_lt (Z.to_nat i) s) as [c Hc]; [unfold len in H1; lia|].
  exists c. rewrite get_suffix, Hc. split; [reflexivity|].
  replace (Z.to_nat (i + 1)) with (S (Z.to_nat i)) by lia. reflexivity.
Qed.

Lemma suffix_past s i : len s <= i -> suffix (Z.to_nat i) s = EmptyString.
Proof. intros H. apply suffix_ge. unfold len in H. lia. Qed.

Lemma len_pos_nonempty s : 0 < len s -> exists c r, s = String c r.
Proof. destruct s as [|c r]; [rewrite len_empty; lia|]. eauto. Qed.

(** ** Tokens *)

Lemma len_takeWhile p s : len (takeWhile p s) <= len s.
Proof.
  induction s as [|c s IH]; simpl; [lia|].
  destruct (p c); rewrite ?len_String, ?len_empty; pose proof (len_nonneg s); lia.
Qed.

Lemma len_token s : 0 <= len (token s) <= len s.
Proof. split; [apply len_nonneg | apply len_takeWhile]. Qed.

Lemma token_String c r :
  token (String c r) = if (c =? space)%char then EmptyString else String c (token r).
Proof. unfold token, nonspace. simpl. now destruct (c =? space)%char. Qed.

(** ** Records *)

Lemma Argument_eta (a : Argument) : mkArgument (mkBase (start a) (end_ a) (value a)) = a.
Proof. now destruct a as [[? ? ?]]. Qed.

Lemma Flag_eta (f : Flag) :
  mkFlag (mkBase (start f) (end_ f) (value f)) (Args f) (long f) = f.
Proof. now destruct f as [[? ? ?] ? ?]. Qed.

(** ** The scanners *)

Lemma stopOffset_space c r pos endPos0 :
  (c =? space)%char = true -> stopOffset (String c r) pos endPos0 = pos.
Proof.
  intros H. unfold stopOffset. rewrite token_String, H, len_empty, len_String.
  destruct (Z.eqb_spec 0 (len r + 1)) as [E|_]; [pose proof (len_nonneg r); lia|]. lia.
Qed.

Lemma stopOffset_nonspace c r pos endPos0 :
  (c =? space)%char = false ->
  stopOffset (String c r) pos endPos0 = stopOffset r (pos + 1) pos.
Proof.
  intros H. unfold stopOffset. rewrite token_String, H, !len_String.
  destruct r as [|c' r'].
  - cbn [token takeWhile]. rewrite len_empty, Z.eqb_refl. lia.
  - set (r := String c' r').
    destruct (Z.eqb_spec (len (token r)) (len r)) as [E|E];
    destruct (Z.eqb_spec (len (token r) + 1) (len r + 1)) as [E'|E']; lia.
Qed.

Lemma Argument_ext (a b : Argument) :
  start a = start b -> end_ a = end_ b -> value a = value b -> a = b.
Proof. destruct a as [[? ? ?]], b as [[? ? ?]]. cbn. congruence. Qed.

Lemma Flag_ext (f g : Flag) :
  start f = start g -> end_ f = end_ g -> value f = value g ->
  Args f = Args g -> long f = long g -> f = g.
Proof. destruct f as [[? ? ?] ? ?], g as [[? ? ?] ? ?]. cbn. congruence. Qed.

(** [parseSingleArg]'s loop consumes the token at its offset: the end offset
    moves past it, the value collects its bytes, and the offset returned is
    that of the space that stopped the scan or of the last byte of the line. *)
Lemma parseSingleArg_loop_spec rest (arg : Argument) endPos :
  parseSingleArg_loop rest arg endPos =
  (mkArgument (mkBase (start arg) (end_ arg + len (token rest))
                      (String.append (value arg) (encodeBytes (token rest)))),
   stopOffset rest (end_ arg) endPos).
Proof.
  revert arg endPos. induction rest as [|c r IH]; intros arg endPos.
  - cbn [parseSingleArg_loop token takeWhile encodeBytes stopOffset].
    rewrite len_empty, Z.add_0_r, append_empty_r, Argument_eta. reflexivity.
  - cbn [parseSingleArg_loop]. destruct (c =? space)%char eqn:Hc.
    + rewrite stopOffset_space by exact Hc. rewrite token_String, Hc.
      cbn [encodeBytes]. rewrite len_empty, Z.add_0_r, append_empty_r, Argument_eta.
      reflexivity.
    + rewrite IH, stopOffset_nonspace by exact Hc. rewrite token_String, Hc.
      cbn [encodeBytes]. rewrite len_String. f_equal.
      apply Argument_ext; cbn [start end_ value arg_base Argument_map_base
                                 base_set_end base_set_value]; try lia.
      now rewrite append_assoc.
Qed.

(** A flag scan with the dashes already behind it appends every byte. *)
Lemma parseFlag_loop_unlinked rest startPos (f : Flag) endPos :
  parseFlag_loop rest startPos f false endPos =
  (mkFlag (mkBase (start f) (end_ f + len (token rest))
                  (String.append (value f) (encodeBytes (token rest))))
          (Args f) (long f),
   stopOffset rest (end_ f) endPos).
Proof.
  revert f endPos. induction rest as [|c r IH]; intros f endPos.
  - cbn [parseFlag_loop token takeWhile encodeBytes stopOffset].
    rewrite len_empty, Z.add_0_r, append_empty_r, Flag_eta. reflexivity.
  - cbn [parseFlag_loop]. destruct (c =? space)%char eqn:Hc.
    + rewrite stopOffset_space by exact Hc. rewrite token_String, Hc.
      cbn [encodeBytes]. rewrite len_empty, Z.add_0_r, append_empty_r, Flag_eta.
      reflexivity.
    + rewrite !andb_false_r, IH, stopOffset_nonspace by exact Hc.
      rewrite token_String, Hc. cbn [encodeBytes]. rewrite len_String. f_equal.
      apply Flag_ext; cbn [start end_ value flag_base Args long Flag_map_base
                             base_set_end base_set_value]; try lia; try reflexivity.
      now rewrite append_assoc.
Qed.

Lemma token_dash_String c r :
  (c =? dash)%char = true -> token (String c r) = String c (token r).
Proof.
  intros H. rewrite token_String. apply Ascii.eqb_eq in H. subst c. reflexivity.
Qed.

Lemma space_not_dash c : (c =? space)%char = true -> (c =? dash)%char = false.
Proof. intros H. apply Ascii.eqb_eq in H. subst c. reflexivity. Qed.

Lemma isdash_eq c : isdash c = (c =? dash)%char.
Proof. reflexivity. Qed.

(** A flag scan still at the leading dashes skips them; [long] is set at
    the first other byte if two or more bytes precede it. *)
Lemma parseFlag_loop_linked rest startPos (f : Flag) endPos :
  parseFlag_loop rest startPos f true endPos =
  (mkFlag (mkBase (start f) (end_ f + len (token rest))
                  (String.append (value f) (encodeBytes (token (dropWhile isdash rest)))))
          (Args f)
          (long f || ((end_ f + len (takeWhile isdash rest) - startPos >? 1)
                      && negb (len (token (dropWhile isdash rest)) =? 0))),
   stopOffset rest (end_ f) endPos).
Proof.
  revert f endPos. induction rest as [|c r IH]; intros f endPos.
  - cbn [parseFlag_loop token takeWhile dropWhile encodeBytes stopOffset].
    rewrite len_empty, Z.add_0_r, append_empty_r. change (0 =? 0) with true. cbn [negb].
    rewrite andb_false_r, orb_false_r, Flag_eta. reflexivity.
  - cbn [parseFlag_loop takeWhile dropWhile]. rewrite !isdash_eq.
    destruct (c =? space)%char eqn:Hs.
    + rewrite (space_not_dash c Hs), stopOffset_space by exact Hs.
      cbv iota. rewrite !token_String, Hs. cbn [encodeBytes].
      rewrite len_empty, Z.add_0_r, append_empty_r. change (0 =? 0) with true. cbn [negb].
      rewrite andb_false_r, orb_false_r, Flag_eta. reflexivity.
    + destruct (c =? dash)%char eqn:Hd; cbn [andb].
      * rewrite IH, stopOffset_nonspace by exact Hs.
        cbv iota. rewrite token_dash_String by exact Hd. rewrite !len_String. f_equal.
        apply Flag_ext; cbn [start end_ value flag_base Args long Flag_map_base
                               base_set_end base_set_value]; try lia; try reflexivity.
        do 3 f_equal. lia.
      * rewrite andb_true_r, parseFlag_loop_unlinked, stopOffset_nonspace by exact Hs.
        cbv iota. rewrite !token_String, Hs. cbn [encodeBytes].
        rewrite !len_String, len_empty.
        destruct (Z.eqb_spec (len (token r) + 1) 0) as [E|_];
          [pose proof (len_nonneg (token r)); lia|].
        cbn [negb]. rewrite andb_true_r, Z.add_0_r.
        destruct (end_ f - startPos >? 1) eqn:Hl;
          (apply (f_equal2 pair); [|reflexivity]);
          apply Flag_ext; cbn [start end_ value flag_base Args long Flag_map_base
                                 base_set_end base_set_value Flag_set_long];
          rewrite ?append_assoc, ?orb_true_r, ?orb_false_r; try lia; reflexivity.
Qed.

(** What [parseFlag] returns, in terms of the bytes from [startPos] on. *)
Lemma parseFlag_spec line startPos :
  0 <= startPos ->
  let rest := suffix (Z.to_nat startPos) line in
  parseFlag line startPos =
  Some (mkFlag (mkBase startPos (startPos + len (token rest))
                       (encodeBytes (token (dropWhile isdash rest))))
               []
               ((len (takeWhile isdash rest) >? 1)
                && negb (len (token (dropWhile isdash rest)) =? 0)),
        stopOffset rest startPos 0).
Proof.
  intros H rest. unfold parseFlag.
  destruct (Z.ltb_spec startPos 0) as [?|_]; [lia|].
  fold rest. rewrite parseFlag_loop_linked. f_equal. f_equal.
  apply Flag_ext; cbn [start end_ value flag_base Args long Flag_map_base
                         base_set_start base_set_end zeroFlag zeroBase orb];
    try reflexivity.
  do 2 f_equal. lia.
Qed.

(** What [parseSingleArg] returns. *)
Lemma parseSingleArg_spec line startPos :
  0 <= startPos ->
  let rest := suffix (Z.to_nat startPos) line in
  parseSingleArg line startPos =
  Some (mkArgument (mkBase startPos (startPos + len (token rest)) (encodeBytes (token rest))),
        stopOffset rest startPos 0).
Proof.
  intros H rest. unfold parseSingleArg.
  destruct (Z.ltb_spec startPos 0) as [?|_]; [lia|].
  fold rest. rewrite parseSingleArg_loop_spec. reflexivity.
Qed.

(** ** Offsets and the bytes that follow them *)

Lemma suffix_suffix n m s : suffix (n + m) s = suffix m (suffix n s).
Proof.
  revert s. induction n as [|n IH]; intros s; [reflexivity|].
  destruct s as [|c s]; cbn [Nat.add suffix]; [now rewrite suffix_empty|]. apply IH.
Qed.

Lemma suffix_offset line p n :
  0 <= p -> 0 <= n ->
  suffix (Z.to_nat (p + n)) line = suffix (Z.to_nat n) (suffix (Z.to_nat p) line).
Proof. intros Hp Hn. rewrite Z2Nat.inj_add by lia. apply suffix_suffix. Qed.

Lemma len_suffix_offset line p :
  0 <= p <= len line -> len (suffix (Z.to_nat p) line) = len line - p.
Proof. intros H. rewrite len_suffix; unfold len in *; lia. Qed.

(** The bytes after the token: none, or a space and what follows it. *)
Lemma suffix_token s :
  suffix (Z.to_nat (len (token s))) s = dropWhile nonspace s.
Proof.
  induction s as [|c s IH]; [reflexivity|].
  rewrite token_String. cbn [dropWhile]. unfold nonspace at 1.
  destruct (c =? space)%char; cbn [negb]; [reflexivity|].
  rewrite len_String. replace (Z.to_nat (len (token s) + 1)) with (S (Z.to_nat (len (token s)))).
  - exact IH.
  - pose proof (len_nonneg (token s)). lia.
Qed.

Lemma after_token s :
  (dropWhile nonspace s = EmptyString /\ len (token s) = len s) \/
  (exists r, dropWhile nonspace s = String space r /\ len (token s) < len s).
Proof.
  induction s as [|c s IH]; [left; split; reflexivity|].
  rewrite token_String. cbn [dropWhile]. unfold nonspace at 1 3.
  destruct (c =? space)%char eqn:Hc; cbn [negb].
  - right. apply Ascii.eqb_eq in Hc. subst c. exists s. split; [reflexivity|].
    rewrite len_empty, len_String. pose proof (len_nonneg s). lia.
  - rewrite !len_String. destruct IH as [[H1 H2]|[r [H1 H2]]].
    + left. split; [exact H1 | lia].
    + right. exists r. split; [exact H1 | lia].
Qed.

(** Where a scan stops, given what follows the token. *)
Lemma stopOffset_cases rest pos endPos0 :
  rest <> EmptyString ->
  (dropWhile nonspace rest = EmptyString /\ len (token rest) = len rest /\
   stopOffset rest pos endPos0 = pos + len rest - 1) \/
  (exists r, dropWhile nonspace rest = String space r /\ len (token rest) < len rest /\
             stopOffset rest pos endPos0 = pos + len (token rest)).
Proof.
  intros Hne. destruct rest as [|c r]; [congruence|]. unfold stopOffset.
  destruct (after_token (String c r)) as [[H1 H2]|[r' [H1 H2]]].
  - left. rewrite H2, Z.eqb_refl. auto.
  - right. exists r'. destruct (Z.eqb_spec (len (token (String c r))) (len (String c r)));
      [lia|]. auto.
Qed.

Lemma stopOffset_bounds rest pos endPos0 :
  rest <> EmptyString ->
  pos <= stopOffset rest pos endPos0 < pos + len rest /\
  pos + len (token rest) - 1 <= stopOffset rest pos endPos0 <= pos + len (token rest).
Proof.
  intros Hne. pose proof (len_token rest) as Ht.
  assert (0 < len rest) by (destruct rest; [congruence|rewrite len_String; pose proof (len_nonneg rest); lia]).
  destruct (stopOffset_cases rest pos endPos0 Hne) as [(_ & H1 & H2)|(r & _ & H1 & H2)]; lia.
Qed.

(** ** Encoded values *)

Lemma len_string_of_rune r : 1 <= len (string_of_rune r).
Proof.
  unfold string_of_rune, encode3.
  repeat match goal with |- context [if ?b then _ else _] => destruct b end;
    rewrite !len_String, len_empty; lia.
Qed.

Lemma len_encodeBytes s : len s <= len (encodeBytes s).
Proof.
  induction s as [|c s IH]; [reflexivity|].
  cbn [encodeBytes]. rewrite len_append, len_String.
  pose proof (len_string_of_rune (code c)). unfold string_of_byte. lia.
Qed.

Lemma encodeBytes_empty s : len (encodeBytes s) = 0 <-> s = EmptyString.
Proof.
  split; [|intros ->; reflexivity].
  destruct s as [|c s]; [reflexivity|]. intros H.
  pose proof (len_encodeBytes (String c s)) as H1. rewrite len_String in H1.
  pose proof (len_nonneg s). lia.
Qed.

(** ** Tokens of a line, one at a time *)

Lemma fields_token s :
  fields s = token s :: match dropWhile nonspace s with
                        | EmptyString => []
                        | String _ r => fields r
                        end.
Proof.
  induction s as [|c s IH]; [reflexivity|].
  rewrite token_String. cbn [fields dropWhile]. unfold nonspace at 1.
  destruct (c =? space)%char; cbn [negb]; [reflexivity|].
  rewrite IH. reflexivity.
Qed.

Lemma tokens_token s :
  tokens s = (if nonempty (token s) then [token s] else []) ++
             match dropWhile nonspace s with
             | EmptyString => []
             | String _ r => tokens r
             end.
Proof.
  unfold tokens at 1. rewrite fields_token. cbn [List.filter].
  destruct (nonempty (token s)); destruct (dropWhile nonspace s); reflexivity.
Qed.

Lemma argTokens_token s :
  argTokens s = (if nonempty (token s) && negb (isFlagToken (token s))
                 then [token s] else []) ++
                match dropWhile nonspace s with
                | EmptyString => []
                | String _ r => argTokens r
                end.
Proof.
  unfold argTokens at 1. rewrite tokens_token, List.filter_app.
  f_equal.
  - destruct (nonempty (token s)); cbn [List.filter andb]; [|reflexivity].
    destruct (isFlagToken (token s)); reflexivity.
  - destruct (dropWhile nonspace s); reflexivity.
Qed.

Lemma isFlagToken_token c r : isFlagToken (token (String c r)) = isdash c.
Proof.
  rewrite token_String. destruct (c =? space)%char eqn:Hc; [|reflexivity].
  rewrite isdash_eq, (space_not_dash c Hc). reflexivity.
Qed.

Lemma index_past s i : len s <= i -> index s i = None.
Proof.
  intros H. unfold index. destruct (i <? 0); [reflexivity|].
  rewrite get_suffix, suffix_past by lia. reflexivity.
Qed.

(** ** parseArgs *)

Lemma valuesOf_app l k : valuesOf (l ++ k) = valuesOf l ++ valuesOf k.
Proof. apply map_app. Qed.

Lemma nonempty_len s : nonempty s = negb (len s =? 0).
Proof.
  destruct s as [|c s]; [reflexivity|]. rewrite len_String. cbn [nonempty].
  destruct (Z.eqb_spec (len s + 1) 0); [pose proof (len_nonneg s); lia | reflexivity].
Qed.

Lemma nonempty_encodeBytes s : negb (len (encodeBytes s) =? 0) = nonempty s.
Proof.
  destruct s as [|c s]; [reflexivity|]. cbn [nonempty].
  destruct (Z.eqb_spec (len (encodeBytes (String c s))) 0) as [E|E]; [|reflexivity].
  apply encodeBytes_empty in E. discriminate.
Qed.

(** [parseArgs]'s loop returns, at an offset no further than the end of the
    line; it stops before the end only at a space followed by a dash; the
    arguments it adds are the tokens it went over, in order. *)
Lemma parseArgs_loop_spec line fuel p args :
  0 <= p <= len line ->
  len line - p <= Z.of_nat fuel ->
  exists new ep,
    parseArgs_loop fuel line p args = Some (args ++ new, ep) /\
    p <= ep <= len line /\
    (ep < len line -> index line (ep + 1) = Some dash) /\
    Forall (fun a : Argument =>
              p <= start a /\ start a < end_ a /\ end_ a <= ep /\ argumentAt line a) new /\
    (index line p <> Some dash ->
     valuesOf new ++ map encodeBytes (argTokens (suffix (Z.to_nat (ep + 1)) line))
     = map encodeBytes (argTokens (suffix (Z.to_nat p) line))).
Proof.
  revert p args. induction fuel as [|fuel IH]; intros p args Hp Hfuel.
  - assert (p = len line) by lia. subst p. exists [], (len line).
    cbn [parseArgs_loop]. rewrite Z.ltb_irrefl, app_nil_r. cbn [negb].
    repeat split; try lia; [constructor|]. intros _.
    rewrite !suffix_past by lia. reflexivity.
  - cbn [parseArgs_loop]. destruct (Z.ltb_spec p (len line)) as [Hlt|Hge]; cbn [negb].
    2:{ assert (p = len line) by lia. subst p. exists [], (len line).
        rewrite app_nil_r. repeat split; try lia; [constructor|]. intros _.
        rewrite !suffix_past by lia. reflexivity. }
    destruct (index_in_range line p) as (c & Hc & Hrest); [lia|].
    rewrite parseSingleArg_spec by lia. cbn [mbind option_bind fst snd value arg_base].
    rewrite nonempty_encodeBytes.
    set (rest := suffix (Z.to_nat p) line) in *.
    set (tok := token rest).
    set (arg := mkArgument (mkBase p (p + len tok) (encodeBytes tok))).
    set (ep1 := stopOffset rest p 0).
    assert (Hne : rest <> EmptyString) by (rewrite Hrest; discriminate).
    assert (Hlen : len rest = len line - p) by (apply len_suffix_offset; lia).
    pose proof (stopOffset_bounds rest p 0 Hne) as [Hb1 Hb2]. fold ep1 tok in Hb1, Hb2.
    pose proof (len_token rest) as Htok. fold tok in Htok.
    set (args1 := if nonempty tok then args ++ [arg] else args).
    set (new1 := if nonempty tok then [arg] else []).
    assert (Hargs1 : args1 = args ++ new1).
    { unfold args1, new1. destruct (nonempty tok); [reflexivity | now rewrite app_nil_r]. }
    assert (Hnew1 : Forall (fun a : Argument =>
                p <= start a /\ start a < end_ a /\ end_ a <= ep1 + 1 /\
                end_ a <= p + len tok /\ argumentAt line a) new1).
    { unfold new1. destruct (nonempty tok) eqn:Hn; constructor; [|constructor].
      assert (Hnz : len tok <> 0).
      { rewrite nonempty_len in Hn. destruct (Z.eqb_spec (len tok) 0); [discriminate|assumption]. }
      unfold argumentAt. cbn [start end_ value arg arg_base]. fold rest. fold tok.
      repeat split; try lia. intros E. rewrite E, len_empty in Hnz. lia. }
    (* the tokens from [p] on: this one, then those after the stop offset *)
    assert (Htoks : index line p <> Some dash ->
              map encodeBytes (argTokens rest) =
              valuesOf new1 ++ map encodeBytes (argTokens (suffix (Z.to_nat (ep1 + 1)) line))).
    { intros Hnd. rewrite argTokens_token. fold tok.
      assert (Hflag : isFlagToken tok = false).
      { unfold tok. rewrite Hrest, isFlagToken_token, isdash_eq.
        destruct (c =? dash)%char eqn:E; [|reflexivity].
        apply Ascii.eqb_eq in E. subst c. congruence. }
      rewrite Hflag, andb_true_r, map_app. f_equal.
      - unfold new1. destruct (nonempty tok); reflexivity.
      - destruct (stopOffset_cases rest p 0 Hne) as [(Hd & Hl & Hs)|(r & Hd & Hl & Hs)];
          fold ep1 tok in Hl, Hs; rewrite Hd.
        + rewrite suffix_past by lia. reflexivity.
        + replace (ep1 + 1) with (p + (len tok + 1)) by lia.
          rewrite suffix_offset by lia. fold rest.
          replace (Z.to_nat (len tok + 1)) with (Z.to_nat (len tok) + 1)%nat by lia.
          rewrite suffix_suffix. unfold tok. rewrite suffix_token, Hd. reflexivity. }
    (* going on from the byte after the stop offset *)
    assert (Hcont : index line (ep1 + 1) <> Some dash ->
              exists new ep,
                parseArgs_loop fuel line (ep1 + 1) args1 = Some (args ++ new, ep) /\
                p <= ep <= len line /\
                (ep < len line -> index line (ep + 1) = Some dash) /\
                Forall (fun a : Argument =>
                          p <= start a /\ start a < end_ a /\ end_ a <= ep /\
                          argumentAt line a) new /\
                (index line p <> Some dash ->
                 valuesOf new ++
                 map encodeBytes (argTokens (suffix (Z.to_nat (ep + 1)) line))
                 = map encodeBytes (argTokens rest))).
    { intros Hnd1.
      destruct (IH (ep1 + 1) args1) as (new & ep & Hrun & Hep & Hstop & Hall & Hval);
        [lia | lia |].
      exists (new1 ++ new), ep. rewrite Hrun, Hargs1, app_assoc.
      split; [reflexivity|]. split; [lia|]. split; [exact Hstop|]. split.
      - apply Forall_app. split.
        + eapply Forall_impl; [exact Hnew1|]. cbn beta. intros a (? & ? & ? & ? & ?).
          split; [lia | split; [lia | split; [lia | assumption]]].
        + eapply Forall_impl; [exact Hall|]. cbn beta. intros a (? & ? & ? & ?).
          split; [lia | split; [lia | split; [lia | assumption]]].
      - intros Hnd. rewrite (Htoks Hnd), valuesOf_app, <- app_assoc. f_equal.
        apply Hval. exact Hnd1. }
    destruct (Z.eqb_spec ep1 (len line - 1)) as [Hlast|Hnlast]; cbn [negb].
    + (* the scan reached the last byte: the loop ends *)
      apply Hcont. rewrite index_past by lia. discriminate.
    + destruct (index_in_range line (ep1 + 1)) as (c' & Hc' & _); [lia|].
      rewrite Hc'. cbn [mbind option_bind].
      destruct (c' =? dash)%char eqn:Hdash.
      * (* a flag follows: return at the space *)
        apply Ascii.eqb_eq in Hdash. subst c'.
        exists new1, ep1. rewrite Hargs1.
        split; [reflexivity|]. split; [lia|]. split; [intros _; exact Hc'|]. split.
        -- eapply Forall_impl; [exact Hnew1|]. cbn beta. intros a (? & ? & ? & ? & ?).
           destruct (stopOffset_cases rest p 0 Hne) as [(Hd & Hl & Hs)|(r & Hd & Hl & Hs)];
             fold ep1 tok in Hl, Hs; (split; [lia | split; [lia | split; [lia | assumption]]]).
        -- intros Hnd. symmetry. apply Htoks. exact Hnd.
      * apply Hcont. rewrite Hc'. intros E. injection E as E. subst c'.
        discriminate.
Qed.

(** The tokens from an offset on: the one at the offset, unless it is empty
    or a flag, then those after the offset at which its scan stops. *)
Lemma argTokens_stop line p :
  0 <= p < len line ->
  let rest := suffix (Z.to_nat p) line in
  argTokens rest =
  (if nonempty (token rest) && negb (isFlagToken (token rest)) then [token rest] else [])
  ++ argTokens (suffix (Z.to_nat (stopOffset rest p 0 + 1)) line).
Proof.
  intros Hp rest. rewrite argTokens_token at 1. f_equal.
  assert (Hne : rest <> EmptyString).
  { destruct (index_in_range line p Hp) as (c & _ & E). unfold rest. rewrite E. discriminate. }
  assert (Hlen : len rest = len line - p) by (apply len_suffix_offset; lia).
  pose proof (len_token rest) as Htok.
  destruct (stopOffset_cases rest p 0 Hne) as [(Hd & Hl & Hs)|(r & Hd & Hl & Hs)];
    rewrite Hd, Hs.
  - rewrite suffix_past by lia. reflexivity.
  - replace (p + len (token rest) + 1) with (p + (len (token rest) + 1)) by lia.
    rewrite suffix_offset by lia. fold rest.
    replace (Z.to_nat (len (token rest) + 1)) with (Z.to_nat (len (token rest)) + 1)%nat by lia.
    rewrite suffix_suffix, suffix_token, Hd. reflexivity.
Qed.

(** ** The state of a parse *)

Ltac st_simpl :=
  cbn [vars capture st_FlagsOrdered st_Flags st_Arguments st_Focus st_Section
       set_vars set_capture set_Arguments set_Focus set_Section addFlag] in *.

Lemma within_spec c (n : baseNode) : within c n = true <-> start n <= c <= end_ n.
Proof.
  unfold within. rewrite andb_true_iff, Z.geb_le, Z.leb_le. lia.
Qed.

Lemma within_false c (n : baseNode) : within c n = false <-> c < start n \/ end_ n < c.
Proof.
  destruct (within c n) eqn:E.
  - apply within_spec in E. split; [discriminate | lia].
  - split; [intros _ | reflexivity].
    destruct (Z_lt_dec c (start n)); [lia|]. destruct (Z_lt_dec (end_ n) c); [lia|].
    assert (within c n = true) by (apply within_spec; lia). congruence.
Qed.

(** The focus loop over a run of arguments: nothing changes unless the
    span of one holds the cursor; then the focus is such an argument and the
    section is the capturing flag. *)
Lemma fold_focusArg c args st :
  (Forall (fun a : Argument => within c a = false) args /\
   fold_left (focusArg c) args st = st) \/
  (exists a, In a args /\ within c a = true /\
             fold_left (focusArg c) args st =
             set_Section (set_Focus st (Some (FocusArgument a))) (VarPtr <$> capture st)).
Proof.
  induction args as [|x args IH] using rev_ind.
  - left. split; [constructor | reflexivity].
  - rewrite fold_left_app. cbn [fold_left]. unfold focusArg at 1 3.
    destruct (within c x) eqn:Hx.
    + right. exists x. split; [apply in_or_app; right; left; reflexivity|].
      split; [exact Hx|].
      destruct IH as [[_ ->]|(a & _ & _ & ->)]; destruct st; reflexivity.
    + destruct IH as [[Hall ->]|(a & Ha & Hw & ->)].
      * left. split; [|reflexivity]. apply Forall_app. split; [exact Hall|].
        constructor; [exact Hx | constructor].
      * right. exists a. split; [apply in_or_app; left; exact Ha|]. split; [exact Hw|].
        reflexivity.
Qed.

(** The expansion of a bundle adds its flags and touches nothing else. *)
Lemma fold_addFlag (g : Z -> Flag) rs st :
  let st' := fold_left (fun st c => addFlag st (g c)) rs st in
  vars st' = vars st /\ capture st' = capture st /\
  st_FlagsOrdered st' = st_FlagsOrdered st ++ map g rs /\
  st_Arguments st' = st_Arguments st /\
  st_Focus st' = st_Focus st /\ st_Section st' = st_Section st /\
  (forall k f, st_Flags st' !! k = Some f ->
               st_Flags st !! k = Some f \/ In f (map g rs)).
Proof.
  revert st. induction rs as [|r rs IH]; intros st; cbn [fold_left map].
  - rewrite app_nil_r. repeat split; auto.
  - destruct (IH (addFlag st (g r))) as (H1 & H2 & H3 & H4 & H5 & H6 & H7).
    cbn zeta in *. rewrite H1, H2, H3, H4, H5, H6. st_simpl.
    rewrite <- app_assoc. repeat split; try reflexivity.
    intros k f Hk. destruct (H7 k f Hk) as [H|H]; [|right; right; exact H].
    destruct (decide (Value (g r) = k)) as [<-|Hne].
    + rewrite lookup_insert_eq in H. injection H as <-. right. left. reflexivity.
    + rewrite lookup_insert_ne in H by exact Hne. left. exact H.
Qed.

(** ** The backward walk *)

Lemma sectionWalk_app n (l k : list Flag) c :
  (n <= length l)%nat -> sectionWalk n (l ++ k) c = sectionWalk n l c.
Proof.
  induction n as [|n IH]; intros Hn; [reflexivity|]. cbn [sectionWalk].
  rewrite lookup_app_l by lia. destruct (l !! n) as [f|]; [|reflexivity].
  destruct (within c f); [reflexivity|]. destruct (end_ f >? c); [|reflexivity].
  apply IH. lia.
Qed.

Lemma sectionWalk_snoc (l : list Flag) f c :
  sectionWalk (length (l ++ [f])) (l ++ [f]) c =
  if within c f then Some (Some (length l), None)
  else if end_ f >? c then sectionWalk (length l) l c
  else Some (None, Some (length l)).
Proof.
  rewrite length_app. cbn [length]. rewrite Nat.add_1_r. cbn [sectionWalk].
  rewrite list_lookup_middle by reflexivity.
  destruct (within c f); [reflexivity|]. destruct (end_ f >? c); [|reflexivity].
  apply sectionWalk_app. lia.
Qed.

(** With no span holding the cursor, the walk finds the nearest flag to the
    left. *)
Lemma sectionWalk_nearest (l : list Flag) c :
  Forall (fun f : Flag => within c f = false) l ->
  exists cl, sectionWalk (length l) l c = Some (None, cl) /\
             (cl ≫= fun k => l !! k) = nearestLeft l c /\
             (forall k, cl = Some k -> (k < length l)%nat).
Proof.
  induction l as [|x l IH] using rev_ind; intros Hall.
  - exists None. repeat split; try reflexivity. discriminate.
  - apply Forall_app in Hall as [Hl Hx]. inversion Hx as [|? ? Hx' _]; subst.
    rewrite sectionWalk_snoc, Hx'. unfold nearestLeft. rewrite rev_unit. cbn [List.find].
    destruct (Z.gtb_spec (end_ x) c) as [Hgt|Hle].
    + destruct (Z.leb_spec (end_ x) c) as [?|_]; [lia|].
      destruct (IH Hl) as (cl & Hw & Hn & Hk). exists cl. split; [exact Hw|]. split.
      * unfold nearestLeft in Hn. rewrite <- Hn. destruct cl as [k|]; [|reflexivity]. cbn.
        apply lookup_app_l. apply Hk. reflexivity.
      * intros k E. rewrite length_app. specialize (Hk k E). lia.
    + destruct (Z.leb_spec (end_ x) c) as [_|?]; [|lia].
      exists (Some (length l)). split; [reflexivity|]. split.
      * cbn. apply list_lookup_middle. reflexivity.
      * intros k E. injection E as <-. rewrite length_app. cbn. lia.
Qed.

Lemma ordered_snoc_inv l x :
  ordered (l ++ [x]) -> ordered l /\ Forall (fun f => precedes f x) l.
Proof.
  intros H. inversion H as [E|l' x' Hl Hx E].
  - destruct l; discriminate.
  - apply app_inj_tail in E as [-> ->]. split; assumption.
Qed.

(** In an ordered list the walk finds a flag with the span of any flag whose
    span holds the cursor. *)
Lemma sectionWalk_finds (l : list Flag) c f :
  ordered l ->
  Forall (fun g : Flag => start g <= end_ g) l ->
  In f l -> within c f = true ->
  exists k (g : Flag), sectionWalk (length l) l c = Some (Some k, None) /\
              l !! k = Some g /\ within c g = true /\
              start g = start f /\ end_ g = end_ f.
Proof.
  induction l as [|x l IH] using rev_ind; intros Hord Hspan Hin Hf; [destruct Hin|].
  apply ordered_snoc_inv in Hord as [Hord Hprec].
  apply Forall_app in Hspan as [Hspan Hx]. inversion Hx as [|? ? Hx' _]; subst.
  rewrite sectionWalk_snoc.
  apply within_spec in Hf.
  apply in_app_or in Hin as [Hin|[<-|[]]].
  - (* [f] is among the earlier flags *)
    assert (Hp : precedes f x).
    { rewrite Forall_forall in Hprec. apply Hprec. apply list_elem_of_In. exact Hin. }
    destruct (within c x) eqn:Hwx.
    + exists (length l), x. split; [reflexivity|].
      split; [apply list_lookup_middle; reflexivity|]. split; [exact Hwx|].
      apply within_spec in Hwx. destruct Hp as [(? & ? & _)|[? _]]; lia.
    + apply within_false in Hwx.
      destruct Hp as [(? & ? & _)|[Hlt _]]; [lia|].
      destruct (Z.gtb_spec (end_ x) c) as [_|?]; [|lia].
      destruct (IH Hord Hspan Hin) as (k & g & Hw & Hk & Hg); [apply within_spec; lia|].
      exists k, g. split; [exact Hw|]. split; [|exact Hg].
      rewrite lookup_app_l; [exact Hk|]. apply lookup_lt_Some in Hk. exact Hk.
  - exists (length l), x.
    assert (Hw : within c x = true) by (apply within_spec; lia). rewrite Hw.
    split; [reflexivity|]. split; [apply list_lookup_middle; reflexivity|]. auto.
Qed.

(** The walk never fails within the list. *)
Lemma sectionWalk_total n (l : list Flag) c :
  (n <= length l)%nat ->
  exists found cl, sectionWalk n l c = Some (found, cl) /\
    (forall k, found = Some k -> exists g : Flag, l !! k = Some g /\ within c g = true) /\
    (forall k, cl = Some k -> found = None /\ exists g : Flag, l !! k = Some g).
Proof.
  induction n as [|n IH]; intros Hn.
  - exists None, None. repeat split; discriminate.
  - cbn [sectionWalk]. destruct (lookup_lt_is_Some_2 l n) as [f Hf]; [lia|]. rewrite Hf.
    destruct (within c f) eqn:Hw.
    + exists (Some n), None. split; [reflexivity|]. split; [|discriminate].
      intros k E. injection E as <-. eauto.
    + destruct (end_ f >? c); [apply IH; lia|].
      exists None, (Some n). split; [reflexivity|]. split; [discriminate|].
      intros k E. injection E as <-. eauto.
Qed.

(** ** The invariant of the main loop *)

Section Invariant.

Variables (line : string) (cursorPosition : Z).

(** The line and the cursor are fixed throughout. *)
Local Abbreviation before := (before line).
Local Abbreviation argOK := (argOK line).
Local Abbreviation flagOK := (flagOK line).
Local Abbreviation focusOK := (focusOK line cursorPosition).
Local Abbreviation inv := (inv line cursorPosition).
Local Abbreviation inv_pos := (inv_pos line cursorPosition).
Local Abbreviation inv_vars := (inv_vars line cursorPosition).
Local Abbreviation inv_FO := (inv_FO line cursorPosition).
Local Abbreviation inv_Flags := (inv_Flags line cursorPosition).
Local Abbreviation inv_Args := (inv_Args line cursorPosition).
Local Abbreviation inv_ordered := (inv_ordered line cursorPosition).
Local Abbreviation inv_capture := (inv_capture line cursorPosition).
Local Abbreviation inv_alt := (inv_alt line cursorPosition).
Local Abbreviation inv_focus := (inv_focus line cursorPosition).
Local Abbreviation inv_sec_from := (inv_sec_from line cursorPosition).
Local Abbreviation inv_sec_owned := (inv_sec_owned line cursorPosition).
Local Abbreviation inv_tokens := (inv_tokens line cursorPosition).
Local Abbreviation inv_owned_top := (inv_owned_top line cursorPosition).
Local Abbreviation flagSpan := (flagSpan line).
Local Abbreviation argSpan := (argSpan line).
Local Abbreviation parsed := (parsed line cursorPosition).

Lemma before_mono i j n : i <= j -> before i n -> before j n.
Proof. unfold before. lia. Qed.

Lemma argOK_mono i j a : i <= j -> argOK i a -> argOK j a.
Proof.
  intros Hij (? & ? & ? & Hb). repeat split; try assumption.
  eapply before_mono; eassumption.
Qed.

Lemma flagOK_mono i j f : i <= j -> flagOK i f -> flagOK j f.
Proof.
  intros Hij (? & ? & ? & Hb & Hargs). repeat split; try assumption.
  - eapply before_mono; eassumption.
  - eapply Forall_impl; [exact Hargs|]. cbn beta. intros a [? Ha].
    split; [assumption|]. eapply argOK_mono; eassumption.
Qed.

Lemma inv_init : inv 0 initState.
Proof.
  constructor; cbn; try (constructor; fail); try lia; try discriminate;
    try (intros g a [[]|(q & Hq & _)]; discriminate).
Qed.

(** A flag that owns an argument is not the capturing one once it is in
    [FlagsOrdered]. *)
Lemma current_not_capture i st q (g : Flag) :
  inv i st -> capture st = Some q -> vars st !! q = Some g ->
  In g (st_FlagsOrdered st) -> Args g = [].
Proof.
  intros Hinv Hq Hg Hin.
  destruct (inv_capture _ _ Hinv q Hq) as (g' & Hg' & Hprec).
  rewrite Hg in Hg'. injection Hg' as <-.
  rewrite Forall_forall in Hprec.
  destruct (Hprec g) as [(_ & _ & H)|[Hlt _]]; [apply list_elem_of_In; exact Hin|exact H|].
  pose proof (inv_FO _ _ Hinv) as HFO. rewrite Forall_forall in HFO.
  destruct (HFO g) as (_ & ? & _); [apply list_elem_of_In; exact Hin|]. lia.
Qed.

(** Flushing the capturing flag. *)
Lemma flush_spec i st :
  inv i st ->
  exists st0, flush st = Some st0 /\
    vars st0 = vars st /\ capture st0 = capture st /\
    st_Arguments st0 = st_Arguments st /\ st_Focus st0 = st_Focus st /\
    st_Section st0 = st_Section st /\
    Forall (flagOK i) (st_FlagsOrdered st0) /\
    (forall k f, st_Flags st0 !! k = Some f -> In f (st_FlagsOrdered st0)) /\
    ordered (st_FlagsOrdered st0) /\
    (forall g, current st g <-> In g (st_FlagsOrdered st0)).
Proof.
  intros Hinv. unfold flush. destruct (capture st) as [q|] eqn:Hq.
  - destruct (inv_capture _ _ Hinv q Hq) as (g & Hg & Hprec).
    rewrite Hg. cbn [mbind option_bind]. exists (addFlag st g).
    st_simpl. repeat apply conj; try reflexivity; try assumption; [| | |split].
    + apply Forall_app. split; [apply (inv_FO _ _ Hinv)|].
      constructor; [|constructor].
      pose proof (inv_vars _ _ Hinv) as Hv. rewrite Forall_forall in Hv.
      apply Hv. eapply list_elem_of_lookup_2. exact Hg.
    + intros k f Hk. apply in_or_app.
      destruct (decide (Value g = k)) as [<-|Hne].
      * rewrite lookup_insert_eq in Hk. injection Hk as <-. right. left. reflexivity.
      * rewrite lookup_insert_ne in Hk by exact Hne. left.
        eapply inv_Flags; eassumption.
    + constructor; [apply (inv_ordered _ _ Hinv) | exact Hprec].
    + intros [Hin|(q' & Hq' & Hg')]; apply in_or_app.
      * left. exact Hin.
      * right. left. unfold current in *. rewrite Hq in Hq'. injection Hq' as <-.
        congruence.
    + intros Hin. apply in_app_or in Hin as [Hin|[<-|[]]].
      * left. exact Hin.
      * right. exists q. split; [exact Hq | exact Hg].
  - exists st. repeat apply conj; try reflexivity; try assumption; [| | |split].
    + apply (inv_FO _ _ Hinv).
    + apply (inv_Flags _ _ Hinv).
    + apply (inv_ordered _ _ Hinv).
    + intros [Hin|(q' & Hq' & _)]; [exact Hin | congruence].
    + intros Hin. left. exact Hin.
Qed.

Lemma ordered_bundle l extra s e :
  ordered l ->
  Forall (fun f : Flag => end_ f < s /\ Forall (fun a : Argument => end_ a < s) (Args f)) l ->
  Forall (fun x : Flag => start x = s /\ end_ x = e /\ Args x = []) extra ->
  ordered (l ++ extra).
Proof.
  intros Hl Hlt. induction extra as [|x extra IH] using rev_ind; intros Hex.
  - rewrite app_nil_r. exact Hl.
  - apply Forall_app in Hex as [Hex Hx]. inversion Hx as [|? ? (Hs & He & Ha) _]; subst.
    rewrite app_assoc. constructor; [apply IH; exact Hex|].
    apply Forall_app. split.
    + eapply Forall_impl; [exact Hlt|]. cbn beta. intros f [? ?]. right. split; assumption.
    + eapply Forall_impl; [exact Hex|]. cbn beta. intros f (? & ? & ?). left.
      repeat split; congruence.
Qed.

Lemma before_strict i n : i < len line -> before i n -> end_ n < i.
Proof. unfold before. lia. Qed.

(** The branch at a dash keeps the invariant and returns an offset within
    the line. *)
Lemma flagStep_inv i st :
  inv i st -> i < len line -> index line i = Some dash ->
  exists st' i', flagStep line cursorPosition i st = Some (st', i') /\
                 i <= i' < len line /\ inv (i' + 1) st'.
Proof.
  intros Hinv Hi Hdash. pose proof (inv_pos _ _ Hinv) as Hpos.
  destruct (flush_spec i st Hinv)
    as (st0 & Hflush & Hv0 & Hc0 & Ha0 & Hf0 & Hs0 & HFO0 & HFl0 & Hord0 & Hcur0).
  unfold flagStep. rewrite Hflush. cbn [mbind option_bind].
  rewrite parseFlag_spec by exact Hpos. cbn [mbind option_bind fst snd].
  destruct (index_in_range line i) as (c & Hc & Hrest); [lia|].
  rewrite Hdash in Hc. injection Hc as <-.
  set (rest := suffix (Z.to_nat i) line) in *.
  set (tok := token rest).
  set (i' := stopOffset rest i 0).
  set (newFlag := mkFlag (mkBase i (i + len tok)
                                 (encodeBytes (token (dropWhile isdash rest)))) []
                         ((len (takeWhile isdash rest) >? 1)
                          && negb (len (token (dropWhile isdash rest)) =? 0))).
  assert (Hne : rest <> EmptyString) by (rewrite Hrest; discriminate).
  assert (Hlen : len rest = len line - i) by (apply len_suffix_offset; lia).
  pose proof (stopOffset_bounds rest i 0 Hne) as [Hb1 Hb2]. fold i' tok in Hb1, Hb2.
  pose proof (len_token rest) as Htok. fold tok in Htok.
  assert (Hend : before (i' + 1) newFlag).
  { unfold before. cbn [end_ newFlag flag_base].
    destruct (stopOffset_cases rest i 0 Hne) as [(_ & Hl & Hs)|(r & _ & Hl & Hs)];
      fold i' tok in Hl, Hs; lia. }
  assert (HnewOK : flagOK (i' + 1) newFlag).
  { repeat apply conj; cbn [start end_ newFlag flag_base Args]; try lia;
      [exact Hend | constructor]. }
  set (p := length (vars st0)).
  (* what any of the three exits of the branch leaves *)
  assert (Hgen : forall st3 extra,
    vars st3 = vars st ++ [newFlag] ->
    st_Arguments st3 = st_Arguments st ->
    st_Focus st3 = (if within cursorPosition newFlag then Some (FocusFlag p)
                    else st_Focus st) ->
    st_Section st3 = (if within cursorPosition newFlag then Some (VarPtr p)
                      else st_Section st) ->
    st_FlagsOrdered st3 = st_FlagsOrdered st0 ++ extra ->
    Forall (fun x : Flag => start x = i /\ end_ x = i' /\ Args x = []) extra ->
    (forall k f, st_Flags st3 !! k = Some f -> In f (st_FlagsOrdered st0 ++ extra)) ->
    (capture st3 = Some p /\ extra = []) \/ capture st3 = None ->
    inv (i' + 1) st3).
  { intros st3 extra Hv3 Ha3 Hf3 Hs3 HFO3 Hextra HFl3 Hcap3.
    assert (Hp : p = length (vars st)) by (unfold p; now rewrite Hv0).
    assert (Hold : forall g : Flag, In g (st_FlagsOrdered st0) ->
              end_ g < i /\ Forall (fun a : Argument => end_ a < i) (Args g)).
    { intros g Hg. rewrite Forall_forall in HFO0.
      destruct (HFO0 g) as (_ & _ & _ & Hb & Hargs); [apply list_elem_of_In; exact Hg|].
      split; [apply before_strict; assumption|].
      eapply Forall_impl; [exact Hargs|]. cbn beta. intros a (_ & _ & _ & _ & Hba).
      apply before_strict; assumption. }
    assert (Hextra0 : forall g : Flag, In g extra -> Args g = []).
    { intros g Hg. rewrite Forall_forall in Hextra.
      apply Hextra, list_elem_of_In, Hg. }
    assert (Hcur3 : forall g, current st3 g ->
              In g (st_FlagsOrdered st0) \/ Args g = []).
    { intros g [Hg|(q & Hq & Hg)].
      - rewrite HFO3 in Hg. apply in_app_or in Hg as [Hg|Hg]; [left; exact Hg|].
        right. apply Hextra0. exact Hg.
      - right. destruct Hcap3 as [[Hq3 _]|Hq3]; rewrite Hq3 in Hq; [|discriminate].
        injection Hq as <-. rewrite Hv3, Hp, list_lookup_middle in Hg by reflexivity.
        injection Hg as <-. reflexivity. }
    constructor.
    - lia.
    - rewrite Hv3. apply Forall_app. split.
      + eapply Forall_impl; [apply (inv_vars _ _ Hinv)|]. intros f. apply flagOK_mono. lia.
      + constructor; [exact HnewOK | constructor].
    - rewrite HFO3. apply Forall_app. split.
      + eapply Forall_impl; [exact HFO0|]. intros f. apply flagOK_mono. lia.
      + eapply Forall_impl; [exact Hextra|]. cbn beta. intros x (Hs & He & Hx).
        repeat apply conj; rewrite ?Hs, ?He, ?Hx; try lia; [|constructor].
        unfold before. lia.
    - intros k f Hk. rewrite HFO3. apply HFl3 in Hk. exact Hk.
    - rewrite Ha3. eapply Forall_impl; [apply (inv_Args _ _ Hinv)|].
      intros a. apply argOK_mono. lia.
    - rewrite HFO3. eapply (ordered_bundle _ _ i i'); [exact Hord0| |exact Hextra].
      apply Forall_forall. intros g Hg. apply Hold, list_elem_of_In, Hg.
    - intros q Hq. destruct Hcap3 as [[Hq3 Hex]|Hq3]; rewrite Hq3 in Hq; [|discriminate].
      injection Hq as <-. exists newFlag. split.
      + rewrite Hv3, Hp. apply list_lookup_middle. reflexivity.
      + rewrite HFO3, Hex, app_nil_r. apply Forall_forall. intros g Hg.
        right. apply Hold, list_elem_of_In, Hg.
    - intros q g Hq Hg Hne'. exfalso. apply Hne'.
      destruct (Hcur3 g) as [Hin|E]; [right; eauto| |exact E].
      destruct Hcap3 as [[Hq3 _]|Hq3]; rewrite Hq3 in Hq; [|discriminate].
      injection Hq as <-. rewrite Hv3, Hp, list_lookup_middle in Hg by reflexivity.
      injection Hg as <-. reflexivity.
    - intros r Hr. rewrite Hf3 in Hr. unfold focusOK.
      destruct (within cursorPosition newFlag) eqn:Hw.
      + injection Hr as <-. exists newFlag. split.
        * rewrite Hv3, Hp. apply list_lookup_middle. reflexivity.
        * split; [exact Hw|]. split; [rewrite Hs3, ?Hw; reflexivity|].
          rewrite Ha3. eapply Forall_impl; [apply (inv_Args _ _ Hinv)|]. cbn beta.
          intros a (_ & _ & _ & Hb). apply before_strict in Hb; [|exact Hi].
          apply within_spec in Hw. cbn [start newFlag flag_base] in Hw.
          apply within_false. lia.
      + pose proof (inv_focus _ _ Hinv r Hr) as Hfo. unfold focusOK in Hfo.
        destruct r as [p0|a|cmd]; [|exact Hfo|exact Hfo].
        destruct Hfo as (g & Hg & Hwg & Hsg & Hag). exists g. split.
        * rewrite Hv3. apply lookup_app_l_Some. exact Hg.
        * split; [exact Hwg|]. split; [rewrite Hs3, ?Hw; exact Hsg|].
          rewrite Ha3. exact Hag.
    - intros ptr Hptr. rewrite Hs3 in Hptr.
      destruct (within cursorPosition newFlag) eqn:Hw.
      + injection Hptr as <-. exists p, newFlag. split; [reflexivity|]. split.
        * rewrite Hv3, Hp. apply list_lookup_middle. reflexivity.
        * left. rewrite Hf3, ?Hw. reflexivity.
      + destruct (inv_sec_from _ _ Hinv ptr Hptr) as (p0 & g & -> & Hg & Hwhy).
        exists p0, g. split; [reflexivity|]. split.
        * rewrite Hv3. apply lookup_app_l_Some. exact Hg.
        * destruct Hwhy as [Hfo|(a & Ha & Hwa & Hwhere)].
          -- left. rewrite Hf3, ?Hw. exact Hfo.
          -- right. exists a. split; [exact Ha|]. split; [exact Hwa|]. left.
             rewrite HFO3. apply in_or_app. left. apply Hcur0.
             destruct Hwhere as [Hin|Hq]; [left; exact Hin|]. right. eauto.
    - intros g a Hg Ha Hwa.
      destruct (Hcur3 g Hg) as [Hin|E]; [|rewrite E in Ha; destruct Ha].
      assert (Hcur : current st g) by (apply Hcur0; exact Hin).
      destruct (inv_sec_owned _ _ Hinv g a Hcur Ha Hwa) as (p0 & Hsec & Hp0).
      destruct (within cursorPosition newFlag) eqn:Hw.
      * exfalso. destruct (Hold g Hin) as [_ Hargs]. rewrite Forall_forall in Hargs.
        specialize (Hargs a (proj2 (list_elem_of_In _ _) Ha)).
        apply within_spec in Hw, Hwa. cbn [start newFlag flag_base] in Hw. lia.
      * exists p0. rewrite Hs3, ?Hw. split; [exact Hsec|].
        rewrite Hv3. apply lookup_app_l_Some. exact Hp0.
    - rewrite Ha3, <- (inv_tokens _ _ Hinv). do 2 f_equal.
      pose proof (argTokens_stop line i ltac:(lia)) as Hst. cbn zeta in Hst.
      fold rest in Hst. fold tok i' in Hst. fold rest. rewrite Hst.
      assert (Hflag : isFlagToken tok = true).
      { unfold tok. rewrite Hrest, isFlagToken_token. reflexivity. }
      rewrite Hflag, andb_false_r. reflexivity.
    - intros g a Hg Ha. rewrite Ha3.
      destruct (Hcur3 g Hg) as [Hin|E]; [|rewrite E in Ha; destruct Ha].
      eapply inv_owned_top; [exact Hinv | apply Hcur0; exact Hin | exact Ha]. }
  (* the three exits *)
  set (st1 := set_vars st0 (vars st0 ++ [newFlag])).
  set (st2 := if within cursorPosition newFlag
              then set_Section (set_Focus st1 (Some (FocusFlag p))) (Some (VarPtr p))
              else st1).
  assert (H2 : vars st2 = vars st ++ [newFlag] /\ st_Arguments st2 = st_Arguments st /\
               st_Focus st2 = (if within cursorPosition newFlag then Some (FocusFlag p)
                               else st_Focus st) /\
               st_Section st2 = (if within cursorPosition newFlag then Some (VarPtr p)
                                 else st_Section st) /\
               st_FlagsOrdered st2 = st_FlagsOrdered st0 /\ st_Flags st2 = st_Flags st0).
  { unfold st2, st1. destruct (within cursorPosition newFlag); st_simpl;
      rewrite Hv0, Ha0, ?Hf0, ?Hs0; repeat split; reflexivity. }
  destruct H2 as (Hv2 & Ha2 & Hf2 & Hs2 & HFO2 & HFl2).
  assert (Hcapture : inv (i' + 1) (set_capture st2 (Some p))).
  { apply (Hgen _ []); st_simpl; rewrite ?app_nil_r; try assumption.
    - constructor.
    - intros k f Hk. rewrite HFl2 in Hk. apply (HFl0 k). exact Hk.
    - left. split; reflexivity. }
  destruct (long newFlag).
  - exists (set_capture st2 (Some p)), i'. split; [reflexivity|]. split; [lia|exact Hcapture].
  - destruct (len (Value newFlag) =? 1).
    + exists (set_capture st2 (Some p)), i'. split; [reflexivity|].
      split; [lia|exact Hcapture].
    + eexists _, i'. split; [reflexivity|]. split; [lia|].
      pose proof (fold_addFlag (bundleFlag newFlag i') (runes (Value newFlag))
                    (set_capture st2 None)) as Hfold.
      cbn zeta in Hfold. destruct Hfold as (F1 & F2 & F3 & F4 & F5 & F6 & F7).
      apply (Hgen _ (map (bundleFlag newFlag i') (runes (Value newFlag)))).
      * rewrite F1. st_simpl. exact Hv2.
      * rewrite F4. st_simpl. exact Ha2.
      * rewrite F5. st_simpl. exact Hf2.
      * rewrite F6. st_simpl. exact Hs2.
      * rewrite F3. st_simpl. rewrite HFO2. reflexivity.
      * apply Forall_forall. intros x Hx. apply list_elem_of_In, in_map_iff in Hx.
        destruct Hx as (r & <- & _). repeat split.
      * intros k f Hk. apply in_or_app. destruct (F7 k f Hk) as [H|H]; [|right; exact H].
        left. st_simpl. rewrite HFl2 in H. apply (HFl0 k). exact H.
      * right. rewrite F2. reflexivity.
Qed.

(** The branch at any other byte keeps the invariant too. *)
Lemma argStep_inv i st ch :
  inv i st -> i < len line -> index line i = Some ch -> ch <> dash ->
  exists st' i', argStep line cursorPosition i st = Some (st', i') /\
                 i <= i' <= len line /\ inv (i' + 1) st'.
Proof.
  intros Hinv Hi Hch Hnd. pose proof (inv_pos _ _ Hinv) as Hpos.
  unfold argStep, parseArgs.
  destruct (parseArgs_loop_spec line (String.length line) i [])
    as (new & ep & Hrun & Hep & Hstop & Hall & Hval); [lia | unfold len; lia|].
  rewrite Hrun. cbn [app mbind option_bind fst snd].
  assert (Hval' : valuesOf new ++
                  map encodeBytes (argTokens (suffix (Z.to_nat (ep + 1)) line))
                  = map encodeBytes (argTokens (suffix (Z.to_nat i) line))).
  { apply Hval. rewrite Hch. intros E. injection E as E. contradiction. }
  assert (HnewOK : Forall (argOK (ep + 1)) new).
  { eapply Forall_impl; [exact Hall|]. cbn beta. intros a (? & ? & ? & _).
    unfold argOK, before. lia. }
  assert (Hnewpos : forall a : Argument, In a new -> i <= start a).
  { intros a Ha. rewrite Forall_forall in Hall.
    destruct (Hall a) as (? & _); [apply list_elem_of_In; exact Ha | assumption]. }
  assert (Hold : forall g : Flag, In g (vars st) \/ In g (st_FlagsOrdered st) ->
            end_ g < i /\ Forall (fun a : Argument => end_ a < i) (Args g)).
  { intros g Hg.
    assert (HOK : flagOK i g).
    { destruct Hg as [Hg|Hg].
      - pose proof (inv_vars _ _ Hinv) as H. rewrite Forall_forall in H.
        apply H, list_elem_of_In, Hg.
      - pose proof (inv_FO _ _ Hinv) as H. rewrite Forall_forall in H.
        apply H, list_elem_of_In, Hg. }
    destruct HOK as (_ & _ & _ & Hb & Hargs).
    split; [apply before_strict; assumption|].
    eapply Forall_impl; [exact Hargs|]. cbn beta. intros a (_ & _ & _ & _ & Hba).
    apply before_strict; assumption. }
  (* what either exit of the branch leaves *)
  assert (Hgen : forall st3,
    capture st3 = capture st ->
    st_FlagsOrdered st3 = st_FlagsOrdered st ->
    st_Flags st3 = st_Flags st ->
    st_Arguments st3 = st_Arguments st ++ new ->
    ((Forall (fun a : Argument => within cursorPosition a = false) new /\
      st_Focus st3 = st_Focus st /\ st_Section st3 = st_Section st) \/
     (exists a, In a new /\ within cursorPosition a = true /\
                st_Focus st3 = Some (FocusArgument a) /\
                st_Section st3 = VarPtr <$> capture st)) ->
    ((exists q (g : Flag), capture st = Some q /\ vars st !! q = Some g /\
                           vars st3 = <[q := Flag_set_Args g new]> (vars st)) \/
     (capture st = None /\ vars st3 = vars st)) ->
    inv (ep + 1) st3).
  { intros st3 Hc3 HFO3 HFl3 Ha3 Hfocus Hvars.
    (* the variables: only the capturing one changes, and only in its arguments *)
    assert (Hlook : forall p0 (g0 : Flag), vars st !! p0 = Some g0 ->
              exists g0' : Flag, vars st3 !! p0 = Some g0' /\
                flag_base g0' = flag_base g0 /\
                (capture st <> Some p0 -> g0' = g0) /\
                (capture st = Some p0 -> g0' = Flag_set_Args g0 new)).
    { intros p0 g0 Hp0. destruct Hvars as [(q & g & Hq & Hg & Hv3)|[Hq Hv3]]; rewrite Hv3.
      - destruct (decide (q = p0)) as [->|Hne].
        + rewrite Hg in Hp0. injection Hp0 as <-.
          exists (Flag_set_Args g new). split.
          * apply list_lookup_insert_eq. eapply lookup_lt_Some. exact Hg.
          * split; [reflexivity|]. split; [congruence | reflexivity].
        + exists g0. split; [rewrite list_lookup_insert_ne by exact Hne; exact Hp0|].
          split; [reflexivity|]. split; [reflexivity | congruence].
      - exists g0. split; [exact Hp0|]. split; [reflexivity|].
        split; [reflexivity | congruence]. }
    assert (Hcur3 : forall g, current st3 g ->
              (In g (st_FlagsOrdered st)) \/
              (exists q (g0 : Flag), capture st = Some q /\ vars st !! q = Some g0 /\
                                     g = Flag_set_Args g0 new)).
    { intros g [Hg|(q & Hq & Hg)]; [left; rewrite <- HFO3; exact Hg|]. right.
      rewrite Hc3 in Hq. destruct (inv_capture _ _ Hinv q Hq) as (g0 & Hg0 & _).
      destruct (Hlook q g0 Hg0) as (g0' & Hg0' & _ & _ & Hset).
      rewrite Hg in Hg0'. injection Hg0' as <-. exists q, g0. auto. }
    (* a flag of [FlagsOrdered] that owns an argument is not the capturing one *)
    assert (Hkeep : forall p0 (g : Flag), vars st !! p0 = Some g ->
              In g (st_FlagsOrdered st) -> Args g <> [] -> vars st3 !! p0 = Some g).
    { intros p0 g Hp0 Hin Hne. destruct (Hlook p0 g Hp0) as (g' & Hg' & _ & Hsame & _).
      rewrite Hg'. f_equal. apply Hsame. intros Hq. apply Hne.
      eapply current_not_capture; eassumption. }
    constructor.
    - lia.
    - destruct Hvars as [(q & g & Hq & Hg & Hv3)|[Hq Hv3]]; rewrite Hv3.
      + apply Forall_insert.
        * eapply Forall_impl; [apply (inv_vars _ _ Hinv)|]. intros f. apply flagOK_mono. lia.
        * pose proof (inv_vars _ _ Hinv) as H. rewrite Forall_forall in H.
          destruct (H g) as (? & ? & ? & Hb & _); [eapply list_elem_of_lookup_2; exact Hg|].
          repeat apply conj; cbn [Flag_set_Args start end_ flag_base Args]; try assumption.
          -- eapply before_mono; [|exact Hb]. lia.
          -- apply Forall_forall. intros a Ha. split.
             ++ apply before_strict in Hb; [|exact Hi].
                specialize (Hnewpos a (proj1 (list_elem_of_In _ _) Ha)). lia.
             ++ rewrite Forall_forall in HnewOK. apply HnewOK. exact Ha.
      + eapply Forall_impl; [apply (inv_vars _ _ Hinv)|]. intros f. apply flagOK_mono. lia.
    - rewrite HFO3. eapply Forall_impl; [apply (inv_FO _ _ Hinv)|].
      intros f. apply flagOK_mono. lia.
    - intros k f Hk. rewrite HFO3. rewrite HFl3 in Hk. eapply inv_Flags; eassumption.
    - rewrite Ha3. apply Forall_app. split; [|exact HnewOK].
      eapply Forall_impl; [apply (inv_Args _ _ Hinv)|]. intros a. apply argOK_mono. lia.
    - rewrite HFO3. apply (inv_ordered _ _ Hinv).
    - intros q Hq. rewrite Hc3 in Hq.
      destruct (inv_capture _ _ Hinv q Hq) as (g0 & Hg0 & Hprec).
      destruct (Hlook q g0 Hg0) as (g0' & Hg0' & Hbase & _).
      exists g0'. split; [exact Hg0'|]. rewrite HFO3.
      eapply Forall_impl; [exact Hprec|]. cbn beta. unfold precedes. rewrite Hbase. auto.
    - intros q g Hq Hg _. destruct (Z_lt_dec ep (len line)) as [Hlt|Hge]; [|left; lia].
      right. apply Hstop. exact Hlt.
    - intros r Hr. unfold focusOK.
      destruct Hfocus as [(Hnone & Hf3 & Hs3)|(a & Ha & Hwa & Hf3 & Hs3)].
      + rewrite Hf3 in Hr. pose proof (inv_focus _ _ Hinv r Hr) as Hfo.
        unfold focusOK in Hfo. destruct r as [p0|a|cmd]; [|exact Hfo|exact Hfo].
        destruct Hfo as (g & Hg & Hwg & Hsg & Hag).
        destruct (Hlook p0 g Hg) as (g' & Hg' & Hbase & _).
        exists g'. split; [exact Hg'|]. split; [rewrite Hbase; exact Hwg|].
        split; [rewrite Hs3; exact Hsg|]. rewrite Ha3. apply Forall_app. split; assumption.
      + rewrite Hf3 in Hr. injection Hr as <-. split; [exact Hwa|].
        rewrite Forall_forall in HnewOK.
        destruct (HnewOK a) as (? & ? & ? & _); [apply list_elem_of_In; exact Ha|]. lia.
    - intros ptr Hptr.
      destruct Hfocus as [(Hnone & Hf3 & Hs3)|(a & Ha & Hwa & Hf3 & Hs3)].
      + rewrite Hs3 in Hptr.
        destruct (inv_sec_from _ _ Hinv ptr Hptr) as (p0 & g & -> & Hg & Hwhy).
        destruct Hwhy as [Hfo|(a & Ha & Hwa & Hwhere)].
        * destruct (Hlook p0 g Hg) as (g' & Hg' & _).
          exists p0, g'. split; [reflexivity|]. split; [exact Hg'|]. left.
          rewrite Hf3. exact Hfo.
        * assert (Hne : Args g <> []) by (intros E; rewrite E in Ha; destruct Ha).
          destruct Hwhere as [Hin|Hq].
          -- exists p0, g. split; [reflexivity|]. split; [apply Hkeep; assumption|].
             right. exists a. split; [exact Ha|]. split; [exact Hwa|]. left.
             rewrite HFO3. exact Hin.
          -- exfalso. destruct (inv_alt _ _ Hinv p0 g Hq Hg Hne) as [?|E]; [lia|].
             rewrite Hch in E. injection E as E. contradiction.
      + rewrite Hs3 in Hptr. destruct (capture st) as [q|] eqn:Hq; [|discriminate].
        injection Hptr as <-.
        destruct (inv_capture _ _ Hinv q Hq) as (g0 & Hg0 & _).
        destruct (Hlook q g0 Hg0) as (g0' & Hg0' & _ & _ & Hset).
        exists q, g0'. split; [reflexivity|]. split; [exact Hg0'|]. right.
        exists a. rewrite (Hset eq_refl). cbn [Flag_set_Args Args].
        split; [exact Ha|]. split; [exact Hwa|]. right. rewrite Hc3. reflexivity.
    - intros g a0 Hg Ha0 Hwa0.
      destruct (Hcur3 g Hg) as [Hin|(q & g0 & Hq & Hg0 & ->)].
      + assert (Hcur : current st g) by (left; exact Hin).
        destruct (inv_sec_owned _ _ Hinv g a0 Hcur Ha0 Hwa0) as (p0 & Hsec & Hp0).
        assert (Hne : Args g <> []) by (intros E; rewrite E in Ha0; destruct Ha0).
        destruct Hfocus as [(Hnone & Hf3 & Hs3)|(a & Ha & Hwa & Hf3 & Hs3)].
        * exists p0. rewrite Hs3. split; [exact Hsec | apply Hkeep; assumption].
        * exfalso. destruct (Hold g (or_intror Hin)) as [_ Hargs].
          rewrite Forall_forall in Hargs.
          specialize (Hargs a0 (proj2 (list_elem_of_In _ _) Ha0)).
          specialize (Hnewpos a Ha). apply within_spec in Hwa, Hwa0. lia.
      + cbn [Flag_set_Args Args] in Ha0.
        destruct Hfocus as [(Hnone & Hf3 & Hs3)|(a & Ha & Hwa & Hf3 & Hs3)].
        * exfalso. rewrite Forall_forall in Hnone.
          specialize (Hnone a0 (proj2 (list_elem_of_In _ _) Ha0)). congruence.
        * exists q. rewrite Hs3, Hq. split; [reflexivity|].
          destruct (Hlook q g0 Hg0) as (g0' & Hg0' & _ & _ & Hset).
          rewrite Hg0'. f_equal. apply Hset. exact Hq.
    - rewrite Ha3, valuesOf_app, <- app_assoc, Hval'. apply (inv_tokens _ _ Hinv).
    - intros g a0 Hg Ha0. rewrite Ha3. apply in_or_app.
      destruct (Hcur3 g Hg) as [Hin|(q & g0 & Hq & Hg0 & ->)].
      + left. eapply inv_owned_top; [exact Hinv | left; exact Hin | exact Ha0].
      + right. exact Ha0. }
  (* the two exits *)
  set (st1 := set_Arguments st (st_Arguments st ++ new)).
  set (st2 := fold_left (focusArg cursorPosition) new st1).
  assert (H2 : vars st2 = vars st /\ capture st2 = capture st /\
               st_FlagsOrdered st2 = st_FlagsOrdered st /\ st_Flags st2 = st_Flags st /\
               st_Arguments st2 = st_Arguments st ++ new /\
               ((Forall (fun a : Argument => within cursorPosition a = false) new /\
                 st_Focus st2 = st_Focus st /\ st_Section st2 = st_Section st) \/
                (exists a, In a new /\ within cursorPosition a = true /\
                           st_Focus st2 = Some (FocusArgument a) /\
                           st_Section st2 = VarPtr <$> capture st))).
  { unfold st2. destruct (fold_focusArg cursorPosition new st1)
      as [[Hnone ->]|(a & Ha & Hwa & ->)]; unfold st1; st_simpl.
    - repeat apply conj; try reflexivity. left. auto.
    - repeat apply conj; try reflexivity. right. exists a. auto. }
  destruct H2 as (Hv2 & Hc2 & HFO2 & HFl2 & Ha2 & Hfocus2).
  rewrite Hc2. destruct (capture st) as [q|] eqn:Hq.
  - destruct (inv_capture _ _ Hinv q Hq) as (g & Hg & _).
    rewrite Hv2, Hg. cbn [mbind option_bind].
    eexists _, ep. split; [reflexivity|]. split; [lia|].
    apply Hgen; st_simpl; try assumption.
    left. exists q, g. auto.
  - exists st2, ep. split; [reflexivity|]. split; [lia|].
    apply Hgen; try assumption. right. auto.
Qed.

(** The main loop returns, with the invariant, at an offset past the line. *)
Lemma ParseLine_loop_inv fuel i st :
  inv i st -> len line - i <= Z.of_nat fuel ->
  exists st' j, ParseLine_loop fuel line cursorPosition i st = Some st' /\
                len line <= j /\ inv j st'.
Proof.
  revert i st. induction fuel as [|fuel IH]; intros i st Hinv Hfuel;
    cbn [ParseLine_loop]; destruct (Z.ltb_spec i (len line)) as [Hlt|Hge]; cbn [negb];
    try lia; try (exists st, i; split; [reflexivity|]; split; [lia | exact Hinv]).
  pose proof (inv_pos _ _ Hinv) as Hpos.
  destruct (index_in_range line i) as (ch & Hch & _); [lia|].
  rewrite Hch. cbn [mbind option_bind].
  destruct (ch =? dash)%char eqn:Hd.
  - apply Ascii.eqb_eq in Hd. subst ch.
    destruct (flagStep_inv i st Hinv Hlt Hch) as (st' & i' & Hstep & Hi' & Hinv').
    rewrite Hstep. cbn [mbind option_bind fst snd]. apply IH; [exact Hinv' | lia].
  - assert (Hnd : ch <> dash) by (intros ->; rewrite Ascii.eqb_refl in Hd; discriminate).
    destruct (argStep_inv i st ch Hinv Hlt Hch Hnd) as (st' & i' & Hstep & Hi' & Hinv').
    rewrite Hstep. cbn [mbind option_bind fst snd]. apply IH; [exact Hinv' | lia].
Qed.

(** What [ParseLine] returns, from the state the main loop leaves. *)
Lemma finish_eq j st :
  inv j st ->
  exists st0 found cl pl,
    flush st = Some st0 /\
    sectionWalk (length (st_FlagsOrdered st0)) (st_FlagsOrdered st0) cursorPosition
      = Some (found, cl) /\
    finish line cursorPosition st = Some pl /\
    FlagsOrdered pl = st_FlagsOrdered st0 /\
    Flags pl = st_Flags st0 /\
    RawLine pl = line /\
    Command pl = asCmd <$> head (st_Arguments st) /\
    Arguments pl = tail (st_Arguments st) /\
    Focus pl = match head (st_Arguments st) with
               | Some a =>
                 if within cursorPosition a then Some (CmdNode (asCmd a))
                 else st_Focus st ≫= deref_focus st
               | None => st_Focus st ≫= deref_focus st
               end /\
    Section_ pl = match found with
                  | Some k => st_FlagsOrdered st0 !! k
                  | None =>
                    match st_Section st with
                    | Some ptr => deref st ptr
                    | None => cl ≫= fun k => st_FlagsOrdered st0 !! k
                    end
                  end.
Proof.
  intros Hinv.
  destruct (flush_spec j st Hinv)
    as (st0 & Hflush & Hv0 & Hc0 & Ha0 & Hf0 & Hs0 & HFO0 & HFl0 & Hord0 & Hcur0).
  destruct (sectionWalk_total (length (st_FlagsOrdered st0)) (st_FlagsOrdered st0)
              cursorPosition (le_n _)) as (found & cl & Hw & Hfound & Hcl).
  exists st0, found, cl. unfold finish. rewrite Hflush. cbn [mbind option_bind].
  rewrite Hw. cbn [mbind option_bind fst snd].
  (* the pointers of the final state lead somewhere *)
  assert (Hsec : forall ptr, st_Section st = Some ptr ->
            exists g : Flag, deref st ptr = Some g).
  { intros ptr Hptr. destruct (inv_sec_from _ _ Hinv ptr Hptr) as (p & g & -> & Hg & _).
    exists g. exact Hg. }
  assert (Hfoc : forall r, st_Focus st = Some r -> exists n, deref_focus st r = Some n).
  { intros r Hr. pose proof (inv_focus _ _ Hinv r Hr) as Hfo. unfold focusOK in Hfo.
    destruct r as [p|a|cmd]; [|eexists; reflexivity|destruct Hfo].
    destruct Hfo as (g & Hg & _). exists (FlagNode g). cbn. rewrite Hg. reflexivity. }
  destruct st0 as [vars0 cap0 FO0 Fl0 args0 foc0 sec0]. st_simpl.
  subst vars0 cap0 args0 foc0 sec0.
  assert (Hk : forall k, found = Some k \/ cl = Some k -> exists g : Flag, FO0 !! k = Some g).
  { intros k [E|E].
    - destruct (Hfound k E) as (g & Hg & _). eauto.
    - destruct (Hcl k E) as (_ & g & Hg). eauto. }
  clear Hw Hfound Hcl Hflush.
  destruct (st_Section st) as [ptr|] eqn:Hptr;
    [destruct (inv_sec_from _ _ Hinv ptr Hptr) as (p & g & -> & Hg & _)|];
    (destruct (st_Focus st) as [r|] eqn:Hr;
     [pose proof (inv_focus _ _ Hinv r Hr) as Hfo; unfold focusOK in Hfo;
      destruct r as [pf|af|cf]; [destruct Hfo as (gf & Hgf & _)| |destruct Hfo]|]);
    destruct (st_Arguments st) as [|a rest];
    destruct found as [kf|]; try (destruct (Hk kf (or_introl eq_refl)) as (gkf & Hgkf));
    destruct cl as [kc|]; try (destruct (Hk kc (or_intror eq_refl)) as (gkc & Hgkc));
    cbn [head tail fmap option_fmap option_map mbind option_bind deref deref_focus];
    st_simpl; unfold within, asCmd; cbn [start end_ cmd_base];
    try match goal with |- context [if ?b then _ else _] => destruct b end;
    st_simpl; cbn [deref deref_focus]; st_simpl;
    rewrite ?Hg, ?Hgf, ?Hgkf, ?Hgkc;
    cbn [head tail fmap option_fmap option_map mbind option_bind];
    eexists; repeat apply conj; reflexivity.
Qed.

Lemma ordered_pair l (f g : Flag) :
  ordered l -> In f l -> In g l -> f = g \/ precedes f g \/ precedes g f.
Proof.
  induction 1 as [|l x Hl IH Hx]; intros Hf Hg; [destruct Hf|].
  rewrite Forall_forall in Hx.
  apply in_app_or in Hf as [Hf|[<-|[]]]; apply in_app_or in Hg as [Hg|[<-|[]]].
  - apply IH; assumption.
  - right. left. apply Hx, list_elem_of_In, Hf.
  - right. right. apply Hx, list_elem_of_In, Hg.
  - left. reflexivity.
Qed.

Lemma flagOK_span i f : flagOK i f -> flagSpan f.
Proof.
  intros (? & ? & ? & _ & Hargs). repeat apply conj; try assumption.
  eapply Forall_impl; [exact Hargs|]. cbn beta. intros a (? & ? & ? & ? & _). auto.
Qed.

(** An owned argument and a flag of an ordered list never hold the cursor
    together. *)
Lemma owned_excludes l (f g : Flag) (a : Argument) :
  ordered l -> Forall flagSpan l -> In f l -> In g l -> In a (Args f) ->
  within cursorPosition a = true -> within cursorPosition g = false.
Proof.
  intros Hord Hspan Hf Hg Ha Hwa. apply within_spec in Hwa. apply within_false.
  rewrite Forall_forall in Hspan.
  destruct (Hspan f (proj2 (list_elem_of_In _ _) Hf)) as (_ & ? & _ & Hfa).
  destruct (Hspan g (proj2 (list_elem_of_In _ _) Hg)) as (_ & ? & _ & _).
  rewrite Forall_forall in Hfa.
  destruct (Hfa a (proj2 (list_elem_of_In _ _) Ha)) as (? & _).
  destruct (ordered_pair l f g Hord Hf Hg) as [<-|[Hp|Hp]].
  - lia.
  - destruct Hp as [(_ & _ & E)|[_ Hall]]; [rewrite E in Ha; destruct Ha|].
    rewrite Forall_forall in Hall.
    specialize (Hall a (proj2 (list_elem_of_In _ _) Ha)). lia.
  - destruct Hp as [(? & ? & _)|[? _]]; lia.
Qed.

Lemma base_eta (b : baseNode) : mkBase (start b) (end_ b) (value b) = b.
Proof. now destruct b. Qed.

Lemma finish_parsed j st :
  inv j st -> len line <= j ->
  exists pl, finish line cursorPosition st = Some pl /\ parsed pl.
Proof.
  intros Hinv Hj.
  destruct (finish_eq j st Hinv)
    as (st0 & found & cl & pl & Hflush & Hw & Hfin & EFO & EFl & Eraw & Ecmd & Eargs
        & Efoc & Esec).
  destruct (flush_spec j st Hinv)
    as (st0' & Hflush' & Hv0 & Hc0 & Ha0 & Hf0 & Hs0 & HFO0 & HFl0 & Hord0 & Hcur0).
  rewrite Hflush in Hflush'. injection Hflush' as <-.
  destruct (sectionWalk_total (length (st_FlagsOrdered st0)) (st_FlagsOrdered st0)
              cursorPosition (le_n _)) as (found' & cl' & Hw' & Hfound & Hcl).
  rewrite Hw in Hw'. injection Hw' as <- <-.
  exists pl. split; [exact Hfin|].
  assert (Hspan0 : Forall flagSpan (st_FlagsOrdered st0)).
  { eapply Forall_impl; [exact HFO0|]. intros f. apply flagOK_span. }
  assert (HvarsSpan : forall p (g : Flag), vars st !! p = Some g -> flagSpan g).
  { intros p g Hg. pose proof (inv_vars _ _ Hinv) as H. rewrite Forall_forall in H.
    eapply flagOK_span, H, list_elem_of_lookup_2, Hg. }
  assert (HargsSpan : forall a : Argument, In a (st_Arguments st) -> argSpan a).
  { intros a Ha. pose proof (inv_Args _ _ Hinv) as H. rewrite Forall_forall in H.
    destruct (H a) as (? & ? & ? & _); [apply list_elem_of_In; exact Ha|].
    repeat split; assumption. }
  assert (Hnofound : (forall g : Flag, In g (st_FlagsOrdered st0) ->
                        within cursorPosition g = false) -> found = None).
  { intros Hno. destruct found as [k|]; [|reflexivity].
    destruct (Hfound k eq_refl) as (g & Hg & Hwg).
    rewrite (Hno g) in Hwg; [discriminate|].
    apply list_elem_of_In. eapply list_elem_of_lookup_2. exact Hg. }
  constructor.
  - exact Eraw.
  - rewrite EFO. exact Hspan0.
  - intros k f Hk. rewrite EFO. rewrite EFl in Hk. apply (HFl0 k). exact Hk.
  - rewrite Eargs. apply Forall_forall. intros a Ha. apply HargsSpan.
    apply list_elem_of_In in Ha. destruct (st_Arguments st); [destruct Ha|].
    right. exact Ha.
  - intros cmd Hcmd. rewrite Ecmd in Hcmd.
    destruct (st_Arguments st) as [|a rest] eqn:E; [discriminate|].
    injection Hcmd as <-. apply (HargsSpan a). left. reflexivity.
  - intros n Hn. rewrite Efoc in Hn.
    assert (Hloose : st_Focus st ≫= deref_focus st = Some n ->
              within cursorPosition (node_base n) = true /\
              0 <= start (node_base n) /\ end_ (node_base n) <= len line).
    { destruct (st_Focus st) as [r|] eqn:Hr; [|discriminate]. cbn [mbind option_bind].
      pose proof (inv_focus _ _ Hinv r Hr) as Hfo. unfold focusOK in Hfo.
      destruct r as [p|a|cmd]; cbn [deref_focus]; [|intros E; injection E as <-; exact Hfo
                                                    |destruct Hfo].
      destruct Hfo as (g & Hg & Hwg & _). rewrite Hg. intros E. injection E as <-.
      destruct (HvarsSpan p g Hg) as (? & ? & ? & _). cbn [node_base]. auto. }
    destruct (head (st_Arguments st)) as [a|] eqn:Hhead; [|exact (Hloose Hn)].
    destruct (within cursorPosition a) eqn:Hwa; [|exact (Hloose Hn)].
    injection Hn as <-. cbn [node_base asCmd cmd_base].
    destruct (HargsSpan a) as (? & ? & ?).
    { destruct (st_Arguments st); [discriminate|]. injection Hhead as <-. left. reflexivity. }
    split; [exact Hwa|]. cbn [start end_]. lia.
  - intros f Hf. rewrite Esec in Hf. destruct found as [k|].
    + rewrite Forall_forall in Hspan0. eapply Hspan0, list_elem_of_lookup_2, Hf.
    + destruct (st_Section st) as [ptr|] eqn:Hptr.
      * destruct (inv_sec_from _ _ Hinv ptr Hptr) as (p & g & -> & Hg & _).
        cbn [deref] in Hf. eapply HvarsSpan. exact Hf.
      * destruct cl as [k|]; [|discriminate]. cbn [mbind option_bind] in Hf.
        rewrite Forall_forall in Hspan0. eapply Hspan0, list_elem_of_lookup_2, Hf.
  - unfold topLevel. rewrite Ecmd, Eargs. rewrite <- (inv_tokens _ _ Hinv).
    rewrite suffix_past by lia. unfold argTokens, tokens. cbn [fields List.filter nonempty map].
    rewrite app_nil_r. unfold valuesOf.
    destruct (st_Arguments st) as [|a rest]; [reflexivity|].
    cbn [head fmap option_fmap option_map tail app map asCmd cmd_base value].
    f_equal. rewrite !map_map. reflexivity.
  - intros f a Hf Ha. rewrite EFO in Hf.
    assert (Hin : In a (st_Arguments st)).
    { eapply inv_owned_top; [exact Hinv | apply Hcur0; exact Hf | exact Ha]. }
    unfold topLevel. rewrite Ecmd, Eargs. apply in_or_app.
    destruct (st_Arguments st) as [|a0 rest]; [destruct Hin|].
    cbn [head fmap option_fmap option_map tail].
    destruct Hin as [->|Hin].
    + left. left. cbn [asCmd cmd_base]. apply base_eta.
    + right. apply in_map. exact Hin.
  - intros f Hf Hwf. rewrite EFO in Hf |- *.
    destruct (sectionWalk_finds (st_FlagsOrdered st0) cursorPosition f) as
      (k & g & Hwk & Hk & Hwg & Hs & He); try assumption.
    { eapply Forall_impl; [exact Hspan0|]. cbn beta. intros x (_ & ? & _). assumption. }
    rewrite Hw in Hwk. injection Hwk as -> ->.
    exists g. rewrite Esec. split; [exact Hk|].
    split; [eapply list_elem_of_In, list_elem_of_lookup_2, Hk|]. auto.
  - intros f Hfoc Hno. rewrite EFO in Hno. rewrite Esec, (Hnofound Hno).
    rewrite Efoc in Hfoc.
    assert (Hloose : st_Focus st ≫= deref_focus st = Some (FlagNode f)).
    { destruct (head (st_Arguments st)) as [a|]; [|exact Hfoc].
      destruct (within cursorPosition a); [discriminate | exact Hfoc]. }
    destruct (st_Focus st) as [r|] eqn:Hr; [|discriminate]. cbn [mbind option_bind] in Hloose.
    pose proof (inv_focus _ _ Hinv r Hr) as Hfo. unfold focusOK in Hfo.
    destruct r as [p|a|cmd]; cbn [deref_focus] in Hloose; [|discriminate|destruct Hfo].
    destruct Hfo as (g & Hg & _ & Hsec & _). rewrite Hg in Hloose.
    injection Hloose as ->. rewrite Hsec. exact Hg.
  - intros f a Hf Ha Hwa. rewrite EFO in Hf.
    assert (Hno : found = None).
    { destruct found as [k|]; [|reflexivity].
      destruct (Hfound k eq_refl) as (g & Hg & Hwg).
      rewrite (owned_excludes (st_FlagsOrdered st0) f g a) in Hwg; try assumption;
        [discriminate|].
      eapply list_elem_of_In, list_elem_of_lookup_2, Hg. }
    destruct (inv_sec_owned _ _ Hinv f a) as (p & Hsec & Hp);
      [apply Hcur0; exact Hf | exact Ha | exact Hwa |].
    rewrite Esec, Hno, Hsec. exact Hp.
  - intros Hno Hnofocus Hnoowned. rewrite EFO in Hno, Hnoowned |- *.
    rewrite Esec, (Hnofound Hno).
    assert (Hsec : st_Section st = None).
    { destruct (st_Section st) as [ptr|] eqn:Hptr; [exfalso|reflexivity].
      destruct (inv_sec_from _ _ Hinv ptr Hptr) as (p & g & -> & Hg & Hwhy).
      destruct Hwhy as [Hfo|(a & Ha & Hwa & Hwhere)].
      - apply (Hnofocus g). rewrite Efoc, Hfo. cbn [mbind option_bind deref_focus].
        pose proof (inv_focus _ _ Hinv _ Hfo) as (g' & Hg' & _ & _ & Hargs).
        rewrite Hg. cbn [fmap option_fmap option_map].
        destruct (st_Arguments st) as [|a0 rest]; [reflexivity|]. cbn [head].
        inversion Hargs as [|? ? Hwa0 _]; subst. rewrite Hwa0. reflexivity.
      - assert (Hin : In g (st_FlagsOrdered st0)).
        { apply Hcur0. destruct Hwhere as [Hin|Hq]; [left; exact Hin|]. right. eauto. }
        rewrite (Hnoowned g a Hin Ha) in Hwa. discriminate. }
    rewrite Hsec.
    destruct (sectionWalk_nearest (st_FlagsOrdered st0) cursorPosition) as (cl' & Hw' & Hn & _).
    { apply Forall_forall. intros g Hg. apply Hno, list_elem_of_In, Hg. }
    rewrite Hw, (Hnofound Hno) in Hw'. injection Hw' as ->. exact Hn.
Qed.

End Invariant.

(** [ParseLine] always returns, and what it returns has the properties
    above. *)
Lemma ParseLine_parsed line cursorPosition :
  exists pl, ParseLine line cursorPosition = Some pl /\ parsed line cursorPosition pl.
Proof.
  unfold ParseLine.
  destruct (ParseLine_loop_inv line cursorPosition (String.length line) 0 initState)
    as (st & j & Hloop & Hj & Hinv); [apply inv_init | unfold len; lia|].
  rewrite Hloop. cbn [mbind option_bind]. eapply finish_parsed; eassumption.
Qed.

(** ** The cursor only decides the focus and the section *)

Lemma core_fields st st' :
  core st = core st' <->
  vars st = vars st' /\ capture st = capture st' /\
  st_FlagsOrdered st = st_FlagsOrdered st' /\ st_Flags st = st_Flags st' /\
  st_Arguments st = st_Arguments st'.
Proof.
  unfold core. split.
  - intros E. injection E. auto.
  - intros (-> & -> & -> & -> & ->). reflexivity.
Qed.

Lemma core_fold_addFlag (g : Z -> Flag) rs st st' :
  core st = core st' ->
  core (fold_left (fun st c => addFlag st (g c)) rs st)
  = core (fold_left (fun st c => addFlag st (g c)) rs st').
Proof.
  revert st st'. induction rs as [|r rs IH]; intros st st' E; [exact E|].
  cbn [fold_left]. apply IH. apply core_fields in E as (E1 & E2 & E3 & E4 & E5).
  apply core_fields. st_simpl. rewrite E1, E2, E3, E4, E5. auto.
Qed.

Lemma core_fold_focusArg c args st : core (fold_left (focusArg c) args st) = core st.
Proof.
  destruct (fold_focusArg c args st) as [[_ ->]|(a & _ & _ & ->)]; reflexivity.
Qed.

Lemma flagStep_core line c c' i st st' :
  core st = core st' ->
  sameCore (flagStep line c i st) (flagStep line c' i st').
Proof.
  intros E. apply core_fields in E as (E1 & E2 & E3 & E4 & E5).
  destruct st as [v cp fo fl ar fc se], st' as [v' cp' fo' fl' ar' fc' se'].
  st_simpl. subst v' cp' fo' fl' ar'.
  unfold flagStep, flush. st_simpl.
  destruct cp as [q|]; [destruct (v !! q) as [g|]|]; cbn [mbind option_bind]; [|exact I|];
    (destruct (parseFlag line i) as [[newFlag j]|]; cbn [mbind option_bind fst snd];
     [|exact I]);
    st_simpl;
    destruct (within c newFlag), (within c' newFlag), (long newFlag);
    try (split; reflexivity);
    destruct (len (Value newFlag) =? 1);
    try (split; reflexivity);
    (split; [apply core_fold_addFlag|]; reflexivity).
Qed.

Lemma argStep_core line c c' i st st' :
  core st = core st' ->
  sameCore (argStep line c i st) (argStep line c' i st').
Proof.
  intros E. unfold argStep.
  destruct (parseArgs line i) as [[args j]|]; cbn [mbind option_bind fst snd]; [|exact I].
  set (s := fold_left (focusArg c) args (set_Arguments st (st_Arguments st ++ args))).
  set (s' := fold_left (focusArg c') args (set_Arguments st' (st_Arguments st' ++ args))).
  assert (Es : core s = core s').
  { unfold s, s'. rewrite !core_fold_focusArg.
    apply core_fields in E as (E1 & E2 & E3 & E4 & E5).
    apply core_fields. st_simpl. rewrite E1, E2, E3, E4, E5. auto. }
  apply core_fields in Es as (S1 & S2 & S3 & S4 & S5).
  rewrite <- S2, <- S1.
  destruct (capture s) as [q|] eqn:Hq; [destruct (vars s !! q) as [g|]|];
    cbn [mbind option_bind]; try exact I;
    (split; [|reflexivity]); apply core_fields; st_simpl;
    repeat apply conj; congruence.
Qed.

Lemma ParseLine_loop_core fuel line c c' i st st' :
  core st = core st' ->
  match ParseLine_loop fuel line c i st, ParseLine_loop fuel line c' i st' with
  | Some s, Some s' => core s = core s'
  | None, None => True
  | _, _ => False
  end.
Proof.
  revert i st st'. induction fuel as [|fuel IH]; intros i st st' E; cbn [ParseLine_loop];
    destruct (i <? len line); cbn [negb]; try exact E; try exact I.
  destruct (index line i) as [ch|]; cbn [mbind option_bind]; [|exact I].
  assert (H : sameCore
                (if (ch =? dash)%char then flagStep line c i st else argStep line c i st)
                (if (ch =? dash)%char then flagStep line c' i st' else argStep line c' i st')).
  { destruct (ch =? dash)%char; [apply flagStep_core | apply argStep_core]; exact E. }
  unfold sameCore in H.
  destruct (if (ch =? dash)%char then flagStep line c i st else argStep line c i st)
    as [[s j]|];
    destruct (if (ch =? dash)%char then flagStep line c' i st' else argStep line c' i st')
    as [[s' j']|]; try contradiction; cbn [mbind option_bind fst snd]; [|exact I].
  destruct H as [Hs ->]. apply IH. exact Hs.
Qed.

Lemma ParseLine_structure line c c' pl pl' :
  ParseLine line c = Some pl -> ParseLine line c' = Some pl' -> sameStructure pl pl'.
Proof.
  unfold ParseLine. intros H H'.
  destruct (ParseLine_loop_inv line c (String.length line) 0 initState)
    as (st & j & Hloop & Hj & Hinv); [apply inv_init | unfold len; lia|].
  destruct (ParseLine_loop_inv line c' (String.length line) 0 initState)
    as (st' & j' & Hloop' & Hj' & Hinv'); [apply inv_init | unfold len; lia|].
  pose proof (ParseLine_loop_core (String.length line) line c c' 0 initState initState
                eq_refl) as Hcore.
  rewrite Hloop, Hloop' in Hcore. rewrite Hloop in H. rewrite Hloop' in H'.
  cbn [mbind option_bind] in H, H'.
  destruct (finish_eq line c j st Hinv)
    as (st0 & found & cl & pl0 & Hflush & _ & Hfin & EFO & EFl & Eraw & Ecmd & Eargs & _).
  destruct (finish_eq line c' j' st' Hinv')
    as (st0' & found' & cl' & pl0' & Hflush' & _ & Hfin' & EFO' & EFl' & Eraw' & Ecmd'
        & Eargs' & _).
  rewrite Hfin in H. injection H as <-. rewrite Hfin' in H'. injection H' as <-.
  apply core_fields in Hcore as (C1 & C2 & C3 & C4 & C5).
  assert (E0 : st_FlagsOrdered st0 = st_FlagsOrdered st0' /\ st_Flags st0 = st_Flags st0').
  { unfold flush in Hflush, Hflush'. rewrite <- C2, <- C1 in Hflush'.
    destruct (capture st) as [q|]; [destruct (vars st !! q) as [g|]|];
      cbn [mbind option_bind] in Hflush, Hflush'; try discriminate;
      injection Hflush as <-; injection Hflush' as <-; st_simpl; rewrite C3, C4; auto. }
  destruct E0 as [F1 F2].
  constructor; congruence.
Qed.

(** * The properties of the specification *)

(** The structure of the result at one cursor is its structure at all. *)
Lemma ParseLine_at line c0 pl0 c :
  ParseLine line c0 = Some pl0 ->
  exists pl, ParseLine line c = Some pl /\ sameStructure pl0 pl.
Proof.
  intros H0. destruct (ParseLine_parsed line c) as (pl & Hpl & _).
  exists pl. split; [exact Hpl|]. eapply ParseLine_structure; eassumption.
Qed.

(** ** C1: token conservation *)



(** ** C2: long flags *)

(** C2, as stated, fails on ["-ab"]: the value has two bytes and [long] is
    false. *)
Lemma C2_counterexample :
  exists f endPos, parseFlag "-ab" 0 = Some (f, endPos) /\
    value f = "ab" /\ len (value f) = 2 /\ long f = false.
Proof. eexists. eexists. split; [vm_compute; reflexivity|]. repeat split. Qed.

(** C2, amended: [parseFlag] at an offset of the line returns a flag whose
    value is the token without its leading dashes, and [long] is true
    exactly when the token begins with two or more dashes and at least one
    byte follows them; the length of the value plays no part. *)
Theorem C2_long_flag line startPos :
  0 <= startPos ->
  exists f endPos, parseFlag line startPos = Some (f, endPos) /\
    value f = encodeBytes (flagName (suffix (Z.to_nat startPos) line)) /\
    (long f = true <->
     2 <= leadingDashes (suffix (Z.to_nat startPos) line) /\
     flagName (suffix (Z.to_nat startPos) line) <> "").
Proof.
  intros H. pose proof (parseFlag_spec line startPos H) as E. cbv zeta in E.
  eexists. eexists. split; [exact E|]. cbn [value flag_base long].
  split; [reflexivity|]. unfold leadingDashes, flagName.
  rewrite andb_true_iff, negb_true_iff, Z.gtb_lt, Z.eqb_neq.
  split; intros [H1 H2]; (split; [lia|]).
  - intros E0. rewrite E0 in H2. apply H2. reflexivity.
  - intros E0. apply H2.
    destruct (token (dropWhile isdash (suffix (Z.to_nat startPos) line)));
      [reflexivity | rewrite len_String in E0; pose proof (len_nonneg s); lia].
Qed.

(** [C2_long_flag] at ["--ab"], offset 0. *)
Lemma C2_long_flag_witness :
  0 <= 0 /\
  exists f endPos, parseFlag "--ab" 0 = Some (f, endPos) /\
    value f = encodeBytes (flagName (suffix (Z.to_nat 0) "--ab")) /\
    (long f = true <->
     2 <= leadingDashes (suffix (Z.to_nat 0) "--ab") /\
     flagName (suffix (Z.to_nat 0) "--ab") <> "").
Proof.
  assert (H : 0 <= 0) by lia.
  split; [exact H | exact (C2_long_flag "--ab" 0 H)].
Defined.

(** ** C3: bundled short options *)

(** C3, as stated, fails: for ["-aft value"] the list [Arguments] of the
    result is empty; ["value"], the first argument of the line, has been
    moved out of it to become the command. *)
Lemma C3_counterexample :
  exists pl, ParseLine "-aft value" 0 = Some pl /\
    Arguments pl = [] /\ Command pl = Some cmd_value /\ value cmd_value = "value".
Proof.
  eexists. split; [vm_compute; reflexivity|]. cbn. repeat split.
Qed.

(** C3, amended: for ["-aft value"] and every cursor, the flags are exactly
    ["a"], ["f"] and ["t"], all three with the span 0..4 and no argument,
    in [FlagsOrdered] and in [Flags]; ["value"] is attached to no flag: it
    is the command, with the span 5..10, and [Arguments] is empty. *)
Theorem C3_bundle cursorPosition :
  exists pl, ParseLine "-aft value" cursorPosition = Some pl /\
    FlagsOrdered pl = [flag_a; flag_f; flag_t] /\
    Flags pl = {[ "a" := flag_a; "f" := flag_f; "t" := flag_t ]} /\
    Arguments pl = [] /\
    Command pl = Some cmd_value.
Proof.
  assert (H0 : ParseLine "-aft value" 0 =
               Some (mkParsedLine [flag_a; flag_f; flag_t]
                       {[ "a" := flag_a; "f" := flag_f; "t" := flag_t ]} []
                       (Some (FlagNode (mkFlag (mkBase 0 4 "aft") [] false)))
                       (Some flag_t) (Some cmd_value) "-aft value"))
    by (vm_compute; reflexivity).
  destruct (ParseLine_at _ _ _ cursorPosition H0) as (pl & Hpl & [E1 E2 E3 E4 _]).
  exists pl. cbn in E1, E2, E3, E4. repeat split; congruence.
Qed.

(** ** C4: totality *)

(** C4: for every line and every cursor [ParseLine] returns a result (the
    main loop needs no more than [len(line)] iterations, nothing panics),
    and for the empty line the result has no flags, no arguments, no
    command, no focus and no section. *)
Theorem C4_ParseLine_total :
  (forall line cursorPosition, exists pl, ParseLine line cursorPosition = Some pl) /\
  (forall cursorPosition,
     ParseLine "" cursorPosition = Some (mkParsedLine [] ∅ [] None None None "")).
Proof.
  split.
  - intros line c. destruct (ParseLine_parsed line c) as (pl & Hpl & _). eauto.
  - intros c. reflexivity.
Qed.

(** ** C5: the section *)



(** ** C6: the errors of the query API *)

(** C6, as stated, fails for [GetArgString]: in the result for ["-x a b"]
    the flag ["x"] has two arguments and [GetArgString] returns the first
    with no error. *)
Lemma C6_counterexample :
  exists pl f, ParseLine "-x a b" 0 = Some pl /\
    Flags pl !! "x" = Some f /\ length (Args f) = 2%nat /\
    GetArgString pl "x" = Some ("a", None).
Proof.
  eexists. eexists. split; [vm_compute; reflexivity|].
  split; [vm_compute; reflexivity|]. split; reflexivity.
Qed.

(** C6, amended: each of the five accessors returns [ErrFlagNotSet] exactly
    when the name is not a key of [Flags] ([GetArg] and [GetArgString]
    never index out of range). For a flag that is present:
    [ExpectArgs(name, n)] returns the arity error exactly when the number
    of its arguments differs from [n], and no error otherwise; [GetArg]
    returns that arity error (for [n = 1]) exactly when the flag does not
    have exactly one argument; [GetArgString] returns its own error exactly
    when the flag has no argument, and succeeds with one argument or
    more. *)
Theorem C6_query_errors (pl : ParsedLine) (flag : string) (needs : Z) :
  ((GetArgs pl flag).2 = Some ErrFlagNotSet <-> Flags pl !! flag = None) /\
  ((GetArgsString pl flag).2 = Some ErrFlagNotSet <-> Flags pl !! flag = None) /\
  ((ExpectArgs pl flag needs).2 = Some ErrFlagNotSet <-> Flags pl !! flag = None) /\
  (exists r, GetArg pl flag = Some r /\
     (r.2 = Some ErrFlagNotSet <-> Flags pl !! flag = None)) /\
  (exists r, GetArgString pl flag = Some r /\
     (r.2 = Some ErrFlagNotSet <-> Flags pl !! flag = None)) /\
  (forall f : Flag, Flags pl !! flag = Some f ->
     ((ExpectArgs pl flag needs).2 = Some (ErrExpectsArguments flag needs)
      <-> Z.of_nat (length (Args f)) <> needs) /\
     ((ExpectArgs pl flag needs).2 = None <-> Z.of_nat (length (Args f)) = needs) /\
     (exists r, GetArg pl flag = Some r /\
        (r.2 = Some (ErrExpectsArguments flag 1) <-> length (Args f) <> 1%nat) /\
        (r.2 = None <-> length (Args f) = 1%nat)) /\
     (exists r, GetArgString pl flag = Some r /\
        (r.2 = Some (ErrExpectsAtLeastOne flag) <-> length (Args f) = 0%nat) /\
        (r.2 = None <-> length (Args f) <> 0%nat))).
Proof.
  assert (HG : forall f : Flag, Flags pl !! flag = Some f ->
            GetArg pl flag =
            Some (match Args f with
                  | [a] => (a, None)
                  | _ => (zeroArgument, Some (ErrExpectsArguments flag 1))
                  end)).
  { intros f Hf. unfold GetArg, ExpectArgs. rewrite Hf.
    destruct (Args f) as [|a [|b l]]; try reflexivity.
    destruct (Z.eqb_spec (Z.of_nat (length (a :: b :: l))) 1) as [E|_]; [|reflexivity].
    cbn [length] in E. lia. }
  assert (HS : forall f : Flag, Flags pl !! flag = Some f ->
            GetArgString pl flag =
            Some (match Args f with
                  | a :: _ => (Value a, None)
                  | [] => ("", Some (ErrExpectsAtLeastOne flag))
                  end)).
  { intros f Hf. unfold GetArgString. rewrite Hf.
    destruct (Args f) as [|a l]; [reflexivity|].
    destruct (Z.eqb_spec (Z.of_nat (length (a :: l))) 0) as [E|_]; [|reflexivity].
    cbn [length] in E. lia. }
  destruct (Flags pl !! flag) as [f|] eqn:Hf.
  - specialize (HG f eq_refl). specialize (HS f eq_refl).
    assert (HE : (ExpectArgs pl flag needs).2 =
                 if Z.of_nat (length (Args f)) =? needs then None
                 else Some (ErrExpectsArguments flag needs)).
    { unfold ExpectArgs. rewrite Hf.
      destruct (Z.of_nat (length (Args f)) =? needs); reflexivity. }
    unfold GetArgs, GetArgsString. rewrite Hf, HE, HG, HS. cbn [snd].
    split; [split; discriminate|]. split; [split; discriminate|].
    split; [destruct (Z.of_nat (length (Args f)) =? needs); split; discriminate|].
    split; [eexists; split; [reflexivity|];
            destruct (Args f) as [|a [|b l]]; split; discriminate|].
    split; [eexists; split; [reflexivity|];
            destruct (Args f) as [|a l]; split; discriminate|].
    intros f' E. injection E as <-.
    split; [destruct (Z.eqb_spec (Z.of_nat (length (Args f))) needs); split;
            congruence|].
    split; [destruct (Z.eqb_spec (Z.of_nat (length (Args f))) needs); split;
            congruence|].
    split; eexists; (split; [reflexivity|]).
    + destruct (Args f) as [|a [|b l]]; cbn [snd length]; split; split;
        congruence.
    + destruct (Args f) as [|a l]; cbn [snd length]; split; split; congruence.
  - unfold GetArgs, GetArgsString, GetArg, GetArgString, ExpectArgs. rewrite Hf.
    cbn [snd].
    split; [split; reflexivity|]. split; [split; reflexivity|].
    split; [split; reflexivity|].
    split; [eexists; split; [reflexivity|]; split; reflexivity|].
    split; [eexists; split; [reflexivity|]; split; reflexivity|].
    intros f E. discriminate.
Qed.

(** ** C7: a single-character short flag captures *)


(** ** C8: a cursor out of range *)

(** C8, as stated, fails for a cursor equal to the length of the line: for
    ["a"] and the cursor 1 the focus is the command ["a"], whose span 0..1
    ends at the length of the line. *)
Lemma C8_counterexample :
  exists pl, ParseLine "a" 1 = Some pl /\ len "a" <= 1 /\
    Focus pl = Some (CmdNode (mkCmd (mkBase 0 1 "a"))).
Proof.
  eexists. split; [vm_compute; reflexivity|].
  split; [vm_compute; discriminate | reflexivity].
Qed.

(** C8, amended: for every line, a cursor that is negative or greater than
    the length of the line gives a result with no focus. *)
Theorem C8_out_of_range_cursor line cursorPosition :
  cursorPosition < 0 \/ len line < cursorPosition ->
  exists pl, ParseLine line cursorPosition = Some pl /\ Focus pl = None.
Proof.
  intros Hc. destruct (ParseLine_parsed line cursorPosition) as (pl & Hpl & P).
  exists pl. split; [exact Hpl|].
  destruct (Focus pl) as [n|] eqn:E; [|reflexivity].
  destruct (p_focus _ _ _ P n E) as (Hw & ? & ?). apply within_spec in Hw. lia.
Qed.

(** [C8_out_of_range_cursor] at ["-l value"], cursor 9. *)
Lemma C8_out_of_range_cursor_witness :
  (9 < 0 \/ len "-l value" < 9) /\
  exists pl, ParseLine "-l value" 9 = Some pl /\ Focus pl = None.
Proof.
  assert (H : 9 < 0 \/ len "-l value" < 9) by (right; vm_compute; reflexivity).
  split; [exact H | exact (C8_out_of_range_cursor "-l value" 9 H)].
Defined.

(** ** C9: spans *)



(** ** C10: AddUser *)

(** C10: with a nil connection [AddUser] returns a nil user and
    [ErrNilServerConnection] and leaves the registry as it was; with a
    connection it returns a new user and no error, and in the registry it
    leaves, the id leads to that user, whose [IdString] is the id and whose
    [ServerConnection] is the connection, whatever the id led to before;
    the entries of the other ids and the users allocated before are
    untouched. *)
Theorem C10_AddUser {Conn Channel Requests Request : Type} (zeroRequest : Request)
    (idStr : string) (r : Users.registry (Conn:=Conn) (Channel:=Channel)
                            (Requests:=Requests) (Request:=Request)) :
  Users.AddUser zeroRequest idStr None r = (None, Some Users.ErrNilServerConnection, r) /\
  (forall conn : Conn,
     exists (us : nat) (u : Users.User) (r' : Users.registry),
       Users.AddUser zeroRequest idStr (Some conn) r = (Some us, None, r') /\
       Users.allUsers r' !! idStr = Some us /\
       Users.heap r' !! us = Some u /\
       Users.lookupUser r' idStr = Some u /\
       Users.IdString u = idStr /\
       Users.ServerConnection u = Some conn /\
       (forall other, other <> idStr ->
          Users.allUsers r' !! other = Users.allUsers r !! other) /\
       (forall p v, Users.heap r !! p = Some v -> Users.heap r' !! p = Some v)).
Proof.
  split; [reflexivity|]. intros conn. unfold Users.AddUser.
  eexists. eexists. eexists. split; [reflexivity|].
  cbn [Users.allUsers Users.heap]. unfold Users.lookupUser. cbn [Users.allUsers Users.heap].
  rewrite lookup_insert_eq. cbn [mbind option_bind].
  rewrite list_lookup_middle by reflexivity.
  repeat apply conj; try reflexivity.
  - intros other Ho. apply lookup_insert_ne. congruence.
  - intros p v Hp. apply lookup_app_l_Some. exact Hp.
Qed.

(** * Further properties of the code *)

(** ** absInt *)

Lemma wrapInt_id bits z :
  0 < bits -> - 2 ^ (bits - 1) <= z < 2 ^ (bits - 1) -> wrapInt bits z = z.
Proof.
  intros Hb Hz. unfold wrapInt.
  assert (E : 2 ^ bits = 2 * 2 ^ (bits - 1)).
  { replace bits with (1 + (bits - 1)) at 1 by lia. rewrite Z.pow_add_r by lia. reflexivity. }
  rewrite Z.mod_small by lia. lia.
Qed.

Lemma wrapInt_min bits :
  0 < bits -> wrapInt bits (2 ^ (bits - 1)) = - 2 ^ (bits - 1).
Proof.
  intros Hb. unfold wrapInt.
  assert (E : 2 ^ bits = 2 * 2 ^ (bits - 1)).
  { replace bits with (1 + (bits - 1)) at 1 by lia. rewrite Z.pow_add_r by lia. reflexivity. }
  assert (0 < 2 ^ (bits - 1)) by (apply Z.pow_pos_nonneg; lia).
  replace (2 ^ (bits - 1) + 2 ^ (bits - 1)) with (2 ^ bits) by lia.
  rewrite Z.mod_same by lia. lia.
Qed.

(** X1: on every [int] but the least, [absInt] is the absolute value; on
    the least one, [-2^(bits-1)], the subtraction [0 - x] wraps around and
    [absInt] returns that same negative number. So the result is negative
    for exactly one input. *)
Theorem absInt_spec bits x :
  0 < bits -> - 2 ^ (bits - 1) <= x < 2 ^ (bits - 1) ->
  absInt bits x = (if x =? - 2 ^ (bits - 1) then x else Z.abs x) /\
  (absInt bits x < 0 <-> x = - 2 ^ (bits - 1)).
Proof.
  intros Hb Hx.
  assert (Hpos : 0 < 2 ^ (bits - 1)) by (apply Z.pow_pos_nonneg; lia).
  assert (E : absInt bits x = if x =? - 2 ^ (bits - 1) then x else Z.abs x).
  { unfold absInt. destruct (Z.eqb_spec x (- 2 ^ (bits - 1))) as [->|Hne].
    - destruct (Z.ltb_spec (- 2 ^ (bits - 1)) 0); [|lia].
      replace (0 - - 2 ^ (bits - 1)) with (2 ^ (bits - 1)) by lia.
      apply wrapInt_min. exact Hb.
    - destruct (Z.ltb_spec x 0); rewrite wrapInt_id by lia; lia. }
  split; [exact E|]. rewrite E.
  destruct (Z.eqb_spec x (- 2 ^ (bits - 1))); lia.
Qed.

(** [absInt_spec] for 64 bits, at -7. *)
Lemma absInt_spec_witness :
  0 < 64 /\ - 2 ^ (64 - 1) <= -7 < 2 ^ (64 - 1) /\
  absInt 64 (-7) = (if -7 =? - 2 ^ (64 - 1) then -7 else Z.abs (-7)) /\
  (absInt 64 (-7) < 0 <-> -7 = - 2 ^ (64 - 1)).
Proof.
  assert (H1 : 0 < 64) by lia.
  assert (H2 : - 2 ^ (64 - 1) <= -7 < 2 ^ (64 - 1)) by (vm_compute; split; [discriminate | reflexivity]).
  split; [exact H1|]. split; [exact H2|]. exact (absInt_spec 64 (-7) H1 H2).
Defined.

(** ** The query API *)

(** X2: [IsSet] tells whether [GetArgs] succeeds: it is true exactly
    when [GetArgs] returns no error, and false exactly when [GetArgs]
    returns the nil slice with [ErrFlagNotSet]; [GetArgsString] returns the
    values of the arguments [GetArgs] returns, in order, with the same
    error. *)
Theorem IsSet_GetArgs (pl : ParsedLine) (flag : string) :
  (IsSet pl flag = true <-> (GetArgs pl flag).2 = None) /\
  (IsSet pl flag = false <-> GetArgs pl flag = ([], Some ErrFlagNotSet)) /\
  GetArgsString pl flag =
    (map (fun a : Argument => value a) (GetArgs pl flag).1, (GetArgs pl flag).2).
Proof.
  unfold IsSet, GetArgs, GetArgsString, ArgValues.
  destruct (Flags pl !! flag) as [f|]; cbn [fst snd map].
  - split; [split; reflexivity|]. split; [split; discriminate | reflexivity].
  - split; [split; discriminate|]. split; [split; reflexivity | reflexivity].
Qed.

(** X3: [ExpectArgs(flag, n)] either returns what [GetArgs(flag)]
    returns, and then that is exactly [n] arguments with no error, or it
    returns the nil slice with an error; the second happens exactly when
    the flag is not set or the number of its arguments is not [n]. *)
Theorem ExpectArgs_GetArgs (pl : ParsedLine) (flag : string) (needs : Z) :
  (ExpectArgs pl flag needs = GetArgs pl flag /\
   (GetArgs pl flag).2 = None /\
   Z.of_nat (length (GetArgs pl flag).1) = needs)
  \/
  ((ExpectArgs pl flag needs).1 = [] /\
   (ExpectArgs pl flag needs).2 <> None /\
   ((GetArgs pl flag).2 <> None \/ Z.of_nat (length (GetArgs pl flag).1) <> needs)).
Proof.
  unfold ExpectArgs, GetArgs.
  destruct (Flags pl !! flag) as [f|]; cbn [fst snd].
  - destruct (Z.eqb_spec (Z.of_nat (length (Args f))) needs) as [E|E]; cbn [negb fst snd].
    + left. auto.
    + right. split; [reflexivity|]. split; [discriminate|]. right. exact E.
  - right. split; [reflexivity|]. split; [discriminate|]. left. discriminate.
Qed.

(** X4: [GetArg] and [GetArgString] never index an empty slice.
    When [GetArg] succeeds, the flag has exactly the argument it returns,
    and [GetArgString] succeeds with the value of that argument; when
    [GetArg] fails it returns the zero [Argument], and when [GetArgString]
    fails it returns the empty string. *)
Theorem GetArg_GetArgString (pl : ParsedLine) (flag : string) :
  exists r s, GetArg pl flag = Some r /\ GetArgString pl flag = Some s /\
    (r.2 = None -> GetArgs pl flag = ([r.1], None) /\ s = (value r.1, None)) /\
    (r.2 <> None -> r.1 = zeroArgument) /\
    (s.2 <> None -> s.1 = "").
Proof.
  unfold GetArg, GetArgString, ExpectArgs, GetArgs.
  destruct (Flags pl !! flag) as [f|].
  - destruct (Args f) as [|a [|b l]].
    + eexists. eexists. split; [reflexivity|]. split; [reflexivity|]. cbn [fst snd].
      split; [discriminate|]. split; reflexivity.
    + eexists. eexists. split; [reflexivity|]. split; [reflexivity|]. cbn [fst snd].
      split; [intros _; split; reflexivity|]. split; congruence.
    + destruct (Z.eqb_spec (Z.of_nat (length (a :: b :: l))) 1) as [E|_];
        [cbn [length] in E; lia|].
      destruct (Z.eqb_spec (Z.of_nat (length (a :: b :: l))) 0) as [E|_];
        [cbn [length] in E; lia|].
      eexists. eexists. split; [reflexivity|]. split; [reflexivity|]. cbn [fst snd negb].
      split; [discriminate|]. split; [reflexivity | congruence].
  - eexists. eexists. split; [reflexivity|]. split; [reflexivity|]. cbn [fst snd].
    split; [discriminate|]. split; reflexivity.
Qed.

(** ** The scanners, from the caller's side *)

Lemma code_range c : 0 <= code c < 256.
Proof.
  unfold code. pose proof (N_ascii_bounded c). lia.
Qed.

Lemma byte_code c : byte (code c) = c.
Proof. unfold byte, code. rewrite N2Z.id. apply ascii_N_embedding. Qed.

Lemma string_of_byte_low c : code c < 128 -> string_of_byte c = String c EmptyString.
Proof.
  intros H. unfold string_of_byte, string_of_rune. pose proof (code_range c).
  destruct (Z.leb_spec 0 (code c)); [|lia]. destruct (Z.leb_spec (code c) 127); [|lia].
  cbn [andb]. rewrite byte_code. reflexivity.
Qed.

Lemma len_string_of_byte c : len (string_of_byte c) = if code c <? 128 then 1 else 2.
Proof.
  unfold string_of_byte, string_of_rune. pose proof (code_range c).
  destruct (Z.leb_spec 0 (code c)); [|lia]. cbn [andb].
  destruct (Z.ltb_spec (code c) 128); destruct (Z.leb_spec (code c) 127); try lia.
  - reflexivity.
  - destruct (Z.leb_spec (code c) 2047); [|lia]. reflexivity.
Qed.

Lemma len_encodeBytes_high s : len (encodeBytes s) = len s + highBytes s.
Proof.
  induction s as [|c s IH]; [reflexivity|].
  cbn [encodeBytes highBytes]. rewrite len_append, len_String, len_string_of_byte, IH.
  destruct (code c <? 128); lia.
Qed.

Lemma highBytes_nonneg s : 0 <= highBytes s.
Proof. induction s as [|c s IH]; cbn [highBytes]; [lia|]. destruct (code c <? 128); lia. Qed.

Lemma encodeBytes_ascii s : highBytes s = 0 -> encodeBytes s = s.
Proof.
  induction s as [|c s IH]; [reflexivity|]. cbn [highBytes encodeBytes].
  pose proof (highBytes_nonneg s).
  destruct (Z.ltb_spec (code c) 128) as [Hc|Hc]; [|lia]. intros H0.
  rewrite string_of_byte_low by exact Hc. rewrite append_String, append_empty_l, IH by lia.
  reflexivity.
Qed.

(** The byte at the end of a token. *)
Lemma index_after_token line p c r :
  0 <= p ->
  dropWhile nonspace (suffix (Z.to_nat p) line) = String c r ->
  index line (p + len (token (suffix (Z.to_nat p) line))) = Some c.
Proof.
  intros Hp Hd. pose proof (len_nonneg (token (suffix (Z.to_nat p) line))) as Hn.
  unfold index. destruct (Z.ltb_spec (p + len (token (suffix (Z.to_nat p) line))) 0); [lia|].
  rewrite get_suffix, suffix_offset by lia. rewrite suffix_token, Hd. reflexivity.
Qed.

(** No byte of a token is a space. *)
Lemma token_no_space s k :
  0 <= k < len (token s) -> exists c, index s k = Some c /\ c <> space.
Proof.
  revert k. induction s as [|c s IH]; intros k Hk.
  - change (token EmptyString) with EmptyString in Hk. rewrite len_empty in Hk. lia.
  - rewrite token_String in Hk. destruct (c =? space)%char eqn:Hc.
    + rewrite len_empty in Hk. lia.
    + rewrite len_String in Hk. destruct (Z.eq_dec k 0) as [->|Hk0].
      * exists c. split; [reflexivity|]. intros ->. rewrite Ascii.eqb_refl in Hc. discriminate.
      * destruct (IH (k - 1)) as (c' & Hc' & Hne); [lia|]. exists c'. split; [|exact Hne].
        unfold index in *. destruct (Z.ltb_spec k 0); [lia|].
        destruct (Z.ltb_spec (k - 1) 0); [lia|].
        replace (Z.to_nat k) with (S (Z.to_nat (k - 1))) by lia. exact Hc'.
Qed.

Lemma index_suffix line p k :
  0 <= p -> 0 <= k -> index (suffix (Z.to_nat p) line) k = index line (p + k).
Proof.
  intros Hp Hk. unfold index.
  destruct (Z.ltb_spec k 0); [lia|]. destruct (Z.ltb_spec (p + k) 0); [lia|].
  rewrite !get_suffix, suffix_offset by lia. reflexivity.
Qed.

(** X5: [parseSingleArg] at an offset within the line returns the
    argument that starts there and ends at the first space at or after the
    offset, or at the end of the line if there is none; no byte in between
    is a space, and the value is made of these bytes, each converted with
    [string(byte)]. The offset it returns is that of the space, or that of
    the last byte of the line. *)
Theorem parseSingleArg_scan line startPos :
  0 <= startPos < len line ->
  exists arg endPos, parseSingleArg line startPos = Some (arg, endPos) /\
    start arg = startPos /\
    startPos <= end_ arg <= len line /\
    (forall k, startPos <= k < end_ arg -> exists c, index line k = Some c /\ c <> space) /\
    value arg = encodeBytes (token (suffix (Z.to_nat startPos) line)) /\
    len (token (suffix (Z.to_nat startPos) line)) = end_ arg - startPos /\
    (end_ arg < len line -> index line (end_ arg) = Some space /\ endPos = end_ arg) /\
    (end_ arg = len line -> endPos = len line - 1).
Proof.
  intros Hp. rewrite parseSingleArg_spec by lia. cbv zeta.
  set (rest := suffix (Z.to_nat startPos) line).
  eexists. eexists. split; [reflexivity|]. cbn [start end_ value arg_base].
  assert (Hne : rest <> EmptyString).
  { destruct (index_in_range line startPos Hp) as (c & _ & E). unfold rest. rewrite E.
    discriminate. }
  assert (Hlen : len rest = len line - startPos) by (apply len_suffix_offset; lia).
  pose proof (len_token rest) as Htok.
  split; [reflexivity|]. split; [lia|]. split.
  { intros k Hk. destruct (token_no_space rest (k - startPos)) as (c & Hc & Hcs); [lia|].
    exists c. split; [|exact Hcs]. unfold rest in Hc. rewrite index_suffix in Hc by lia.
    replace (startPos + (k - startPos)) with k in Hc by lia. exact Hc. }
  split; [reflexivity|]. split; [lia|].
  destruct (stopOffset_cases rest startPos 0 Hne) as [(Hd & Hl & Hs)|(r & Hd & Hl & Hs)];
    rewrite Hs.
  - split; [lia|]. intros _. lia.
  - split; [|lia]. intros _. split; [|reflexivity].
    apply (index_after_token line startPos space r); [lia | exact Hd].
Qed.

(** [parseSingleArg_scan] at offset 2 of a line of three tokens. *)
Lemma parseSingleArg_scan_witness :
  0 <= 2 < len "a bc d" /\
  exists arg endPos, parseSingleArg "a bc d" 2 = Some (arg, endPos) /\
    start arg = 2 /\
    2 <= end_ arg <= len "a bc d" /\
    (forall k, 2 <= k < end_ arg -> exists c, index "a bc d" k = Some c /\ c <> space) /\
    value arg = encodeBytes (token (suffix (Z.to_nat 2) "a bc d")) /\
    len (token (suffix (Z.to_nat 2) "a bc d")) = end_ arg - 2 /\
    (end_ arg < len "a bc d" -> index "a bc d" (end_ arg) = Some space /\ endPos = end_ arg) /\
    (end_ arg = len "a bc d" -> endPos = len "a bc d" - 1).
Proof.
  assert (H : 0 <= 2 < len "a bc d") by (vm_compute; split; [discriminate | reflexivity]).
  split; [exact H | exact (parseSingleArg_scan "a bc d" 2 H)].
Defined.

Lemma takeWhile_dropWhile p s : String.append (takeWhile p s) (dropWhile p s) = s.
Proof.
  induction s as [|c s IH]; [reflexivity|]. cbn [takeWhile dropWhile].
  destruct (p c); [|reflexivity]. rewrite append_String, IH. reflexivity.
Qed.

Lemma token_append_dashes s :
  token s = String.append (takeWhile isdash s) (token (dropWhile isdash s)).
Proof.
  induction s as [|c s IH]; [reflexivity|]. cbn [takeWhile dropWhile].
  destruct (isdash c) eqn:Hc; [|reflexivity].
  rewrite isdash_eq in Hc. rewrite token_dash_String by exact Hc.
  rewrite append_String, <- IH. reflexivity.
Qed.

Lemma encodeBytes_append s t :
  encodeBytes (String.append s t) = String.append (encodeBytes s) (encodeBytes t).
Proof.
  induction s as [|c s IH]; [reflexivity|].
  rewrite append_String. cbn [encodeBytes]. rewrite IH, append_assoc. reflexivity.
Qed.

Lemma encodeBytes_dashes s : encodeBytes (takeWhile isdash s) = takeWhile isdash s.
Proof.
  induction s as [|c s IH]; [reflexivity|]. cbn [takeWhile].
  destruct (isdash c) eqn:Hc; [|reflexivity]. cbn [encodeBytes]. rewrite IH.
  rewrite isdash_eq in Hc. apply Ascii.eqb_eq in Hc. subst c. reflexivity.
Qed.

(** X6: at the same offset [parseFlag] and [parseSingleArg] scan
    the same bytes: the flag and the argument have the same start and end,
    and the same offset is returned; the flag owns no argument, and the
    value of the argument is the leading dashes of the token followed by
    the value of the flag. *)
Theorem parseFlag_parseSingleArg line startPos :
  0 <= startPos ->
  exists f arg endPos,
    parseFlag line startPos = Some (f, endPos) /\
    parseSingleArg line startPos = Some (arg, endPos) /\
    start f = start arg /\ end_ f = end_ arg /\ Args f = [] /\
    value arg =
      String.append (takeWhile isdash (suffix (Z.to_nat startPos) line)) (value f).
Proof.
  intros Hp. rewrite parseFlag_spec, parseSingleArg_spec by lia. cbv zeta.
  eexists. eexists. eexists. split; [reflexivity|]. split; [reflexivity|].
  cbn [start end_ value arg_base flag_base Args].
  split; [reflexivity|]. split; [reflexivity|]. split; [reflexivity|].
  rewrite (token_append_dashes (suffix (Z.to_nat startPos) line)) at 1.
  rewrite encodeBytes_append, encodeBytes_dashes. reflexivity.
Qed.

(** [parseFlag_parseSingleArg] at a long flag. *)
Lemma parseFlag_parseSingleArg_witness :
  0 <= 2 /\
  exists f arg endPos,
    parseFlag "a --bc d" 2 = Some (f, endPos) /\
    parseSingleArg "a --bc d" 2 = Some (arg, endPos) /\
    start f = start arg /\ end_ f = end_ arg /\ Args f = [] /\
    value arg =
      String.append (takeWhile isdash (suffix (Z.to_nat 2) "a --bc d")) (value f).
Proof.
  assert (H : 0 <= 2) by lia.
  split; [exact H | exact (parseFlag_parseSingleArg "a --bc d" 2 H)].
Defined.

(** X7: at an offset at or past the end of the line both scanners
    return at once: the node is empty, it starts and ends at the offset,
    and the offset returned is 0, not the one given. *)
Theorem scanners_past_the_end line startPos :
  len line <= startPos ->
  parseSingleArg line startPos
    = Some (mkArgument (mkBase startPos startPos ""), 0) /\
  parseFlag line startPos
    = Some (mkFlag (mkBase startPos startPos "") [] false, 0).
Proof.
  intros H. pose proof (len_nonneg line).
  rewrite parseFlag_spec, parseSingleArg_spec by lia. cbv zeta.
  rewrite suffix_past by exact H. cbn [token takeWhile dropWhile encodeBytes stopOffset].
  rewrite len_empty, Z.add_0_r. split; reflexivity.
Qed.

(** [scanners_past_the_end] at offset 5 of a line of two bytes. *)
Lemma scanners_past_the_end_witness :
  len "ab" <= 5 /\
  parseSingleArg "ab" 5 = Some (mkArgument (mkBase 5 5 ""), 0) /\
  parseFlag "ab" 5 = Some (mkFlag (mkBase 5 5 "") [] false, 0).
Proof.
  assert (H : len "ab" <= 5) by (vm_compute; discriminate).
  split; [exact H | exact (scanners_past_the_end "ab" 5 H)].
Defined.

(** X8: the value [parseSingleArg] builds holds one byte for every
    ASCII byte it scans and two for every other byte ([string(b)] is the
    UTF-8 encoding of the code point [b]); so the value is the scanned text
    itself exactly when all its bytes are ASCII, and is longer than the span
    of the argument otherwise. *)
Theorem parseSingleArg_value_bytes line startPos :
  0 <= startPos ->
  exists arg endPos, parseSingleArg line startPos = Some (arg, endPos) /\
    len (value arg) =
      end_ arg - start arg + highBytes (token (suffix (Z.to_nat startPos) line)) /\
    (value arg = token (suffix (Z.to_nat startPos) line) <->
     highBytes (token (suffix (Z.to_nat startPos) line)) = 0).
Proof.
  intros Hp. rewrite parseSingleArg_spec by lia. cbv zeta.
  eexists. eexists. split; [reflexivity|]. cbn [start end_ value arg_base].
  rewrite len_encodeBytes_high. split; [lia|]. split.
  - intros E. apply (f_equal len) in E. rewrite len_encodeBytes_high in E. lia.
  - apply encodeBytes_ascii.
Qed.

(** [parseSingleArg_value_bytes] at the start of a line. *)
Lemma parseSingleArg_value_bytes_witness :
  0 <= 0 /\
  exists arg endPos, parseSingleArg "ab c" 0 = Some (arg, endPos) /\
    len (value arg) =
      end_ arg - start arg + highBytes (token (suffix (Z.to_nat 0) "ab c")) /\
    (value arg = token (suffix (Z.to_nat 0) "ab c") <->
     highBytes (token (suffix (Z.to_nat 0) "ab c")) = 0).
Proof.
  assert (H : 0 <= 0) by lia.
  split; [exact H | exact (parseSingleArg_value_bytes "ab c" 0 H)].
Defined.



(** ** Flag tokens *)

Lemma takeWhile_dash_token s : takeWhile isdash (token s) = takeWhile isdash s.
Proof.
  induction s as [|c s IH]; [reflexivity|]. rewrite token_String.
  destruct (c =? space)%char eqn:Hc.
  - cbn [takeWhile]. rewrite isdash_eq, (space_not_dash c Hc). reflexivity.
  - cbn [takeWhile]. destruct (isdash c); [|reflexivity]. rewrite IH. reflexivity.
Qed.

Lemma token_token s : token (token s) = token s.
Proof.
  induction s as [|c s IH]; [reflexivity|]. rewrite token_String.
  destruct (c =? space)%char eqn:Hc; [reflexivity|].
  rewrite token_String, Hc, IH. reflexivity.
Qed.

Lemma dropWhile_dash_token s : dropWhile isdash (token s) = token (dropWhile isdash s).
Proof.
  induction s as [|c s IH]; [reflexivity|]. rewrite token_String.
  destruct (c =? space)%char eqn:Hc.
  - cbn [dropWhile]. rewrite isdash_eq, (space_not_dash c Hc), token_String, Hc. reflexivity.
  - cbn [dropWhile]. destruct (isdash c) eqn:Hd; [exact IH|].
    rewrite token_String, Hc. reflexivity.
Qed.

Lemma flagName_token s : flagName (token s) = flagName s.
Proof. unfold flagName. rewrite dropWhile_dash_token. apply token_token. Qed.

Lemma leadingDashes_token s : leadingDashes (token s) = leadingDashes s.
Proof. unfold leadingDashes. rewrite takeWhile_dash_token. reflexivity. Qed.

Lemma flagNames_token s : flagNames (token s) = flagNames s.
Proof. unfold flagNames. rewrite flagName_token, leadingDashes_token. reflexivity. Qed.

(** The flag tokens from an offset on: the token at the offset, if it
    begins with a dash, then those after the offset at which its scan
    stops. *)
Lemma flagTokens_stop line p :
  0 <= p < len line ->
  flagTokens (suffix (Z.to_nat p) line) =
  (if isFlagToken (token (suffix (Z.to_nat p) line))
   then [token (suffix (Z.to_nat p) line)] else [])
  ++ flagTokens (suffix (Z.to_nat (stopOffset (suffix (Z.to_nat p) line) p 0 + 1)) line).
Proof.
  intros Hp. set (rest := suffix (Z.to_nat p) line).
  unfold flagTokens at 1. rewrite tokens_token, List.filter_app. f_equal.
  - destruct (token rest) as [|c t]; reflexivity.
  - assert (Hne : rest <> EmptyString).
    { destruct (index_in_range line p Hp) as (c & _ & E). unfold rest. rewrite E.
      discriminate. }
    assert (Hlen : len rest = len line - p) by (apply len_suffix_offset; lia).
    pose proof (len_token rest) as Htok.
    destruct (stopOffset_cases rest p 0 Hne) as [(Hd & Hl & Hs)|(r & Hd & Hl & Hs)];
      rewrite Hd, Hs.
    + rewrite suffix_past by lia. reflexivity.
    + replace (p + len (token rest) + 1) with (p + (len (token rest) + 1)) by lia.
      rewrite suffix_offset by lia. fold rest.
      replace (Z.to_nat (len (token rest) + 1))
        with (Z.to_nat (len (token rest)) + 1)%nat by lia.
      rewrite suffix_suffix, suffix_token, Hd. reflexivity.
Qed.

Lemma flagTokens_past line p : len line <= p -> flagTokens (suffix (Z.to_nat p) line) = [].
Proof. intros H. rewrite suffix_past by exact H. reflexivity. Qed.

(** [parseArgs] goes over no flag token. *)
Lemma parseArgs_loop_flagTokens line fuel p args res ep :
  0 <= p -> index line p <> Some dash ->
  parseArgs_loop fuel line p args = Some (res, ep) ->
  flagTokens (suffix (Z.to_nat (ep + 1)) line) = flagTokens (suffix (Z.to_nat p) line).
Proof.
  revert p args. induction fuel as [|fuel IH]; intros p args Hp Hnd;
    cbn [parseArgs_loop]; destruct (Z.ltb_spec p (len line)) as [Hlt|Hge]; cbn [negb];
    intros E; try discriminate;
    try (injection E as _ <-; rewrite !flagTokens_past by lia; reflexivity).
  rewrite parseSingleArg_spec in E by lia. cbn [mbind option_bind fst snd] in E.
  destruct (index_in_range line p) as (c & Hc & Hrest); [lia|].
  set (rest := suffix (Z.to_nat p) line) in *.
  set (ep1 := stopOffset rest p 0) in *.
  assert (Hne : rest <> EmptyString) by (rewrite Hrest; discriminate).
  pose proof (stopOffset_bounds rest p 0 Hne) as [Hb1 _]. fold ep1 in Hb1.
  assert (Hstop : flagTokens rest = flagTokens (suffix (Z.to_nat (ep1 + 1)) line)).
  { unfold rest, ep1. rewrite (flagTokens_stop line p) by lia. fold rest.
    rewrite Hrest, isFlagToken_token, isdash_eq.
    destruct (c =? dash)%char eqn:Hd; [|reflexivity].
    apply Ascii.eqb_eq in Hd. subst c. congruence. }
  rewrite Hstop.
  destruct (negb (ep1 =? len line - 1)) eqn:Hlast.
  - destruct (index line (ep1 + 1)) as [c'|] eqn:Hc'; cbn [mbind option_bind] in E;
      [|discriminate].
    destruct (c' =? dash)%char eqn:Hd.
    + assert (E2 : ep1 = ep) by congruence. rewrite <- E2. reflexivity.
    + apply IH in E; [exact E | lia |].
      rewrite Hc'. intros E'. injection E' as E'. subst c'. discriminate.
  - apply IH in E; [exact E | lia |].
    rewrite index_past; [discriminate|].
    apply negb_false_iff, Z.eqb_eq in Hlast. lia.
Qed.

(** ** Runes of a value *)

(** Ranging over a value built with [string(byte)] gives the bytes back. *)
Lemma runes_string_of_byte c t :
  runes (String.append (string_of_byte c) t) = code c :: runes t.
Proof.
  destruct c as [[] [] [] [] [] [] [] []]; reflexivity.
Qed.

Lemma runes_encodeBytes s : runes (encodeBytes s) = map code (list_ascii_of_string s).
Proof.
  induction s as [|c s IH]; [reflexivity|].
  cbn [encodeBytes list_ascii_of_string map]. rewrite runes_string_of_byte, IH. reflexivity.
Qed.

(** ** The two branches of the main loop, field by field *)

Lemma fold_addFlag_Flags (g : Z -> Flag) rs st :
  st_Flags (fold_left (fun st c => addFlag st (g c)) rs st)
  = fold_left (fun m (f : Flag) => <[value f := f]> m) (map g rs) (st_Flags st).
Proof.
  revert st. induction rs as [|r rs IH]; intros st; [reflexivity|].
  cbn [fold_left map]. rewrite IH. reflexivity.
Qed.

Lemma flagMap_app l k :
  flagMap (l ++ k) = fold_left (fun m (f : Flag) => <[value f := f]> m) k (flagMap l).
Proof. unfold flagMap. apply fold_left_app. Qed.

Lemma flush_fields st st0 :
  flush st = Some st0 ->
  vars st0 = vars st /\ capture st0 = capture st /\ st_Arguments st0 = st_Arguments st /\
  st_Focus st0 = st_Focus st /\ st_Section st0 = st_Section st /\
  flushed st (st_FlagsOrdered st0) (st_Flags st0).
Proof.
  unfold flush, flushed. destruct (capture st) as [p|] eqn:Hp.
  - destruct (vars st !! p) as [g|] eqn:Hg; cbn [mbind option_bind]; [|discriminate].
    intros E. injection E as <-. st_simpl.
    repeat (split; [first [reflexivity | assumption]|]).
    right. exists p, g. auto.
  - intros E. injection E as <-. repeat (split; [first [reflexivity | assumption]|]).
    left. auto.
Qed.

Lemma flagStep_fields line c i st st' i' :
  0 <= i < len line ->
  flagStep line c i st = Some (st', i') ->
  exists (nf : Flag) FO0 Fl0,
    parseFlag line i = Some (nf, i') /\
    start nf = i /\ i <= i' <= end_ nf /\ Args nf = [] /\
    value nf = encodeBytes (flagName (suffix (Z.to_nat i) line)) /\
    long nf = (leadingDashes (suffix (Z.to_nat i) line) >? 1)
              && negb (len (flagName (suffix (Z.to_nat i) line)) =? 0) /\
    flushed st FO0 Fl0 /\
    vars st' = vars st ++ [nf] /\
    st_Arguments st' = st_Arguments st /\
    ((within c nf = true /\ st_Focus st' = Some (FocusFlag (length (vars st))) /\
      st_Section st' = Some (VarPtr (length (vars st)))) \/
     (within c nf = false /\ st_Focus st' = st_Focus st /\
      st_Section st' = st_Section st)) /\
    (((long nf = true \/ len (value nf) = 1) /\ capture st' = Some (length (vars st)) /\
      st_FlagsOrdered st' = FO0 /\ st_Flags st' = Fl0) \/
     (long nf = false /\ len (value nf) <> 1 /\ capture st' = None /\
      st_FlagsOrdered st' = FO0 ++ map (bundleFlag nf i') (runes (value nf)) /\
      st_Flags st' = fold_left (fun m (f : Flag) => <[value f := f]> m)
                       (map (bundleFlag nf i') (runes (value nf))) Fl0)).
Proof.
  intros Hi. unfold flagStep.
  destruct (flush st) as [st0|] eqn:Hflush; cbn [mbind option_bind]; [|discriminate].
  destruct (flush_fields st st0 Hflush) as (Hv0 & Hc0 & Ha0 & Hf0 & Hs0 & Hfl).
  rewrite parseFlag_spec by lia. cbn [mbind option_bind fst snd].
  set (rest := suffix (Z.to_nat i) line).
  set (nf := mkFlag (mkBase i (i + len (token rest))
                            (encodeBytes (token (dropWhile isdash rest)))) []
                    ((len (takeWhile isdash rest) >? 1)
                     && negb (len (token (dropWhile isdash rest)) =? 0))).
  assert (Hne : rest <> EmptyString).
  { destruct (index_in_range line i Hi) as (ch & _ & E). unfold rest. rewrite E.
    discriminate. }
  pose proof (stopOffset_bounds rest i 0 Hne) as [Hb1 Hb2].
  set (j := stopOffset rest i 0) in *.
  set (st1 := set_vars st0 (vars st0 ++ [nf])).
  set (st2 := if within c nf
              then set_Section (set_Focus st1 (Some (FocusFlag (length (vars st0)))))
                     (Some (VarPtr (length (vars st0))))
              else st1).
  assert (H2v : vars st2 = vars st ++ [nf]).
  { unfold st2, st1. destruct (within c nf); st_simpl; rewrite Hv0; reflexivity. }
  assert (H2a : st_Arguments st2 = st_Arguments st).
  { unfold st2, st1. destruct (within c nf); st_simpl; exact Ha0. }
  assert (H2c : capture st2 = capture st).
  { unfold st2, st1. destruct (within c nf); st_simpl; exact Hc0. }
  assert (H2FO : st_FlagsOrdered st2 = st_FlagsOrdered st0).
  { unfold st2, st1. destruct (within c nf); reflexivity. }
  assert (H2Fl : st_Flags st2 = st_Flags st0).
  { unfold st2, st1. destruct (within c nf); reflexivity. }
  assert (H2f : (within c nf = true /\ st_Focus st2 = Some (FocusFlag (length (vars st))) /\
                 st_Section st2 = Some (VarPtr (length (vars st)))) \/
                (within c nf = false /\ st_Focus st2 = st_Focus st /\
                 st_Section st2 = st_Section st)).
  { unfold st2, st1. destruct (within c nf); st_simpl; rewrite ?Hv0; [left|right]; auto. }
  intros E.
  exists nf, (st_FlagsOrdered st0), (st_Flags st0).
  assert (Hres : i' = j /\
    (((long nf = true \/ len (value nf) = 1) /\ st' = set_capture st2 (Some (length (vars st0))))
     \/ (long nf = false /\ len (value nf) <> 1 /\
         st' = fold_left (fun st ch => addFlag st (bundleFlag nf j ch)) (runes (Value nf))
                 (set_capture st2 None)))).
  { fold st1 in E. fold st2 in E. destruct (long nf) eqn:Hl.
    - injection E as <- <-. split; [reflexivity|]. left. auto.
    - destruct (Z.eqb_spec (len (Value nf)) 1) as [H1|H1].
      + injection E as <- <-. split; [reflexivity|]. left. auto.
      + injection E as <- <-. split; [reflexivity|]. right. auto. }
  destruct Hres as [-> Hres].
  split; [reflexivity|]. split; [reflexivity|].
  split; [cbn [end_ nf flag_base]; lia|]. split; [reflexivity|].
  split; [reflexivity|]. split; [reflexivity|]. split; [exact Hfl|].
  destruct Hres as [(Hk & ->)|(Hl & H1 & ->)].
  - st_simpl. split; [exact H2v|]. split; [exact H2a|]. split; [exact H2f|].
    left. rewrite Hv0. auto.
  - pose proof (fold_addFlag (bundleFlag nf j) (runes (Value nf)) (set_capture st2 None))
      as (F1 & F2 & F3 & F4 & F5 & F6 & _).
    rewrite F1, F4, F5, F6, F2, F3, fold_addFlag_Flags. st_simpl.
    split; [exact H2v|]. split; [exact H2a|]. split; [exact H2f|].
    right. rewrite H2FO, H2Fl. auto.
Qed.

Lemma argStep_fields line c i st st' i' :
  argStep line c i st = Some (st', i') ->
  exists args,
    parseArgs line i = Some (args, i') /\
    st_Arguments st' = st_Arguments st ++ args /\
    st_FlagsOrdered st' = st_FlagsOrdered st /\ st_Flags st' = st_Flags st /\
    capture st' = capture st /\
    ((capture st = None /\ vars st' = vars st) \/
     (exists p (f : Flag), capture st = Some p /\ vars st !! p = Some f /\
        vars st' = <[p := Flag_set_Args f args]> (vars st))) /\
    ((Forall (fun a : Argument => within c a = false) args /\
      st_Focus st' = st_Focus st /\ st_Section st' = st_Section st) \/
     (exists a, In a args /\ within c a = true /\
        st_Focus st' = Some (FocusArgument a) /\
        st_Section st' = VarPtr <$> capture st)).
Proof.
  unfold argStep.
  destruct (parseArgs line i) as [[args j]|]; cbn [mbind option_bind fst snd]; [|discriminate].
  set (st1 := set_Arguments st (st_Arguments st ++ args)).
  set (st2 := fold_left (focusArg c) args st1).
  assert (H2 : vars st2 = vars st /\ capture st2 = capture st /\
               st_Arguments st2 = st_Arguments st ++ args /\
               st_FlagsOrdered st2 = st_FlagsOrdered st /\ st_Flags st2 = st_Flags st /\
               ((Forall (fun a : Argument => within c a = false) args /\
                 st_Focus st2 = st_Focus st /\ st_Section st2 = st_Section st) \/
                (exists a, In a args /\ within c a = true /\
                   st_Focus st2 = Some (FocusArgument a) /\
                   st_Section st2 = VarPtr <$> capture st))).
  { unfold st2. destruct (fold_focusArg c args st1) as [[Hall ->]|(a & Ha & Hw & ->)];
      unfold st1; st_simpl; repeat (split; [reflexivity|]).
    - left. auto.
    - right. exists a. auto. }
  destruct H2 as (V & C & A & FO & Fl & Foc).
  intros E. exists args.
  destruct (capture st2) as [p|] eqn:Hp.
  - destruct (vars st2 !! p) as [f|] eqn:Hf; cbn [mbind option_bind] in E; [|discriminate].
    injection E as <- <-. st_simpl. split; [reflexivity|]. split; [exact A|].
    split; [exact FO|]. split; [exact Fl|]. split; [congruence|]. split; [|exact Foc].
    right. exists p, f. rewrite <- V. auto.
  - injection E as <- <-. split; [reflexivity|]. split; [exact A|].
    split; [exact FO|]. split; [exact Fl|]. split; [congruence|]. split; [|exact Foc].
    left. auto.
Qed.

(** ** The second invariant is kept *)

Lemma inv2_init line c : inv2 line c 0 initState.
Proof.
  constructor; cbn [initState st_Flags st_FlagsOrdered vars capture st_Focus st_Arguments].
  - reflexivity.
  - exists []. repeat split.
  - discriminate.
  - constructor.
  - intros p g H. rewrite lookup_nil in H. discriminate.
  - discriminate.
  - intros _. repeat split; constructor.
Qed.

Lemma bundle_values (nf : Flag) j s :
  map (fun f : Flag => value f) (map (bundleFlag nf j) (runes (encodeBytes s)))
  = map string_of_byte (list_ascii_of_string s).
Proof.
  rewrite runes_encodeBytes, !map_map. reflexivity.
Qed.

(** What [flush] leaves, under the invariant. *)
Lemma flushed_inv2 line c i st FO0 Fl0 :
  inv2 line c i st -> flushed st FO0 Fl0 ->
  Fl0 = flagMap FO0 /\
  map (fun f : Flag => value f) FO0
    = map (fun f : Flag => value f) (st_FlagsOrdered st) ++ pendingName st /\
  Forall (fun f : Flag => Args f = [] \/ scanned line f) FO0 /\
  (forall q (g : Flag), vars st !! q = Some g -> In g FO0 \/ uncaptured g) /\
  (forall g, In g (st_FlagsOrdered st) -> In g FO0) /\
  (st_Focus st = None -> Forall (fun f : Flag => within c f = false) FO0).
Proof.
  intros [IFl _ Icap Iown Ivars IfA Inof] Hfl.
  assert (HFl0 : Fl0 = flagMap FO0).
  { destruct Hfl as [(_ & -> & ->)|(p & g & _ & _ & -> & ->)]; [exact IFl|].
    rewrite flagMap_app, IFl. reflexivity. }
  assert (Hnames0 : map (fun f : Flag => value f) FO0
                    = map (fun f : Flag => value f) (st_FlagsOrdered st) ++ pendingName st).
  { unfold pendingName.
    destruct Hfl as [(-> & -> & _)|(p & g & -> & Hg & -> & _)].
    - rewrite app_nil_r. reflexivity.
    - rewrite Hg, map_app. reflexivity. }
  assert (Hown0 : Forall (fun f : Flag => Args f = [] \/ scanned line f) FO0).
  { destruct Hfl as [(_ & -> & _)|(p & g & Hp & Hg & -> & _)]; [exact Iown|].
    apply Forall_app. split; [exact Iown|]. constructor; [|constructor].
    right. exact (Icap p g Hp Hg). }
  assert (Hvars0 : forall q (g : Flag), vars st !! q = Some g -> In g FO0 \/ uncaptured g).
  { intros q g Hq. destruct (Ivars q g Hq) as [Hc|[Hin|Hu]].
    - left. destruct Hfl as [(Hn & _ & _)|(p & g' & Hp & Hg & -> & _)]; [congruence|].
      rewrite Hc in Hp. injection Hp as <-. rewrite Hq in Hg. injection Hg as <-.
      apply in_or_app. right. left. reflexivity.
    - left. destruct Hfl as [(_ & -> & _)|(p & g' & _ & _ & -> & _)]; [exact Hin|].
      apply in_or_app. left. exact Hin.
    - right. exact Hu. }
  assert (Hin0 : forall g, In g (st_FlagsOrdered st) -> In g FO0).
  { intros g Hg. destruct Hfl as [(_ & -> & _)|(p & g' & _ & _ & -> & _)]; [exact Hg|].
    apply in_or_app. left. exact Hg. }
  assert (Hnof0 : st_Focus st = None ->
            Forall (fun f : Flag => within c f = false) FO0).
  { intros Hn. destruct (Inof Hn) as (_ & Hv & HF).
    destruct Hfl as [(_ & -> & _)|(p & g & _ & Hg & -> & _)]; [exact HF|].
    apply Forall_app. split; [exact HF|]. constructor; [|constructor].
    rewrite Forall_forall in Hv. apply Hv. eapply list_elem_of_lookup_2. exact Hg. }
  auto 10.
Qed.

Lemma flagStep_inv2 line c i st st' i' :
  0 <= i < len line -> index line i = Some dash ->
  inv2 line c i st -> flagStep line c i st = Some (st', i') ->
  inv2 line c (i' + 1) st'.
Proof.
  intros Hi Hdash Hinv Hstep.
  pose proof Hinv as [IFl (pre & Ipre & Ilen & Inames) Icap Iown Ivars IfA Inof].
  destruct (flagStep_fields line c i st st' i' Hi Hstep)
    as (nf & FO0 & Fl0 & Hpf & Hstart & Hi' & HArgs & Hval & Hlong & Hfl & Hv' & Ha' & Hfoc & Hkind).
  set (rest := suffix (Z.to_nat i) line) in *.
  (* the offset returned and the token scanned *)
  assert (Hj : i' = stopOffset rest i 0).
  { pose proof (parseFlag_spec line i ltac:(lia)) as E. cbv zeta in E. fold rest in E.
    rewrite E in Hpf. injection Hpf as _ <-. reflexivity. }
  assert (Htok : flagTokens rest = token rest :: flagTokens (suffix (Z.to_nat (i' + 1)) line)).
  { unfold rest. rewrite (flagTokens_stop line i Hi). fold rest. rewrite <- Hj.
    destruct (index_in_range line i Hi) as (ch & Hch & Hrest). fold rest in Hrest.
    rewrite Hdash in Hch. injection Hch as <-.
    rewrite Hrest, isFlagToken_token. reflexivity. }
  destruct (flushed_inv2 line c i st FO0 Fl0 Hinv Hfl)
    as (HFl0 & Hnames0 & Hown0 & Hvars0 & Hin0 & Hnof0).
  assert (Hnames : flagNames (token rest) =
            if long nf || (len (value nf) =? 1) then [value nf]
            else map string_of_byte (list_ascii_of_string (flagName rest))).
  { rewrite flagNames_token. unfold flagNames. fold rest. rewrite Hlong, Hval. reflexivity. }
  assert (Hmembers : Forall (fun f : Flag => start f = i /\ end_ f = i' /\ Args f = [])
                       (map (bundleFlag nf i') (runes (value nf)))).
  { apply Forall_forall. intros f Hf. apply list_elem_of_In, in_map_iff in Hf.
    destruct Hf as (r & <- & _). cbn. rewrite Hstart. auto. }
  constructor.
  - (* Flags *)
    destruct Hkind as [(_ & _ & -> & ->)|(_ & _ & _ & -> & ->)]; [exact HFl0|].
    rewrite flagMap_app, HFl0. reflexivity.
  - (* tokens *)
    exists (pre ++ [token rest]). split; [|split].
    + rewrite Ipre. fold rest. rewrite Htok, <- app_assoc. reflexivity.
    + rewrite Hv', !length_app, Ilen. reflexivity.
    + rewrite flat_map_app. cbn [flat_map]. rewrite app_nil_r, <- Inames, Hnames.
      unfold pendingName at 1.
      destruct Hkind as [(Hk & -> & -> & _)|(Hl & H1 & -> & -> & _)].
      * rewrite Hv', list_lookup_middle by reflexivity.
        rewrite Hnames0.
        replace (long nf || (len (value nf) =? 1)) with true; [reflexivity|].
        destruct Hk as [-> | ->]; [reflexivity | symmetry; apply orb_true_r].
      * rewrite app_nil_r, map_app, Hnames0, Hl. cbn [orb].
        destruct (Z.eqb_spec (len (value nf)) 1) as [?|_]; [contradiction|].
        f_equal. rewrite Hval. apply bundle_values.
  - (* the capturing flag *)
    intros p g Hp Hg. destruct Hkind as [(Hk & Hc' & _)|(_ & _ & Hc' & _)]; [|congruence].
    rewrite Hc' in Hp. injection Hp as <-.
    rewrite Hv', list_lookup_middle in Hg by reflexivity. injection Hg as <-.
    unfold scanned. rewrite Hstart. fold rest. split; [lia|]. split; [exact Hval | exact Hk].
  - (* owners *)
    destruct Hkind as [(_ & _ & -> & _)|(_ & _ & _ & -> & _)]; [exact Hown0|].
    apply Forall_app. split; [exact Hown0|].
    eapply Forall_impl; [exact Hmembers|]. cbn beta. intros f (_ & _ & E). left. exact E.
  - (* variables *)
    intros q g Hq. rewrite Hv' in Hq.
    assert (HFO' : forall x, In x FO0 -> In x (st_FlagsOrdered st')).
    { intros x Hx. destruct Hkind as [(_ & _ & -> & _)|(_ & _ & _ & -> & _)]; [exact Hx|].
      apply in_or_app. left. exact Hx. }
    destruct (decide (q = length (vars st))) as [->|Hne].
    + rewrite list_lookup_middle in Hq by reflexivity. injection Hq as <-.
      destruct Hkind as [(_ & -> & _)|(Hl & H1 & _)]; [left; reflexivity|].
      right. right. repeat split; assumption.
    + assert (Hq' : vars st !! q = Some g).
      { apply lookup_app_Some in Hq as [Hq|[Hge Hq]]; [exact Hq|].
        destruct (q - length (vars st))%nat as [|k] eqn:Hk; [lia|]. discriminate. }
      destruct (Hvars0 q g Hq') as [Hin|Hu]; [right; left; apply HFO', Hin | right; right; exact Hu].
  - (* a focused argument *)
    intros a Ha. rewrite Ha'.
    destruct Hfoc as [(_ & Hf & _)|(_ & Hf & _)]; rewrite Hf in Ha; [discriminate|].
    apply IfA. exact Ha.
  - (* no focus *)
    intros Hn. destruct Hfoc as [(_ & Hf & _)|(Hw & Hf & _)]; rewrite Hf in Hn; [discriminate|].
    destruct (Inof Hn) as (HA & HV & _). rewrite Ha', Hv'.
    split; [exact HA|]. split.
    + apply Forall_app. split; [exact HV|]. constructor; [exact Hw | constructor].
    + destruct Hkind as [(_ & _ & -> & _)|(_ & _ & _ & -> & _)]; [exact (Hnof0 Hn)|].
      apply Forall_app. split; [exact (Hnof0 Hn)|].
      eapply Forall_impl; [exact Hmembers|]. cbn beta. intros f (E1 & E2 & _).
      apply within_false. apply within_false in Hw. rewrite E1, E2. lia.
Qed.

Lemma argStep_inv2 line c i st st' i' :
  0 <= i < len line -> index line i <> Some dash ->
  inv2 line c i st -> argStep line c i st = Some (st', i') ->
  inv2 line c (i' + 1) st'.
Proof.
  intros Hi Hnd [IFl (pre & Ipre & Ilen & Inames) Icap Iown Ivars IfA Inof] Hstep.
  destruct (argStep_fields line c i st st' i' Hstep)
    as (args & Hpa & Ha' & HFO' & HFl' & Hc' & Hv' & Hfoc).
  assert (Hlen' : length (vars st') = length (vars st)).
  { destruct Hv' as [(_ & ->)|(p & f & _ & _ & ->)]; [reflexivity | apply length_insert]. }
  (* a variable after the step is one before it, but for its arguments *)
  assert (Hvar : forall q (g : Flag), vars st' !! q = Some g ->
            exists g0 : Flag, vars st !! q = Some g0 /\
              start g = start g0 /\ end_ g = end_ g0 /\ value g = value g0 /\
              long g = long g0 /\ (capture st <> Some q -> g = g0)).
  { intros q g Hq. destruct Hv' as [(_ & E)|(p & f & Hp & Hf & E)]; rewrite E in Hq.
    - exists g. auto 10.
    - apply list_lookup_insert_Some in Hq as [(<- & <- & _)|(Hne & Hq)].
      + exists f. repeat split; try assumption. intros Hn. congruence.
      + exists g. auto 10. }
  constructor.
  - rewrite HFl', HFO'. exact IFl.
  - exists pre. split; [|split].
    + rewrite Ipre. f_equal. symmetry.
      unfold parseArgs in Hpa.
      eapply parseArgs_loop_flagTokens; [| exact Hnd | exact Hpa]. lia.
    + rewrite Hlen'. exact Ilen.
    + rewrite HFO', <- Inames. f_equal. unfold pendingName. rewrite Hc'.
      destruct (capture st) as [p|] eqn:Hp; [|reflexivity].
      destruct Hv' as [(Hn & _)|(p' & f & Hp' & Hf & ->)]; [discriminate|].
      injection Hp' as <-. rewrite Hf.
      rewrite list_lookup_insert_eq by (eapply lookup_lt_Some; exact Hf). reflexivity.
  - intros p g Hp Hg. rewrite Hc' in Hp.
    destruct (Hvar p g Hg) as (g0 & Hg0 & E1 & _ & E3 & E4 & _).
    pose proof (Icap p g0 Hp Hg0) as (S1 & S2 & S3).
    unfold scanned. rewrite E1, E3, E4. auto.
  - rewrite HFO'. exact Iown.
  - intros q g Hq. rewrite Hc', HFO'.
    destruct (Hvar q g Hq) as (g0 & Hg0 & _ & _ & _ & _ & Hsame).
    destruct (decide (capture st = Some q)) as [Hcq|Hcq]; [left; exact Hcq|].
    rewrite (Hsame Hcq). apply Ivars. exact Hg0.
  - intros a Ha. rewrite Ha'. apply in_or_app.
    destruct Hfoc as [(_ & Hf & _)|(a' & Hin & _ & Hf & _)]; rewrite Hf in Ha.
    + left. apply IfA. exact Ha.
    + right. injection Ha as <-. exact Hin.
  - intros Hn. destruct Hfoc as [(Hall & Hf & _)|(a' & _ & _ & Hf & _)]; rewrite Hf in Hn;
      [|discriminate].
    destruct (Inof Hn) as (HA & HV & HF). rewrite Ha', HFO'.
    split; [apply Forall_app; split; assumption|]. split; [|exact HF].
    destruct Hv' as [(_ & ->)|(p & f & _ & Hf0 & ->)]; [exact HV|].
    apply Forall_insert; [exact HV|].
    rewrite Forall_forall in HV. apply (HV f). eapply list_elem_of_lookup_2. exact Hf0.
Qed.

Lemma ParseLine_loop_inv2 line c fuel i st st' :
  0 <= i -> inv2 line c i st ->
  ParseLine_loop fuel line c i st = Some st' ->
  exists j, len line <= j /\ inv2 line c j st'.
Proof.
  revert i st. induction fuel as [|fuel IH]; intros i st Hi Hinv;
    cbn [ParseLine_loop]; destruct (Z.ltb_spec i (len line)) as [Hlt|Hge]; cbn [negb];
    intros E; try discriminate;
    try (injection E as <-; exists i; split; [lia | exact Hinv]).
  destruct (index line i) as [ch|] eqn:Hch; cbn [mbind option_bind] in E; [|discriminate].
  destruct (ch =? dash)%char eqn:Hd.
  - apply Ascii.eqb_eq in Hd. subst ch.
    destruct (flagStep line c i st) as [[st1 i1]|] eqn:Hstep;
      cbn [mbind option_bind fst snd] in E; [|discriminate].
    destruct (flagStep_fields line c i st st1 i1 ltac:(lia) Hstep) as (nf & FO0 & Fl0 & _ & _ & Hi1 & _).
    eapply IH; [| |exact E]; [lia|].
    eapply flagStep_inv2; [| exact Hch | exact Hinv | exact Hstep]. lia.
  - assert (Hnd : index line i <> Some dash).
    { rewrite Hch. intros E'. injection E' as ->. rewrite Ascii.eqb_refl in Hd. discriminate. }
    destruct (argStep line c i st) as [[st1 i1]|] eqn:Hstep;
      cbn [mbind option_bind fst snd] in E; [|discriminate].
    destruct (argStep_fields line c i st st1 i1 Hstep) as (args & Hpa & _).
    destruct (parseArgs_loop_spec line (String.length line) i [] ltac:(lia)
                ltac:(unfold len; lia)) as (args' & ep & Hpa' & Hep & _).
    unfold parseArgs in Hpa. rewrite Hpa in Hpa'. injection Hpa' as _ <-.
    eapply IH; [| |exact E]; [lia|].
    eapply argStep_inv2; [| exact Hnd | exact Hinv | exact Hstep]. lia.
Qed.

(** ** What the invariants give for a result *)

Lemma ordered_nth l i j (f g : Flag) :
  ordered l -> (i < j)%nat -> l !! i = Some f -> l !! j = Some g -> precedes f g.
Proof.
  intros Hord. revert i j f g. induction Hord as [|l x Hl IH Hx]; intros i j f g Hij Hf Hg.
  - rewrite lookup_nil in Hf. discriminate.
  - apply lookup_app_Some in Hg as [Hg|[Hge Hg]].
    + assert (Hf' : l !! i = Some f).
      { apply lookup_app_Some in Hf as [Hf|[Hge _]]; [exact Hf|].
        apply lookup_lt_Some in Hg. lia. }
      exact (IH i j f g Hij Hf' Hg).
    + destruct (j - length l)%nat as [|k] eqn:Hk; [|discriminate].
      injection Hg as <-.
      assert (Hf' : l !! i = Some f).
      { apply lookup_app_Some in Hf as [Hf|[Hge' _]]; [exact Hf | lia]. }
      rewrite Forall_forall in Hx. apply Hx. eapply list_elem_of_lookup_2. exact Hf'.
Qed.

Lemma ParseLine_parsed2 line c :
  exists pl, ParseLine line c = Some pl /\ parsed line c pl /\ parsed2 line c pl.
Proof.
  destruct (ParseLine_parsed line c) as (pl & Hpl & P).
  exists pl. split; [exact Hpl|]. split; [exact P|].
  unfold ParseLine in Hpl.
  destruct (ParseLine_loop_inv line c (String.length line) 0 initState)
    as (st & j & Hloop & Hj & Hinv); [apply inv_init | unfold len; lia|].
  rewrite Hloop in Hpl. cbn [mbind option_bind] in Hpl.
  destruct (ParseLine_loop_inv2 line c (String.length line) 0 initState st
              ltac:(lia) (inv2_init line c) Hloop) as (j2 & Hj2 & Hinv2).
  destruct (finish_eq line c j st Hinv)
    as (st0 & found & cl & pl0 & Hflush & _ & Hfin & EFO & EFl & _ & Ecmd & Eargs & Efoc & _).
  rewrite Hfin in Hpl. injection Hpl as ->.
  destruct (flush_spec line c j st Hinv) as (st0' & Hflush' & _ & _ & _ & _ & _ & _ & _ & Hord & _).
  rewrite Hflush in Hflush'. injection Hflush' as <-.
  destruct (flush_fields st st0 Hflush) as (_ & _ & _ & _ & _ & Hfl).
  destruct (flushed_inv2 line c j2 st _ _ Hinv2 Hfl)
    as (HFl0 & Hnames0 & Hown0 & Hvars0 & Hin0 & Hnof0).
  destruct Hinv2 as [IFl (pre & Ipre & Ilen & Inames) Icap Iown Ivars IfA Inof].
  rewrite flagTokens_past, app_nil_r in Ipre by exact Hj2.
  (* the focus the loop left, once dereferenced *)
  assert (Hderef : forall n, st_Focus st ≫= deref_focus st = Some n ->
            match n with
            | CmdNode _ => False
            | ArgumentNode a => In a (st_Arguments st) /\ within c a = true
            | FlagNode f => (In f (st_FlagsOrdered st0) \/ uncaptured f) /\ flagTokens line <> []
            end).
  { intros n Hn. destruct (st_Focus st) as [r|] eqn:Hr; [|discriminate].
    pose proof (inv_focus line c j st Hinv r Hr) as Hok.
    destruct r as [p|a|cm]; cbn in Hn.
    - destruct (vars st !! p) as [g|] eqn:Hg; [|discriminate]. injection Hn as <-.
      split; [apply (Hvars0 p g Hg)|].
      rewrite Ipre. intros E. rewrite E in Ilen.
      apply lookup_lt_Some in Hg. cbn [length] in Ilen. lia.
    - injection Hn as <-. split; [apply IfA; reflexivity | apply Hok].
    - destruct Hok. }
  assert (Hnone : st_Focus st ≫= deref_focus st = None -> st_Focus st = None).
  { destruct (st_Focus st) as [r|] eqn:Hr; [|reflexivity]. intros Hn.
    pose proof (inv_focus line c j st Hinv r Hr) as Hok.
    destruct r as [p|a|cm]; cbn in Hn; [|discriminate|destruct Hok].
    destruct Hok as (g & Hg & _). rewrite Hg in Hn. discriminate. }
  constructor.
  - rewrite EFO, EFl. exact HFl0.
  - rewrite EFO, Hnames0, Inames, Ipre. reflexivity.
  - rewrite EFO. exact Hown0.
  - rewrite EFO. exact Hord.
  - rewrite Ecmd, Eargs. destruct (st_Arguments st); [reflexivity | discriminate].
  - intros cm Hcm. rewrite Efoc in Hcm. rewrite Ecmd.
    destruct (st_Arguments st) as [|a l]; cbn [head] in *.
    + apply Hderef in Hcm. destruct Hcm.
    + destruct (within c a); [injection Hcm as <-; reflexivity|].
      apply Hderef in Hcm. destruct Hcm.
  - intros a Ha. rewrite Efoc in Ha. rewrite Eargs.
    destruct (st_Arguments st) as [|hd tl] eqn:EA; cbn [head tail] in *.
    + apply Hderef in Ha. destruct Ha as [[] _].
    + destruct (within c hd) eqn:Hw; [discriminate|].
      apply Hderef in Ha. destruct Ha as [[<-|Hin] Hwa]; [congruence | exact Hin].
  - intros f Hf. rewrite Efoc in Hf. rewrite EFO.
    destruct (st_Arguments st) as [|hd tl]; cbn [head] in *.
    + exact (Hderef _ Hf).
    + destruct (within c hd); [discriminate | exact (Hderef _ Hf)].
  - intros Hn. rewrite Efoc in Hn. rewrite Ecmd, Eargs, EFO.
    assert (Hn' : st_Focus st = None /\
                  (forall a, head (st_Arguments st) = Some a -> within c a = false)).
    { destruct (st_Arguments st) as [|hd tl]; cbn [head] in *.
      - split; [apply Hnone, Hn | discriminate].
      - destruct (within c hd) eqn:Hw; [discriminate|].
        split; [apply Hnone, Hn|]. intros a E. injection E as <-. exact Hw. }
    destruct Hn' as [Hn0 Hhd]. destruct (Inof Hn0) as (HA & _ & _).
    split; [|split; [|exact (Hnof0 Hn0)]].
    + intros cm Hcm. destruct (head (st_Arguments st)) as [a|] eqn:Ea; [|discriminate].
      injection Hcm as <-. exact (Hhd a eq_refl).
    + destruct (st_Arguments st) as [|hd tl]; [constructor|].
      cbn [tail]. inversion HA. assumption.
Qed.

(** ** How [Flags] follows [FlagsOrdered] *)

Lemma flagMap_lookup l name : flagMap l !! name = lastNamed l name.
Proof.
  induction l as [|x l IH] using rev_ind; [reflexivity|].
  rewrite flagMap_app. cbn [fold_left]. unfold lastNamed. rewrite rev_unit. cbn [List.find].
  destruct (String.eqb_spec (value x) name) as [E|E].
  - rewrite E. apply lookup_insert_eq.
  - rewrite lookup_insert_ne by exact E. exact IH.
Qed.

Lemma lastNamed_Some l name (f : Flag) :
  lastNamed l name = Some f -> In f l /\ value f = name.
Proof.
  unfold lastNamed. intros H. apply find_some in H as [Hin E].
  split; [apply in_rev, Hin | apply String.eqb_eq, E].
Qed.

Lemma lastNamed_None l name :
  lastNamed l name = None <-> ~ In name (map (fun f : Flag => value f) l).
Proof.
  unfold lastNamed. split.
  - intros H Hin. apply in_map_iff in Hin as (f & E & Hf).
    assert (Hr : In f (rev l)) by (apply -> in_rev; exact Hf).
    pose proof (find_none _ _ H f Hr) as Hb. cbn beta in Hb.
    rewrite E, String.eqb_refl in Hb. discriminate.
  - intros H. destruct (List.find _ (rev l)) as [f|] eqn:E; [|reflexivity].
    exfalso. apply H. apply find_some in E as [Hin E]. apply String.eqb_eq in E.
    apply in_map_iff. exists f. split; [exact E | apply in_rev, Hin].
Qed.

(** ** Properties of the result of a parse *)

(** X10: the cursor decides nothing but the focus and the section:
    for one line, the results at any two cursors have the same
    [FlagsOrdered], [Flags], [Arguments] and [Command], and [RawLine] is
    the line. *)
Theorem ParseLine_cursor_independent line c c' :
  exists pl pl', ParseLine line c = Some pl /\ ParseLine line c' = Some pl' /\
    FlagsOrdered pl = FlagsOrdered pl' /\ Flags pl = Flags pl' /\
    Arguments pl = Arguments pl' /\ Command pl = Command pl' /\
    RawLine pl = line /\ RawLine pl' = line.
Proof.
  destruct (ParseLine_parsed line c) as (pl & Hpl & P).
  destruct (ParseLine_parsed line c') as (pl' & Hpl' & P').
  exists pl, pl'. split; [exact Hpl|]. split; [exact Hpl'|].
  destruct (ParseLine_structure line c c' pl pl' Hpl Hpl') as [E1 E2 E3 E4 _].
  repeat (split; [assumption|]). split; [apply (p_raw _ _ _ P) | apply (p_raw _ _ _ P')].
Qed.

(** X11: the focus is a node of the result, and one that holds the
    cursor. If [Focus] is not nil, the cursor lies within its span, and it
    is the command, or one of [Arguments], or a flag that is in
    [FlagsOrdered] or is the flag scanned for a token that does not capture
    (a bundle, or dashes alone). If [Focus] is nil, the cursor lies within
    the span of no node: not of the command, nor of one of [Arguments], nor
    of a flag of [FlagsOrdered]. *)
Theorem ParseLine_Focus line cursorPosition :
  exists pl, ParseLine line cursorPosition = Some pl /\
    (forall n, Focus pl = Some n ->
       within cursorPosition (node_base n) = true /\
       match n with
       | CmdNode cmd => Command pl = Some cmd
       | ArgumentNode a => In a (Arguments pl)
       | FlagNode f => In f (FlagsOrdered pl) \/ uncaptured f
       end) /\
    (Focus pl = None ->
       (forall cmd : Cmd, Command pl = Some cmd -> within cursorPosition cmd = false) /\
       Forall (fun a : Argument => within cursorPosition a = false) (Arguments pl) /\
       Forall (fun f : Flag => within cursorPosition f = false) (FlagsOrdered pl)).
Proof.
  destruct (ParseLine_parsed2 line cursorPosition) as (pl & Hpl & P & Q).
  exists pl. split; [exact Hpl|]. split; [|apply (q_nofocus _ _ _ Q)].
  intros n Hn. split; [apply (p_focus _ _ _ P n Hn)|].
  destruct n as [a|cmd|f].
  - apply (q_focus_arg _ _ _ Q), Hn.
  - apply (q_focus_cmd _ _ _ Q), Hn.
  - apply (q_focus_flag _ _ _ Q), Hn.
Qed.

(** X12: [Flags] is the index of [FlagsOrdered] by name, and the
    last flag wins: under a name it holds the last flag of [FlagsOrdered]
    with that name, and nothing under a name no flag has. So [IsSet] is
    true exactly for the names of the flags of [FlagsOrdered], and for a
    flag given twice [GetArgs] returns the arguments of its last
    occurrence. *)
Theorem ParseLine_Flags line cursorPosition :
  exists pl, ParseLine line cursorPosition = Some pl /\
    (forall name, Flags pl !! name = lastNamed (FlagsOrdered pl) name) /\
    (forall name, IsSet pl name = true <->
                  In name (map (fun f : Flag => value f) (FlagsOrdered pl))) /\
    (forall name, GetArgs pl name =
                  match lastNamed (FlagsOrdered pl) name with
                  | Some f => (Args f, None)
                  | None => ([], Some ErrFlagNotSet)
                  end).
Proof.
  destruct (ParseLine_parsed2 line cursorPosition) as (pl & Hpl & _ & Q).
  exists pl. split; [exact Hpl|].
  assert (H : forall name, Flags pl !! name = lastNamed (FlagsOrdered pl) name).
  { intros name. rewrite (q_Flags _ _ _ Q). apply flagMap_lookup. }
  split; [exact H|]. split.
  - intros name. unfold IsSet. rewrite H.
    destruct (lastNamed (FlagsOrdered pl) name) as [f|] eqn:E.
    + split; [intros _ | reflexivity].
      apply lastNamed_Some in E as [Hin Hv]. apply in_map_iff. exists f. auto.
    + split; [discriminate|]. intros Hin. apply lastNamed_None in E. contradiction.
  - intros name. unfold GetArgs. rewrite H. reflexivity.
Qed.

(** X13: the names of the flags of [FlagsOrdered] are, in order, the
    names that the tokens of the line that begin with a dash stand for: a
    token with two dashes or more and a name after them, or with a name of
    one byte, gives one flag with that name; any other gives one flag for
    every byte after its dashes (none for dashes alone), named by that
    byte. *)
Theorem ParseLine_flag_names line cursorPosition :
  exists pl, ParseLine line cursorPosition = Some pl /\
    map (fun f : Flag => value f) (FlagsOrdered pl)
    = flat_map flagNames (flagTokens line).
Proof.
  destruct (ParseLine_parsed2 line cursorPosition) as (pl & Hpl & _ & Q).
  exists pl. split; [exact Hpl | apply (q_names _ _ _ Q)].
Qed.

(** X14: only a flag that captures owns arguments: if a flag of
    [FlagsOrdered] has arguments, its value is the whole name of the token
    at its start offset (the bytes after the dashes), and it is long or its
    value is one byte. A flag made of one byte of a bundle owns nothing. *)
Theorem ParseLine_owners line cursorPosition :
  exists pl, ParseLine line cursorPosition = Some pl /\
    forall f : Flag, In f (FlagsOrdered pl) -> Args f <> [] ->
      0 <= start f /\
      value f = encodeBytes (flagName (suffix (Z.to_nat (start f)) line)) /\
      (long f = true \/ len (value f) = 1).
Proof.
  destruct (ParseLine_parsed2 line cursorPosition) as (pl & Hpl & _ & Q).
  exists pl. split; [exact Hpl|]. intros f Hf Hne.
  pose proof (q_owners _ _ _ Q) as H. rewrite Forall_forall in H.
  destruct (H f) as [E|S]; [apply list_elem_of_In, Hf | contradiction | exact S].
Qed.

(** X15: [FlagsOrdered] is in the order of the line, and spans do
    not cross: of two flags, the earlier one in the list has the same span
    as the later and owns no argument (two flags of one bundle), or it ends,
    and so do all its arguments, before the later one starts. *)
Theorem ParseLine_flags_in_order line cursorPosition :
  exists pl, ParseLine line cursorPosition = Some pl /\
    forall (i j : nat) (f g : Flag), (i < j)%nat ->
      FlagsOrdered pl !! i = Some f -> FlagsOrdered pl !! j = Some g ->
      (start f = start g /\ end_ f = end_ g /\ Args f = []) \/
      (end_ f < start g /\ Forall (fun a : Argument => end_ a < start g) (Args f)).
Proof.
  destruct (ParseLine_parsed2 line cursorPosition) as (pl & Hpl & _ & Q).
  exists pl. split; [exact Hpl|]. intros i j f g Hij Hf Hg.
  exact (ordered_nth _ i j f g (q_ordered _ _ _ Q) Hij Hf Hg).
Qed.

(** ** The section, case by case *)

Lemma existsb_false_all {A} (p : A -> bool) l :
  existsb p l = false -> forall x, In x l -> p x = false.
Proof.
  intros H x Hx. destruct (p x) eqn:E; [|reflexivity].
  assert (H' : existsb p l = true) by (apply existsb_exists; eauto). congruence.
Qed.

(** The four ways in which the section is decided. *)
Lemma Section_cases line c pl :
  parsed line c pl ->
  (exists g : Flag, Section_ pl = Some g /\ In g (FlagsOrdered pl) /\ within c g = true) \/
  ((forall g : Flag, In g (FlagsOrdered pl) -> within c g = false) /\
   ((exists f : Flag, Focus pl = Some (FlagNode f) /\ Section_ pl = Some f) \/
    ((forall f : Flag, Focus pl <> Some (FlagNode f)) /\
     ((exists (f : Flag) (a : Argument), In f (FlagsOrdered pl) /\ In a (Args f) /\
         within c a = true /\ Section_ pl = Some f) \/
      ((forall (f : Flag) (a : Argument), In f (FlagsOrdered pl) -> In a (Args f) ->
          within c a = false) /\
       Section_ pl = nearestLeft (FlagsOrdered pl) c))))).
Proof.
  intros P.
  destruct (existsb (fun f : Flag => within c f) (FlagsOrdered pl)) eqn:EF.
  { left. apply existsb_exists in EF as (f & Hf & Hw).
    destruct (p_sec_flag _ _ _ P f Hf Hw) as (g & Hs & Hg & Hwg & _). exists g. auto. }
  right. pose proof (existsb_false_all _ _ EF) as Hno. cbn beta in Hno.
  split; [exact Hno|].
  assert (Hfoc : (exists f, Focus pl = Some (FlagNode f)) \/
                 (forall f, Focus pl <> Some (FlagNode f))).
  { destruct (Focus pl) as [[a|cm|f]|]; [right | right | left; eauto | right];
      intros f' E; discriminate. }
  destruct Hfoc as [(f & Hf)|Hnf].
  { left. exists f. split; [exact Hf|]. apply (p_sec_focus _ _ _ P f Hf Hno). }
  right. split; [exact Hnf|].
  destruct (existsb (fun f : Flag => existsb (fun a : Argument => within c a) (Args f))
              (FlagsOrdered pl)) eqn:EA.
  { left. apply existsb_exists in EA as (f & Hf & Ha).
    apply existsb_exists in Ha as (a & Ha & Hw). exists f, a.
    repeat (split; [assumption|]). apply (p_sec_owned _ _ _ P f a Hf Ha Hw). }
  right. assert (Hna : forall (f : Flag) (a : Argument),
                   In f (FlagsOrdered pl) -> In a (Args f) -> within c a = false).
  { intros f a Hf Ha. pose proof (existsb_false_all _ _ EA f Hf) as H1. cbn beta in H1.
    exact (existsb_false_all _ _ H1 a Ha). }
  split; [exact Hna|]. apply (p_sec_else _ _ _ P Hno Hnf Hna).
Qed.

Lemma nearestLeft_Some l c (f : Flag) :
  nearestLeft l c = Some f -> In f l /\ end_ f <= c.
Proof.
  unfold nearestLeft. intros H. apply find_some in H as [Hin E].
  split; [apply in_rev, Hin | apply Z.leb_le, E].
Qed.

Lemma nearestLeft_None l c :
  nearestLeft l c = None <-> forall f : Flag, In f l -> c < end_ f.
Proof.
  unfold nearestLeft. split.
  - intros H f Hf. assert (Hr : In f (rev l)) by (apply -> in_rev; exact Hf).
    pose proof (find_none _ _ H f Hr) as Hb. cbn beta in Hb. apply Z.leb_gt in Hb. exact Hb.
  - intros H. destruct (List.find _ (rev l)) as [f|] eqn:E; [|reflexivity].
    apply find_some in E as [Hin E]. apply Z.leb_le in E.
    apply in_rev in Hin. specialize (H f Hin). lia.
Qed.

(** X16: the section is a flag the result knows: if [Section] is
    not nil, it is a flag of [FlagsOrdered], or it is the focused flag. And
    [Section] is nil exactly when the focus is not a flag and the cursor
    lies before the start of every flag of [FlagsOrdered]. *)
Theorem ParseLine_Section line cursorPosition :
  exists pl, ParseLine line cursorPosition = Some pl /\
    (forall f : Flag, Section_ pl = Some f ->
       In f (FlagsOrdered pl) \/ Focus pl = Some (FlagNode f)) /\
    (Section_ pl = None <->
     (forall f : Flag, Focus pl <> Some (FlagNode f)) /\
     (forall f : Flag, In f (FlagsOrdered pl) -> cursorPosition < start f)).
Proof.
  destruct (ParseLine_parsed line cursorPosition) as (pl & Hpl & P).
  exists pl. split; [exact Hpl|].
  pose proof (p_flags _ _ _ P) as Hspan. rewrite Forall_forall in Hspan.
  destruct (Section_cases line cursorPosition pl P)
    as [(g & Hs & Hg & Hw)|(Hno & [(f & Hf & Hs)|(Hnf & [(f & a & Hf & Ha & Hw & Hs)|(Hna & Hs)])])].
  - split; [intros f E; left; congruence|]. split; [congruence|].
    intros (_ & Hbefore). specialize (Hbefore g Hg). apply within_spec in Hw. lia.
  - split; [intros f' E; right; congruence|]. split; [congruence|].
    intros (Hnf & _). destruct (Hnf f Hf).
  - split; [intros f' E; left; congruence|]. split; [congruence|].
    intros (_ & Hbefore). specialize (Hbefore f Hf).
    destruct (Hspan f (proj2 (list_elem_of_In _ _) Hf)) as (_ & Hse & _ & Hargs).
    rewrite Forall_forall in Hargs.
    destruct (Hargs a (proj2 (list_elem_of_In _ _) Ha)) as (Hfa & _).
    apply within_spec in Hw. lia.
  - split.
    + intros f E. left. rewrite Hs in E. apply nearestLeft_Some in E. apply E.
    + rewrite Hs, nearestLeft_None. split.
      * intros Hall. split; [exact Hnf|]. intros f Hf.
        specialize (Hall f Hf). specialize (Hno f Hf). apply within_false in Hno. lia.
      * intros (_ & Hbefore) f Hf. specialize (Hbefore f Hf).
        destruct (Hspan f (proj2 (list_elem_of_In _ _) Hf)) as (_ & Hse & _). lia.
Qed.

(** X17: the command and [ArgumentsAsStrings] are the tokens of the
    line that do not begin with a dash: the command is nil exactly when
    there is none, otherwise its value is the first of them, and
    [ArgumentsAsStrings] returns the others in order (each byte converted
    with [string(byte)]), whether a flag owns them or not. *)
Theorem ParseLine_ArgumentsAsStrings line cursorPosition :
  exists pl, ParseLine line cursorPosition = Some pl /\
    ((fun cmd : Cmd => value cmd) <$> Command pl)
      = head (map encodeBytes (argTokens line)) /\
    ArgumentsAsStrings pl = tail (map encodeBytes (argTokens line)).
Proof.
  destruct (ParseLine_parsed2 line cursorPosition) as (pl & Hpl & P & Q).
  exists pl. split; [exact Hpl|].
  pose proof (p_top _ _ _ P) as Htop. unfold topLevel in Htop.
  unfold ArgumentsAsStrings.
  destruct (Command pl) as [cmd|] eqn:Ecmd.
  - rewrite <- Htop. cbn [app map head tail fmap option_fmap option_map].
    rewrite map_map. split; reflexivity.
  - rewrite (q_cmd _ _ _ Q Ecmd) in *. cbn in Htop. rewrite <- Htop. split; reflexivity.
Qed.

(** X18: a line in which no token begins with a dash has no flag
    and no section: [FlagsOrdered] and [Flags] are empty, [IsSet] is false
    for every name, and [Section] is nil, wherever the cursor is. *)
Theorem ParseLine_no_flag_token line cursorPosition :
  flagTokens line = [] ->
  exists pl, ParseLine line cursorPosition = Some pl /\
    FlagsOrdered pl = [] /\ Flags pl = ∅ /\ Section_ pl = None /\
    (forall name, IsSet pl name = false).
Proof.
  intros Hno.
  destruct (ParseLine_parsed2 line cursorPosition) as (pl & Hpl & P & Q).
  exists pl. split; [exact Hpl|].
  assert (HFO : FlagsOrdered pl = []).
  { pose proof (q_names _ _ _ Q) as H. rewrite Hno in H. cbn in H.
    destruct (FlagsOrdered pl); [reflexivity | discriminate]. }
  assert (HFl : Flags pl = ∅) by (rewrite (q_Flags _ _ _ Q), HFO; reflexivity).
  split; [exact HFO|]. split; [exact HFl|]. split.
  - rewrite (p_sec_else _ _ _ P).
    + rewrite HFO. reflexivity.
    + rewrite HFO. intros g [].
    + intros f Hf. apply (q_focus_flag _ _ _ Q) in Hf as [_ Hne]. contradiction.
    + rewrite HFO. intros f a [].
  - intros name. unfold IsSet. rewrite HFl, lookup_empty. reflexivity.
Qed.

(** [ParseLine_no_flag_token] for a line with a dash inside a token. *)
Lemma ParseLine_no_flag_token_witness :
  flagTokens "ls a-b  c" = [] /\
  exists pl, ParseLine "ls a-b  c" 4 = Some pl /\
    FlagsOrdered pl = [] /\ Flags pl = ∅ /\ Section_ pl = None /\
    (forall name, IsSet pl name = false).
Proof.
  assert (H : flagTokens "ls a-b  c" = []) by reflexivity.
  split; [exact H | exact (ParseLine_no_flag_token "ls a-b  c" 4 H)].
Defined.

(** ** Names and values are not empty *)

Lemma encodeBytes_nonempty s : s <> EmptyString -> encodeBytes s <> EmptyString.
Proof.
  intros Hs E. apply Hs. apply encodeBytes_empty. rewrite E. reflexivity.
Qed.

Lemma flagNames_nonempty tok name : In name (flagNames tok) -> name <> EmptyString.
Proof.
  unfold flagNames.
  destruct (((leadingDashes tok >? 1) && negb (len (flagName tok) =? 0))
            || (len (encodeBytes (flagName tok)) =? 1)) eqn:E.
  - intros [<-|[]] E0.
    assert (Hn : flagName tok = EmptyString)
      by (apply encodeBytes_empty; rewrite E0; reflexivity).
    rewrite Hn in E. cbn [encodeBytes] in E. rewrite len_empty in E.
    change (0 =? 0) with true in E. change (0 =? 1) with false in E.
    cbn [negb] in E. rewrite andb_false_r in E. discriminate.
  - intros Hin. apply in_map_iff in Hin as (c & <- & _). intros E0.
    pose proof (len_string_of_rune (code c)) as H. unfold string_of_byte in E0.
    rewrite E0, len_empty in H. lia.
Qed.

Lemma argTokens_nonempty s w : In w (argTokens s) -> w <> EmptyString.
Proof.
  unfold argTokens, tokens. intros H. apply filter_In in H as [H _].
  apply filter_In in H as [_ H]. intros ->. discriminate.
Qed.

(** X19: no flag has an empty name and no argument an empty value:
    the value of every flag of [FlagsOrdered], of the command and of every
    one of [Arguments] is not the empty string, so [IsSet("")] is false; a
    token of dashes alone gives no flag. *)
Theorem ParseLine_values_nonempty line cursorPosition :
  exists pl, ParseLine line cursorPosition = Some pl /\
    (forall f : Flag, In f (FlagsOrdered pl) -> value f <> "") /\
    (forall cmd : Cmd, Command pl = Some cmd -> value cmd <> "") /\
    (forall a : Argument, In a (Arguments pl) -> value a <> "") /\
    IsSet pl "" = false.
Proof.
  destruct (ParseLine_parsed2 line cursorPosition) as (pl & Hpl & P & Q).
  exists pl. split; [exact Hpl|].
  assert (HF : forall f : Flag, In f (FlagsOrdered pl) -> value f <> "").
  { intros f Hf.
    assert (Hin : In (value f) (map (fun f : Flag => value f) (FlagsOrdered pl)))
      by (apply in_map_iff; eauto).
    rewrite (q_names _ _ _ Q) in Hin. apply in_flat_map in Hin as (tok & _ & Hin).
    exact (flagNames_nonempty tok _ Hin). }
  assert (HT : forall b : baseNode, In b (topLevel pl) -> value b <> "").
  { intros b Hb.
    assert (Hin : In (value b) (map value (topLevel pl))) by (apply in_map_iff; eauto).
    rewrite (p_top _ _ _ P) in Hin. apply in_map_iff in Hin as (w & <- & Hw).
    apply encodeBytes_nonempty. exact (argTokens_nonempty line w Hw). }
  split; [exact HF|]. split; [|split].
  - intros cmd Hc. apply (HT cmd). unfold topLevel. rewrite Hc. left. reflexivity.
  - intros a Ha. apply (HT a). unfold topLevel. apply in_or_app. right.
    apply in_map_iff. eauto.
  - unfold IsSet. rewrite (q_Flags _ _ _ Q), flagMap_lookup.
    destruct (lastNamed (FlagsOrdered pl) "") as [f|] eqn:E; [|reflexivity].
    apply lastNamed_Some in E as [Hin Hv]. destruct (HF f Hin Hv).
Qed.

(** ** The node under the cursor *)

Lemma sortedArgs_nil : sortedArgs [].
Proof. intros k1 k2 a b _ H. rewrite lookup_nil in H. discriminate. Qed.

Lemma sortedArgs_one a : sortedArgs [a].
Proof.
  intros k1 k2 x y Hk H1 H2. apply lookup_lt_Some in H2. cbn [length] in H2. lia.
Qed.

Lemma sortedArgs_app l m :
  sortedArgs l -> sortedArgs m ->
  (forall a b : Argument, In a l -> In b m -> end_ a < start b) ->
  sortedArgs (l ++ m).
Proof.
  intros Hl Hm Hlm k1 k2 a b Hk H1 H2.
  apply lookup_app_Some in H1 as [H1|[G1 H1]]; apply lookup_app_Some in H2 as [H2|[G2 H2]].
  - exact (Hl k1 k2 a b Hk H1 H2).
  - apply Hlm; apply list_elem_of_In; eapply list_elem_of_lookup_2; eassumption.
  - apply lookup_lt_Some in H2. lia.
  - apply (Hm (k1 - length l)%nat (k2 - length l)%nat a b); [lia | exact H1 | exact H2].
Qed.

(** Two arguments of a sorted list that hold the same offset are one. *)
Lemma sortedArgs_within l c (a b : Argument) :
  sortedArgs l -> Forall (fun x : Argument => start x <= end_ x) l ->
  In a l -> In b l -> within c a = true -> within c b = true -> a = b.
Proof.
  intros Hs Hle Ha Hb Hwa Hwb.
  apply list_elem_of_In, list_elem_of_lookup in Ha as (k1 & H1).
  apply list_elem_of_In, list_elem_of_lookup in Hb as (k2 & H2).
  apply within_spec in Hwa. apply within_spec in Hwb.
  destruct (Nat.lt_trichotomy k1 k2) as [Hk|[Hk|Hk]].
  - pose proof (Hs k1 k2 a b Hk H1 H2). lia.
  - subst k2. congruence.
  - pose proof (Hs k2 k1 b a Hk H2 H1). lia.
Qed.

(** The arguments [parseArgs] adds come in the order of the line. *)
Lemma parseArgs_loop_sorted line fuel p args res ep :
  0 <= p <= len line ->
  parseArgs_loop fuel line p args = Some (res, ep) ->
  exists new, res = args ++ new /\ sortedArgs new /\
    Forall (fun a : Argument => p <= start a /\ start a < end_ a /\ end_ a <= len line) new.
Proof.
  revert p args. induction fuel as [|fuel IH]; intros p args Hp;
    cbn [parseArgs_loop]; destruct (Z.ltb_spec p (len line)) as [Hlt|Hge]; cbn [negb];
    intros E; try discriminate;
    try (injection E as <- _; exists []; rewrite app_nil_r;
         split; [reflexivity | split; [apply sortedArgs_nil | constructor]]).
  rewrite parseSingleArg_spec in E by lia. cbn [mbind option_bind fst snd value arg_base] in E.
  rewrite nonempty_encodeBytes in E.
  set (rest := suffix (Z.to_nat p) line) in *.
  set (tok := token rest) in *.
  set (arg := mkArgument (mkBase p (p + len tok) (encodeBytes tok))) in *.
  set (ep1 := stopOffset rest p 0) in *.
  assert (Hne : rest <> EmptyString).
  { destruct (index_in_range line p) as (c & _ & Hrest); [lia|]. unfold rest. rewrite Hrest.
    discriminate. }
  assert (Hlen : len rest = len line - p) by (apply len_suffix_offset; lia).
  pose proof (len_token rest) as Htok. fold tok in Htok.
  pose proof (stopOffset_bounds rest p 0 Hne) as [Hb1 Hb2]. fold ep1 tok in Hb1, Hb2.
  assert (Hstop : ep1 = len line - 1 \/ ep1 = p + len tok).
  { destruct (stopOffset_cases rest p 0 Hne) as [(_ & Hl & Hs)|(r & _ & Hl & Hs)];
      fold ep1 tok in Hl, Hs; lia. }
  set (new1 := if nonempty tok then [arg] else []).
  assert (Hargs1 : (if nonempty tok then args ++ [arg] else args) = args ++ new1).
  { unfold new1. destruct (nonempty tok); [reflexivity | now rewrite app_nil_r]. }
  rewrite Hargs1 in E.
  assert (Hnew1 : sortedArgs new1 /\
            Forall (fun a : Argument => p <= start a /\ start a < end_ a /\
                                        end_ a = p + len tok) new1).
  { unfold new1. destruct (nonempty tok) eqn:Hn.
    - split; [apply sortedArgs_one|]. constructor; [|constructor].
      cbn [start end_ arg arg_base]. rewrite nonempty_len in Hn.
      destruct (Z.eqb_spec (len tok) 0); [discriminate|]. lia.
    - split; [apply sortedArgs_nil | constructor]. }
  destruct Hnew1 as [Hs1 Hf1].
  assert (Hf1' : Forall (fun a : Argument =>
                           p <= start a /\ start a < end_ a /\ end_ a <= len line) new1).
  { eapply Forall_impl; [exact Hf1|]. cbn beta. intros a (? & ? & ?). lia. }
  (* going on after the stop offset *)
  assert (Hcont : parseArgs_loop fuel line (ep1 + 1) (args ++ new1) = Some (res, ep) ->
            exists new, res = args ++ new /\ sortedArgs new /\
              Forall (fun a : Argument =>
                        p <= start a /\ start a < end_ a /\ end_ a <= len line) new).
  { intros E'.
    destruct (IH (ep1 + 1) (args ++ new1) ltac:(lia) E') as (new & -> & Hs & Hf).
    exists (new1 ++ new). rewrite app_assoc. split; [reflexivity|]. split.
    - apply sortedArgs_app; [exact Hs1 | exact Hs |]. intros a b Ha Hb.
      rewrite Forall_forall in Hf1, Hf.
      destruct (Hf1 a (proj2 (list_elem_of_In _ _) Ha)) as (_ & _ & Ea).
      destruct (Hf b (proj2 (list_elem_of_In _ _) Hb)) as (Hb1' & Hb2' & Hb3').
      lia.
    - apply Forall_app. split; [exact Hf1'|].
      eapply Forall_impl; [exact Hf|]. cbn beta. intros a (? & ? & ?). lia. }
  destruct (negb (ep1 =? len line - 1)) eqn:Hlast.
  - destruct (index line (ep1 + 1)) as [c'|] eqn:Hc'; cbn [mbind option_bind] in E;
      [|discriminate].
    destruct (c' =? dash)%char eqn:Hd.
    + assert (E1 : args ++ new1 = res) by congruence. exists new1.
      split; [symmetry; exact E1|]. split; [exact Hs1 | exact Hf1'].
    + apply Hcont. exact E.
  - apply Hcont. exact E.
Qed.

Lemma inv3_init c : inv3 c initState.
Proof.
  constructor; cbn [initState st_Arguments vars st_FlagsOrdered].
  - apply sortedArgs_nil.
  - intros a [].
  - intros p g H. rewrite lookup_nil in H. discriminate.
  - intros f [].
Qed.

(** Under [inv], what was scanned before offset [i] ends before it. *)
Lemma scanned_before line c i st :
  i < len line -> inv line c i st ->
  (forall a, In a (st_Arguments st) -> start a < end_ a /\ end_ a < i) /\
  (forall p (g : Flag), vars st !! p = Some g -> end_ g < i).
Proof.
  intros Hi Hinv. split.
  - intros a Ha. pose proof (inv_Args line c i st Hinv) as H. rewrite Forall_forall in H.
    destruct (H a (proj2 (list_elem_of_In _ _) Ha)) as (_ & Hse & _ & Hb).
    split; [exact Hse | apply (before_strict line i a); [lia | exact Hb]].
  - intros p g Hg. pose proof (inv_vars line c i st Hinv) as H. rewrite Forall_forall in H.
    destruct (H g (list_elem_of_lookup_2 _ _ _ Hg)) as (_ & _ & _ & Hb & _).
    apply (before_strict line i g); [lia | exact Hb].
Qed.

Lemma flagStep_inv3 line c i st st' i' :
  0 <= i < len line ->
  inv line c i st -> inv3 c st -> flagStep line c i st = Some (st', i') ->
  inv3 c st'.
Proof.
  intros Hi Hinv [Isort Iarg Ivar IFO] Hstep.
  destruct (flagStep_fields line c i st st' i' Hi Hstep)
    as (nf & FO0 & Fl0 & Hpf & Hstart & Hi' & HArgs & Hval & Hlong & Hfl & Hv' & Ha' & Hfoc & Hkind).
  destruct (scanned_before line c i st ltac:(lia) Hinv) as [Hab Hvb].
  (* a node scanned before that holds the cursor keeps the focus *)
  assert (Hkeep : forall e, c <= e -> e < i -> st_Focus st' = st_Focus st).
  { intros e H1 H2. destruct Hfoc as [(Hw & _)|(_ & Hf & _)]; [|exact Hf].
    apply within_spec in Hw. lia. }
  assert (Hcap' : forall p, (p < length (vars st))%nat -> capture st' <> Some p).
  { intros p Hp. destruct Hkind as [(_ & -> & _)|(_ & _ & -> & _)]; [|discriminate].
    intros E. injection E as E. lia. }
  constructor.
  - rewrite Ha'. exact Isort.
  - rewrite Ha'. intros a Ha Hw. destruct (Hab a Ha) as [_ He].
    apply within_spec in Hw as Hw'.
    rewrite (Hkeep (end_ a)) by lia. exact (Iarg a Ha Hw).
  - rewrite Hv'. intros p g Hg Hw.
    apply lookup_app_Some in Hg as [Hg|[Hge Hg]].
    + apply within_spec in Hw as Hw'. pose proof (Hvb p g Hg).
      rewrite (Hkeep (end_ g)) by lia. exact (Ivar p g Hg Hw).
    + destruct (p - length (vars st))%nat as [|k] eqn:Hk; [|discriminate].
      injection Hg as <-. assert (p = length (vars st)) by lia. subst p.
      destruct Hfoc as [(_ & Hf & _)|(Hw' & _)]; [exact Hf | congruence].
  - assert (Hold : forall f : Flag, In f FO0 ->
              exists p (g : Flag), (vars st ++ [nf]) !! p = Some g /\ capture st' <> Some p /\
                start g = start f /\ end_ f <= end_ g /\ (g = f \/ uncaptured g)).
    { intros f Hf.
      assert (Hcase : In f (st_FlagsOrdered st) \/
                      exists p, capture st = Some p /\ vars st !! p = Some f).
      { destruct Hfl as [(_ & -> & _)|(p & g & Hp & Hg & -> & _)]; [left; exact Hf|].
        apply in_app_or in Hf as [Hf|[<-|[]]]; [left; exact Hf | right; eauto]. }
      destruct Hcase as [Hin|(p & Hp & Hg)].
      - destruct (IFO f Hin) as (p & g & Hg & _ & H1 & H2 & H3).
        exists p, g. split; [apply lookup_app_l_Some; exact Hg|].
        split; [apply Hcap'; eapply lookup_lt_Some; exact Hg | auto].
      - exists p, f. split; [apply lookup_app_l_Some; exact Hg|].
        split; [apply Hcap'; eapply lookup_lt_Some; exact Hg|].
        split; [reflexivity|]. split; [lia | left; reflexivity]. }
    rewrite Hv'. intros f Hf.
    destruct Hkind as [(_ & _ & E & _)|(Hl & H1 & Hc & E & _)]; rewrite E in Hf;
      [exact (Hold f Hf)|].
    apply in_app_or in Hf as [Hf|Hf]; [exact (Hold f Hf)|].
    apply in_map_iff in Hf as (r & <- & _).
    exists (length (vars st)), nf. split; [apply list_lookup_middle; reflexivity|].
    split; [rewrite Hc; discriminate|]. cbn [bundleFlag start end_ flag_base Flag_map_base
      base_set_start base_set_end base_set_value zeroFlag zeroBase].
    split; [reflexivity|]. split; [lia|]. right. repeat split; assumption.
Qed.

Lemma argStep_inv3 line c i st st' i' :
  0 <= i < len line ->
  inv line c i st -> inv3 c st -> argStep line c i st = Some (st', i') ->
  inv3 c st'.
Proof.
  intros Hi Hinv [Isort Iarg Ivar IFO] Hstep.
  destruct (argStep_fields line c i st st' i' Hstep)
    as (args & Hpa & Ha' & HFO' & HFl' & Hc' & Hv' & Hfoc).
  destruct (scanned_before line c i st ltac:(lia) Hinv) as [Hab Hvb].
  unfold parseArgs in Hpa.
  destruct (parseArgs_loop_sorted line _ i [] args i' ltac:(lia) Hpa)
    as (new & Enew & Hsorted & Hnew). cbn [app] in Enew. subst new.
  rewrite Forall_forall in Hnew.
  assert (Hnew' : forall a, In a args -> i <= start a /\ start a < end_ a).
  { intros a Ha. destruct (Hnew a (proj2 (list_elem_of_In _ _) Ha)) as (? & ? & _). lia. }
  (* a node scanned before that holds the cursor keeps the focus *)
  assert (Hkeep : forall e, c <= e -> e < i -> st_Focus st' = st_Focus st).
  { intros e H1 H2. destruct Hfoc as [(_ & Hf & _)|(a & Ha & Hw & _)]; [exact Hf|].
    apply within_spec in Hw. destruct (Hnew' a Ha). lia. }
  constructor.
  - rewrite Ha'. apply sortedArgs_app; [exact Isort | exact Hsorted|].
    intros a b Ha Hb. destruct (Hab a Ha). destruct (Hnew' b Hb). lia.
  - rewrite Ha'. intros a Ha Hw. apply in_app_or in Ha as [Ha|Ha].
    + destruct (Hab a Ha) as [_ He]. apply within_spec in Hw as Hw'.
      rewrite (Hkeep (end_ a)) by lia. exact (Iarg a Ha Hw).
    + destruct Hfoc as [(Hall & _)|(a' & Hin' & Hw' & Hf & _)].
      * rewrite Forall_forall in Hall.
        rewrite (Hall a (proj2 (list_elem_of_In _ _) Ha)) in Hw. discriminate.
      * rewrite Hf. f_equal. f_equal.
        apply (sortedArgs_within args c a' a Hsorted); try assumption.
        apply Forall_forall. intros x Hx. apply list_elem_of_In in Hx.
        destruct (Hnew' x Hx). lia.
  - intros q g Hq Hw.
    assert (Hold : exists g0 : Flag, vars st !! q = Some g0 /\
                     start g0 = start g /\ end_ g0 = end_ g).
    { destruct Hv' as [(_ & E)|(p & f & Hp & Hf & E)]; rewrite E in Hq.
      - exists g. auto.
      - apply list_lookup_insert_Some in Hq as [(<- & <- & _)|(Hne & Hq)].
        + exists f. auto.
        + exists g. auto. }
    destruct Hold as (g0 & Hg0 & E1 & E2).
    assert (Hw0 : within c g0 = true).
    { apply within_spec. apply within_spec in Hw. lia. }
    pose proof (Hvb q g0 Hg0). apply within_spec in Hw0 as Hw0'.
    rewrite (Hkeep (end_ g0)) by lia. exact (Ivar q g0 Hg0 Hw0).
  - rewrite HFO', Hc'. intros f Hf.
    destruct (IFO f Hf) as (p & g & Hg & Hcp & H1 & H2 & H3).
    exists p, g. split; [|auto].
    destruct Hv' as [(_ & ->)|(p' & f' & Hp' & _ & ->)]; [exact Hg|].
    rewrite list_lookup_insert_ne by congruence. exact Hg.
Qed.

Lemma ParseLine_loop_inv3 line c fuel i st st' :
  inv line c i st -> inv3 c st ->
  ParseLine_loop fuel line c i st = Some st' -> inv3 c st'.
Proof.
  revert i st. induction fuel as [|fuel IH]; intros i st Hinv H3;
    cbn [ParseLine_loop]; destruct (Z.ltb_spec i (len line)) as [Hlt|Hge]; cbn [negb];
    intros E; try discriminate; try (injection E as <-; exact H3).
  pose proof (inv_pos line c i st Hinv) as Hpos.
  destruct (index line i) as [ch|] eqn:Hch; cbn [mbind option_bind] in E; [|discriminate].
  destruct (ch =? dash)%char eqn:Hd.
  - apply Ascii.eqb_eq in Hd. subst ch.
    destruct (flagStep_inv line c i st Hinv Hlt Hch) as (st1 & i1 & Hstep & _ & Hinv1).
    rewrite Hstep in E. cbn [mbind option_bind fst snd] in E.
    apply (IH (i1 + 1) st1 Hinv1); [|exact E].
    apply (flagStep_inv3 line c i st st1 i1); [lia | exact Hinv | exact H3 | exact Hstep].
  - assert (Hnd : ch <> dash) by (intros ->; rewrite Ascii.eqb_refl in Hd; discriminate).
    destruct (argStep_inv line c i st ch Hinv Hlt Hch Hnd) as (st1 & i1 & Hstep & _ & Hinv1).
    rewrite Hstep in E. cbn [mbind option_bind fst snd] in E.
    apply (IH (i1 + 1) st1 Hinv1); [|exact E].
    apply (argStep_inv3 line c i st st1 i1); [lia | exact Hinv | exact H3 | exact Hstep].
Qed.

(** X20: the focus is the node under the cursor. If the cursor
    lies within the span of the command, the focus is the command; if it
    lies within the span of one of [Arguments], the focus is that
    argument; if it lies within the span of a flag of [FlagsOrdered], the
    focus is a flag that starts where that flag starts: that flag itself,
    or, for a flag made of a bundle, the flag scanned for the whole
    token. *)
Theorem ParseLine_Focus_under_cursor line cursorPosition :
  exists pl, ParseLine line cursorPosition = Some pl /\
    (forall cmd : Cmd, Command pl = Some cmd -> within cursorPosition cmd = true ->
       Focus pl = Some (CmdNode cmd)) /\
    (forall a : Argument, In a (Arguments pl) -> within cursorPosition a = true ->
       Focus pl = Some (ArgumentNode a)) /\
    (forall f : Flag, In f (FlagsOrdered pl) -> within cursorPosition f = true ->
       exists g : Flag, Focus pl = Some (FlagNode g) /\
         start g = start f /\ end_ f <= end_ g /\ (g = f \/ uncaptured g)).
Proof.
  destruct (ParseLine_parsed line cursorPosition) as (pl & Hpl & P).
  exists pl. split; [exact Hpl|]. set (c := cursorPosition) in *.
  unfold ParseLine in Hpl.
  destruct (ParseLine_loop_inv line c (String.length line) 0 initState)
    as (st & j & Hloop & Hj & Hinv); [apply inv_init | unfold len; lia|].
  rewrite Hloop in Hpl. cbn [mbind option_bind] in Hpl.
  pose proof (ParseLine_loop_inv3 line c (String.length line) 0 initState st
                (inv_init line c) (inv3_init c) Hloop) as [Isort Iarg Ivar IFO].
  destruct (finish_eq line c j st Hinv)
    as (st0 & found & cl & pl0 & Hflush & _ & Hfin & EFO & _ & _ & Ecmd & Eargs & Efoc & _).
  rewrite Hfin in Hpl. injection Hpl as ->.
  destruct (flush_fields st st0 Hflush) as (_ & _ & _ & _ & _ & Hfl).
  (* the head of the arguments does not hold the cursor unless it has the focus *)
  assert (Hhead : forall r, st_Focus st = Some r ->
            (forall a, r <> FocusArgument a) ->
            Focus pl = deref_focus st r).
  { intros r Hr Hnot. rewrite Efoc, Hr.
    destruct (st_Arguments st) as [|hd tl] eqn:EA; cbn [head]; [reflexivity|].
    destruct (within c hd) eqn:Hw; [|reflexivity].
    assert (Hin : In hd (hd :: tl)) by (left; reflexivity).
    pose proof (Iarg hd Hin Hw) as E. rewrite Hr in E. injection E as ->.
    destruct (Hnot hd eq_refl). }
  split; [|split].
  - intros cmd Hc Hw. rewrite Efoc. rewrite Ecmd in Hc.
    destruct (st_Arguments st) as [|hd tl]; cbn [head fmap option_fmap option_map] in *;
      [discriminate|]. injection Hc as <-.
    change (within c hd = true) in Hw. rewrite Hw. reflexivity.
  - intros a Ha Hw. rewrite Eargs in Ha. rewrite Efoc.
    destruct (st_Arguments st) as [|hd tl] eqn:EA; cbn [head tail] in *; [destruct Ha|].
    assert (Hina : In a (hd :: tl)) by (right; exact Ha).
    pose proof (Iarg a Hina Hw) as Hfa.
    destruct (within c hd) eqn:Hwh.
    + exfalso.
      assert (Hinh : In hd (hd :: tl)) by (left; reflexivity).
      pose proof (Iarg hd Hinh Hwh) as Hfh. rewrite Hfa in Hfh. injection Hfh as ->.
      apply list_elem_of_In, list_elem_of_lookup in Ha as (k & Hk).
      pose proof (Isort 0%nat (S k) hd hd ltac:(lia) eq_refl Hk) as Hs. apply within_spec in Hw. lia.
    + rewrite Hfa. reflexivity.
  - intros f Hf Hw. rewrite EFO in Hf.
    assert (Hvar : exists p (g : Flag), vars st !! p = Some g /\
                     start g = start f /\ end_ f <= end_ g /\ (g = f \/ uncaptured g)).
    { destruct Hfl as [(_ & E & _)|(p & g & Hp & Hg & E & _)]; rewrite E in Hf.
      - destruct (IFO f Hf) as (p & g & Hg & _ & H). eauto.
      - apply in_app_or in Hf as [Hf|[<-|[]]].
        + destruct (IFO f Hf) as (p' & g' & Hg' & _ & H). eauto.
        + exists p, g. split; [exact Hg|]. split; [reflexivity|]. split; [lia|].
          left. reflexivity. }
    destruct Hvar as (p & g & Hg & E1 & E2 & E3).
    assert (Hwg : within c g = true).
    { apply within_spec. apply within_spec in Hw. lia. }
    pose proof (Ivar p g Hg Hwg) as Hfp.
    exists g. split; [|auto].
    rewrite (Hhead _ Hfp) by discriminate. cbn [deref_focus]. rewrite Hg. reflexivity.
Qed.

(** X21: the command and [Arguments] are in the order of the
    line and do not touch: the command ends before every one of
    [Arguments] starts, and of two of [Arguments], the earlier in the list
    ends before the later starts. *)
Theorem ParseLine_arguments_in_order line cursorPosition :
  exists pl, ParseLine line cursorPosition = Some pl /\
    (forall (cmd : Cmd) (a : Argument), Command pl = Some cmd -> In a (Arguments pl) ->
       end_ cmd < start a) /\
    (forall (k1 k2 : nat) (a b : Argument), (k1 < k2)%nat ->
       Arguments pl !! k1 = Some a -> Arguments pl !! k2 = Some b -> end_ a < start b).
Proof.
  destruct (ParseLine_parsed line cursorPosition) as (pl & Hpl & P).
  exists pl. split; [exact Hpl|]. set (c := cursorPosition) in *.
  unfold ParseLine in Hpl.
  destruct (ParseLine_loop_inv line c (String.length line) 0 initState)
    as (st & j & Hloop & Hj & Hinv); [apply inv_init | unfold len; lia|].
  rewrite Hloop in Hpl. cbn [mbind option_bind] in Hpl.
  pose proof (ParseLine_loop_inv3 line c (String.length line) 0 initState st
                (inv_init line c) (inv3_init c) Hloop) as [Isort _ _ _].
  destruct (finish_eq line c j st Hinv)
    as (st0 & found & cl & pl0 & _ & _ & Hfin & _ & _ & _ & Ecmd & Eargs & _).
  rewrite Hfin in Hpl. injection Hpl as ->.
  rewrite Ecmd, Eargs.
  destruct (st_Arguments st) as [|hd tl]; cbn [head tail fmap option_fmap option_map].
  - split; [discriminate|]. intros k1 k2 a b _ H. rewrite lookup_nil in H. discriminate.
  - split.
    + intros cmd a Hc Ha. injection Hc as <-.
      apply list_elem_of_In, list_elem_of_lookup in Ha as (k & Hk).
      exact (Isort 0%nat (S k) hd a ltac:(lia) eq_refl Hk).
    + intros k1 k2 a b Hk H1 H2.
      exact (Isort (S k1) (S k2) a b ltac:(lia) H1 H2).
Qed.

(** ** The user registry *)

Section RegistryProofs.

Context {Conn Channel Requests Request : Type} (zeroRequest : Request).

Local Abbreviation registry :=
  (Users.registry (Conn:=Conn) (Channel:=Channel) (Requests:=Requests) (Request:=Request)).

Lemma RemoveUser_registered (idStr : string) (r : registry) p us :
  Users.allUsers r !! idStr = Some p -> Users.heap r !! p = Some us ->
  Users.RemoveUser idStr r =
  Some (Users.closeAll us, Users.mkRegistry (Users.heap r) (delete idStr (Users.allUsers r))).
Proof. intros H1 H2. unfold Users.RemoveUser. rewrite H1, H2. reflexivity. Qed.

Lemma RemoveUser_unregistered (idStr : string) (r : registry) :
  Users.allUsers r !! idStr = None ->
  Users.RemoveUser idStr r = Some ([], r).
Proof.
  intros H. unfold Users.RemoveUser. rewrite H. cbn [mbind option_bind].
  rewrite delete_id by exact H. destruct r; reflexivity.
Qed.


Lemma consistent_empty : consistent (emptyRegistry : registry).
Proof. intros k p H. cbn in H. rewrite lookup_empty in H. discriminate. Qed.

Lemma consistent_AddUser (idStr : string) (conn : option Conn) (r : registry) :
  consistent r ->
  consistent (Users.AddUser zeroRequest idStr conn r).2.
Proof.
  intros Hc. unfold Users.AddUser. destruct conn as [c|]; [|exact Hc].
  cbn [snd]. intros k p Hk. cbn [Users.allUsers Users.heap] in *.
  destruct (decide (k = idStr)) as [->|Hne].
  - rewrite lookup_insert_eq in Hk. injection Hk as <-.
    eexists. split; [apply list_lookup_middle; reflexivity | reflexivity].
  - rewrite lookup_insert_ne in Hk by congruence.
    destruct (Hc k p Hk) as (us & Hus & Hid). exists us. split; [|exact Hid].
    apply lookup_app_l_Some. exact Hus.
Qed.

(** X23: the registry stays consistent: every id of [allUsers]
    leads to a user that is there and that carries this id as its
    [IdString]. This holds of the empty registry, and [AddUser] (with a
    connection or with nil) and [RemoveUser] keep it; so in a registry that
    only these two functions have written to, [RemoveUser] never
    dereferences a nil user. *)
Theorem registry_consistent :
  consistent (emptyRegistry : registry) /\
  (forall idStr conn (r : registry), consistent r ->
     consistent (Users.AddUser zeroRequest idStr conn r).2) /\
  (forall idStr (r : registry), consistent r ->
     exists calls r', Users.RemoveUser idStr r = Some (calls, r') /\ consistent r').
Proof.
  split; [exact consistent_empty|]. split; [exact consistent_AddUser|].
  intros idStr r Hc.
  assert (Hdel : consistent (Users.mkRegistry (Users.heap r) (delete idStr (Users.allUsers r)))).
  { intros k p Hk. cbn [Users.allUsers Users.heap] in *.
    destruct (decide (k = idStr)) as [->|Hne].
    - rewrite lookup_delete_eq in Hk. discriminate.
    - rewrite lookup_delete_ne in Hk by congruence. apply Hc. exact Hk. }
  destruct (Users.allUsers r !! idStr) as [p|] eqn:Hp.
  - destruct (Hc idStr p Hp) as (us & Hus & _).
    eexists. eexists. split; [exact (RemoveUser_registered idStr r p us Hp Hus) | exact Hdel].
  - exists [], r. split; [exact (RemoveUser_unregistered idStr r Hp) | exact Hc].
Qed.

(** X24: [RemoveUser] after [AddUser] with a connection, for the
    same id: it closes that connection, once, and nothing else, whatever
    user the id led to before (that user's connections are not closed); the
    id then leads to no user, and if it led to none before [AddUser],
    [allUsers] is what it was. *)
Theorem AddUser_RemoveUser (idStr : string) (conn : Conn) (r : registry) :
  exists r', Users.RemoveUser idStr (Users.AddUser zeroRequest idStr (Some conn) r).2
             = Some ([Users.CloseConn conn], r') /\
    Users.allUsers r' = delete idStr (Users.allUsers r) /\
    Users.lookupUser r' idStr = None /\
    (Users.allUsers r !! idStr = None -> Users.allUsers r' = Users.allUsers r).
Proof.
  unfold Users.AddUser. cbn [snd].
  set (u := Users.mkUser idStr (Some conn) None None None zeroRequest zeroRequest).
  eexists. split.
  - rewrite (RemoveUser_registered idStr _ (length (Users.heap r)) u);
      cbn [Users.allUsers Users.heap];
      [reflexivity | apply lookup_insert_eq | apply list_lookup_middle; reflexivity].
  - cbn [Users.allUsers Users.heap]. unfold Users.lookupUser. cbn [Users.allUsers].
    rewrite delete_insert_eq. split; [reflexivity|]. split.
    + rewrite lookup_delete_eq. reflexivity.
    + intros H. apply delete_id. exact H.
Qed.

(** X25: [RemoveUser] for an id that is not registered makes no
    call and leaves the registry as it is; so a second [RemoveUser] for the
    same id, right after a first, does nothing. *)
Theorem RemoveUser_twice (idStr : string) (r : registry) :
  (Users.allUsers r !! idStr = None -> Users.RemoveUser idStr r = Some ([], r)) /\
  (forall calls r', Users.RemoveUser idStr r = Some (calls, r') ->
     Users.RemoveUser idStr r' = Some ([], r')).
Proof.
  split; [apply RemoveUser_unregistered|].
  intros calls r' E. apply RemoveUser_unregistered.
  unfold Users.RemoveUser in E.
  destruct (match Users.allUsers r !! idStr with
            | Some p => Users.heap r !! p ≫= fun us => Some (Users.closeAll us)
            | None => Some []
            end) as [cs|]; cbn [mbind option_bind] in E; [|discriminate].
  injection E as _ <-. cbn [Users.allUsers]. apply lookup_delete_eq.
Qed.

End RegistryProofs.

